(** * aescbc: streaming AES-CBC encryptor and decryptor with PKCS7 padding

    A shallow embedding of the Go package [aescbc]: the padding codec
    ([Pkcs7Pad], [Pkcs7Unpad], [checkPaddingIsValid]) and the [Write], [Read]
    and [Close] methods of [AESCBCEncryptor] and [AESCBCDecryptor].

    Conventions of the embedding.
    - A Go [[]byte] is a [list byte]; a nil slice and an empty slice are both
      [[]] (the package never tells them apart other than through [len]).
      In the methods on bytes ([Write], [Read], [Close] of the two modules)
      slices are values.  [Write] keeps a slice of its argument as the input
      overflow, so these methods describe calls whose argument lies in a
      buffer of its own that the caller does not write again; the methods on
      located slices ([Encryptor_Write_shared] and the like) describe the
      others, and the two are proved equal where they meet.
    - A Go [int] is a [Z]; lengths stay far below 2^63, so no wrap-around is
      involved in them.  The one subtraction on an argument, in [Pkcs7Pad],
      is exact for every block size of at least 1; [Pkcs7Pad_int] has the
      wrap-around.  [%] and [/] are Go's truncated operations and panic on a
      zero divisor.
    - A run-time panic (slice bounds out of range, division by zero, input
      not full blocks) is the outcome [Panics]; a method that panics leaves
      no state behind.
    - A Go [error] is an [option error], [None] being [nil].
    - The AES block primitive of [crypto/aes] is a parameter ([Block]); CBC
      chaining of [crypto/cipher] is written out over it.
    - [Copy] works on one buffer that it passes to [Write], [Read], the
      source and the sink; it is embedded over located slices. *)

From Stdlib Require Import String ZArith List Bool Lia.
From Stdlib Require Strings.Byte.
Import ListNotations.
Open Scope Z_scope.

Abbreviation byte := Init.Byte.byte.

(** ** Outcomes of Go code: a value, or a run-time panic *)

(** [OutOfFuel] belongs to the embedding only: it is what the bounded
    unrolling of a caller's loop ([ReadAll] below) yields when its bound is
    too small.  No method of the package produces it. *)
Inductive outcome (A : Type) : Type :=
| Returns (a : A)
| Panics
| OutOfFuel.
Arguments Returns {A} a.
Arguments Panics {A}.
Arguments OutOfFuel {A}.

Definition bind {A B : Type} (m : outcome A) (k : A -> outcome B) : outcome B :=
  match m with
  | Returns a => k a
  | Panics => Panics
  | OutOfFuel => OutOfFuel
  end.

Notation "x <- m ;; k" := (bind m (fun x => k))
  (at level 61, m at next level, right associativity).
Notation "' p <- m ;; k" := (bind m (fun x => match x with p => k end))
  (at level 61, p pattern, m at next level, right associativity).

(** ** Errors *)

Inductive error : Type :=
| errors_New (text : string)
| io_EOF.

Definition ErrInvalidPadding : error := errors_New "invalid padding"%string.
Definition ErrWriterClosed : error := errors_New "writer has been closed"%string.
Definition ErrNotEnoughBytes : error :=
  errors_New "not enough bytes in read buffer to strip PKCS7 padding"%string.

(** ** Integers, bytes and slices *)

Definition len {A : Type} (s : list A) : Z := Z.of_nat (length s).

(** [a % b] *)
Definition go_rem (a b : Z) : outcome Z :=
  if b =? 0 then Panics else Returns (Z.rem a b).

(** [a / b] *)
Definition go_div (a b : Z) : outcome Z :=
  if b =? 0 then Panics else Returns (Z.quot a b).

(** [byte(x)] for an [int] [x]: the low eight bits. *)
Definition byte_of_int (x : Z) : byte :=
  match Byte.of_N (Z.to_N (x mod 256)) with
  | Some b => b
  | None => Byte.x00
  end.

(** [int(b)] and [uint(b)] for a [byte] [b]. *)
Definition int_of_byte (b : byte) : Z := Z.of_N (Byte.to_N b).

(** [s[lo:hi]].  No slice expression of the package has an upper bound
    beyond the length of the slice, so the capacity is not modelled. *)
Definition slice {A : Type} (s : list A) (lo hi : Z) : outcome (list A) :=
  if (0 <=? lo) && (lo <=? hi) && (hi <=? len s)
  then Returns (firstn (Z.to_nat (hi - lo)) (skipn (Z.to_nat lo) s))
  else Panics.

(** [s[i]] *)
Definition index {A : Type} (s : list A) (i : Z) : outcome A :=
  if (0 <=? i) && (i <? len s)
  then match nth_error s (Z.to_nat i) with
       | Some a => Returns a
       | None => Panics
       end
  else Panics.

(** [copy(dst, src)]: the new contents of [dst] and the number of bytes
    copied. *)
Definition copy (dst src : list byte) : list byte * Z :=
  let n := Z.min (len dst) (len src) in
  (firstn (Z.to_nat n) src ++ skipn (Z.to_nat n) dst, n).

(** ** PKCS7 padding *)

(** The loop [for i := 0; i < pl; i++ { input = append(input, byte(pl)) }],
    run for [n] iterations. *)
Fixpoint pad_loop (n : nat) (input : list byte) (pl : Z) : list byte :=
  match n with
  | O => input
  | S n' => pad_loop n' (input ++ [byte_of_int pl]) pl
  end.

Definition Pkcs7Pad (input : list byte) (blockSize : Z) : outcome (list byte) :=
  r <- go_rem (len input) blockSize ;;
  let pl := blockSize - r in
  Returns (pad_loop (Z.to_nat pl) input pl).

(** The value of a signed integer of [bits] bits that is computed as [x]
    without bound. *)
Definition wrap (bits x : Z) : Z :=
  (x + 2 ^ (bits - 1)) mod 2 ^ bits - 2 ^ (bits - 1).

(** [Pkcs7Pad] with the subtraction [blockSize - r] as an [int] of [bits]
    bits computes it.  It is [Pkcs7Pad] unless the difference leaves the
    range of [int], which takes a block size within [len(input)] of the
    least [int]. *)
Definition Pkcs7Pad_int (bits : Z) (input : list byte) (blockSize : Z)
  : outcome (list byte) :=
  r <- go_rem (len input) blockSize ;;
  let pl := wrap bits (blockSize - r) in
  Returns (pad_loop (Z.to_nat pl) input pl).

(** The loop of [checkPaddingIsValid]: [n] is [len(p)] of the whole tail. *)
Fixpoint check_loop (p : list byte) (n : Z) : option error :=
  match p with
  | [] => None
  | pc :: rest =>
      if negb (int_of_byte pc =? n) then Some ErrInvalidPadding
      else check_loop rest n
  end.

Definition checkPaddingIsValid (input : list byte) (paddingLength : Z)
  : outcome (option error) :=
  if len input <? paddingLength then Returns (Some ErrInvalidPadding)
  else
    p <- slice input (len input - paddingLength) (len input) ;;
    Returns (check_loop p (len p)).

Definition Pkcs7Unpad (input : list byte) : outcome (list byte * option error) :=
  if len input =? 0 then Returns ([], None)
  else
    pc <- index input (len input - 1) ;;
    let pl := int_of_byte pc in
    err <- checkPaddingIsValid input pl ;;
    match err with
    | Some e => Returns ([], Some e)
    | None =>
        p <- slice input 0 (len input - pl) ;;
        Returns (p, None)
    end.

(** ** The block cipher and CBC chaining (crypto/aes, crypto/cipher) *)

(** [cipher.Block]: the AES primitive under one key.  [Encrypt] and [Decrypt]
    act on one block of [BlockSize] bytes. *)
Record Block : Type := {
  Encrypt : list byte -> list byte;
  Decrypt : list byte -> list byte
}.

Definition BlockSize : Z := 16.

(** What the theorems below require of a block cipher: both directions keep
    the block length, and [Decrypt] undoes [Encrypt]. *)
Record Block_ok (b : Block) : Prop := {
  Encrypt_length : forall x, length x = 16%nat -> length (Encrypt b x) = 16%nat;
  Decrypt_length : forall x, length x = 16%nat -> length (Decrypt b x) = 16%nat;
  Decrypt_Encrypt : forall x, length x = 16%nat -> Decrypt b (Encrypt b x) = x
}.

Definition xor_byte (a b : byte) : byte :=
  let '(a0, (a1, (a2, (a3, (a4, (a5, (a6, a7))))))) := Byte.to_bits a in
  let '(b0, (b1, (b2, (b3, (b4, (b5, (b6, b7))))))) := Byte.to_bits b in
  Byte.of_bits (xorb a0 b0, (xorb a1 b1, (xorb a2 b2, (xorb a3 b3,
               (xorb a4 b4, (xorb a5 b5, (xorb a6 b6, xorb a7 b7))))))).

(** [subtle.XORBytes]: as many bytes as the shorter operand has. *)
Fixpoint xorBytes (x y : list byte) : list byte :=
  match x, y with
  | a :: x', b :: y' => xor_byte a b :: xorBytes x' y'
  | _, _ => []
  end.

(** [cipher.BlockMode] in CBC mode: the block cipher and the chaining value,
    which [CryptBlocks] carries from one call to the next. *)
Record BlockMode : Type := {
  cbc_block : Block;
  cbc_iv : list byte
}.

(** [cipher.NewCBCEncrypter] and [cipher.NewCBCDecrypter] panic on an IV whose
    length is not the block size. *)
Definition NewCBC (blk : Block) (iv0 : list byte) : outcome BlockMode :=
  if len iv0 =? BlockSize then Returns {| cbc_block := blk; cbc_iv := iv0 |} else Panics.

(** [n] blocks of CBC encryption: each block is xored with the chaining value
    and encrypted, and becomes the next chaining value. *)
Fixpoint encrypt_blocks (n : nat) (blk : Block) (chain src : list byte)
  : list byte * list byte :=
  match n with
  | O => ([], chain)
  | S n' =>
      let c := Encrypt blk (xorBytes (firstn 16 src) chain) in
      let '(rest, chain') := encrypt_blocks n' blk c (skipn 16 src) in
      (c ++ rest, chain')
  end.

(** [n] blocks of CBC decryption: each block is decrypted and xored with the
    chaining value; the ciphertext block becomes the next chaining value. *)
Fixpoint decrypt_blocks (n : nat) (blk : Block) (chain src : list byte)
  : list byte * list byte :=
  match n with
  | O => ([], chain)
  | S n' =>
      let c := firstn 16 src in
      let p := xorBytes (Decrypt blk c) chain in
      let '(rest, chain') := decrypt_blocks n' blk c (skipn 16 src) in
      (p ++ rest, chain')
  end.

Definition crypt_blocks
  (blocks : nat -> Block -> list byte -> list byte -> list byte * list byte)
  (x : BlockMode) (src : list byte) : outcome (list byte * BlockMode) :=
  r <- go_rem (len src) BlockSize ;;
  if negb (r =? 0) then Panics
  else
    let '(dst, chain) :=
      blocks (Z.to_nat (Z.quot (len src) BlockSize)) (cbc_block x) (cbc_iv x) src in
    Returns (dst, {| cbc_block := cbc_block x; cbc_iv := chain |}).

(** [CryptBlocks] of the CBC encrypter: panics unless [src] is a whole number
    of blocks; returns the contents of [dst[:len(src)]]. *)
Definition CBCEncrypter_CryptBlocks := crypt_blocks encrypt_blocks.

(** [CryptBlocks] of the CBC decrypter. *)
Definition CBCDecrypter_CryptBlocks := crypt_blocks decrypt_blocks.

(** A call a client makes on a stream: [Write(p)], [Read(buf)] or [Close()]. *)
Inductive call : Type :=
| CallWrite (p : list byte)
| CallRead (buf : list byte)
| CallClose.

(** ** AESCBCEncryptor *)

Module AESCBCEncryptor.

Record t : Type := {
  IV : list byte;
  AESKey : list byte;
  CopyBufferSize : Z;
  inputoverflow : list byte;
  outputoverflow : list byte;
  cipher : Block;
  cbc : BlockMode;
  isClosed : bool
}.

(** The stream with its mutable fields replaced. *)
Definition update (e : t) (io oo : list byte) (m : BlockMode) (closed : bool) : t :=
  {| IV := IV e; AESKey := AESKey e; CopyBufferSize := CopyBufferSize e;
     inputoverflow := io; outputoverflow := oo;
     cipher := cipher e; cbc := m; isClosed := closed |}.

(** The stream [NewAESCBCEncryptor] returns. *)
Definition fresh (key iv0 : list byte) (c : Block) (m : BlockMode) : t :=
  {| IV := iv0; AESKey := key; CopyBufferSize := 5 * 1024 * 1024;
     inputoverflow := []; outputoverflow := [];
     cipher := c; cbc := m; isClosed := false |}.

(** [Write]: the count, the error and the stream afterwards. *)
Definition Write (e : t) (p : list byte) : outcome (Z * option error * t) :=
  if isClosed e then Returns (0, Some ErrWriterClosed, e)
  else
    let p := if len (inputoverflow e) >? 0 then inputoverflow e ++ p else p in
    r <- go_rem (len p) BlockSize ;;
    '(io, p) <-
      (if negb (r =? 0) then
         numFullBlocks <- go_div (len p) BlockSize ;;
         let sizeFullBlocks := numFullBlocks * BlockSize in
         let extraBytes := len p - sizeFullBlocks in
         io <- slice p (len p - extraBytes) (len p) ;;
         p' <- slice p 0 sizeFullBlocks ;;
         Returns (io, p')
       else
         io <- slice p (len p - BlockSize) (len p) ;;
         p' <- slice p 0 (len p - BlockSize) ;;
         Returns (io, p')) ;;
    '(cipherText, m) <- CBCEncrypter_CryptBlocks (cbc e) p ;;
    Returns (len p, None,
             update e io (outputoverflow e ++ cipherText) m (isClosed e)).

(** [Read]: the caller's buffer afterwards, the count, the error and the
    stream afterwards. *)
Definition Read (e : t) (p : list byte)
  : outcome (list byte * Z * option error * t) :=
  if isClosed e && (len (outputoverflow e) =? 0)
  then Returns (p, 0, Some io_EOF, e)
  else if len p >=? len (outputoverflow e) then
    let '(p', n) := copy p (outputoverflow e) in
    oo <- slice (outputoverflow e) 0 0 ;;
    Returns (p', n, None, update e (inputoverflow e) oo (cbc e) (isClosed e))
  else
    let '(p', n) := copy p (outputoverflow e) in
    oo <- slice (outputoverflow e) n (len (outputoverflow e)) ;;
    Returns (p', n, None, update e (inputoverflow e) oo (cbc e) (isClosed e)).

Definition Close (e : t) : outcome t :=
  p <- Pkcs7Pad (inputoverflow e) BlockSize ;;
  '(lastBlock, m) <- CBCEncrypter_CryptBlocks (cbc e) p ;;
  Returns (update e (inputoverflow e) (outputoverflow e ++ lastBlock) m true).

(** A caller's sequence of [Write] calls, one per chunk, results dropped;
    every chunk in a buffer of its own that the caller does not write again.
    [Write] keeps the last block of its argument, so for chunks passed
    through one buffer the calls are those of [Encryptor_collect_mem]. *)
Fixpoint WriteChunks (e : t) (chunks : list (list byte)) : outcome t :=
  match chunks with
  | [] => Returns e
  | c :: rest => '(_, e') <- Write e c ;; WriteChunks e' rest
  end.

(** The drain loop of [Copy]:
    [for { n, _ = e.Read(buf); if n == 0 { break }; dst.Write(buf[:n]) }],
    unrolled at most [fuel] times; the bytes handed to [dst] and the stream
    afterwards. *)
Fixpoint ReadAll (fuel : nat) (e : t) (buf : list byte)
  : outcome (list byte * t) :=
  match fuel with
  | O => OutOfFuel
  | S fuel' =>
      '(buf', n, _, e') <- Read e buf ;;
      if n =? 0 then Returns ([], e')
      else
        chunk <- slice buf' 0 n ;;
        '(rest, e'') <- ReadAll fuel' e' buf' ;;
        Returns (chunk ++ rest, e'')
  end.

(** One call, results dropped, and a sequence of calls. *)
Definition step (e : t) (c : call) : outcome t :=
  match c with
  | CallWrite p => '(_, e') <- Write e p ;; Returns e'
  | CallRead buf => '(_, e') <- Read e buf ;; Returns e'
  | CallClose => Close e
  end.

Fixpoint run (e : t) (calls : list call) : outcome t :=
  match calls with
  | [] => Returns e
  | c :: rest => e' <- step e c ;; run e' rest
  end.

End AESCBCEncryptor.

(** [NewAESCBCEncryptor], given the AES constructor and the bytes that
    [rand.Read] put into the 32-byte key buffer and the 16-byte IV buffer. *)
Definition NewAESCBCEncryptor (aes_NewCipher : list byte -> Block)
  (randKey randIV : list byte) : outcome AESCBCEncryptor.t :=
  let c := aes_NewCipher randKey in
  m <- NewCBC c randIV ;;
  Returns (AESCBCEncryptor.fresh randKey randIV c m).

(** ** AESCBCDecryptor *)

Module AESCBCDecryptor.

Record t : Type := {
  iv : list byte;
  aesKey : list byte;
  CopyBufferSize : Z;
  inputoverflow : list byte;
  outputoverflow : list byte;
  cipher : Block;
  cbc : BlockMode;
  isClosed : bool
}.

Definition update (e : t) (io oo : list byte) (m : BlockMode) (closed : bool) : t :=
  {| iv := iv e; aesKey := aesKey e; CopyBufferSize := CopyBufferSize e;
     inputoverflow := io; outputoverflow := oo;
     cipher := cipher e; cbc := m; isClosed := closed |}.

(** The stream [NewAESCBCDecryptor] returns. *)
Definition fresh (key iv0 : list byte) (c : Block) (m : BlockMode) : t :=
  {| iv := iv0; aesKey := key; CopyBufferSize := 5 * 1024 * 1024;
     inputoverflow := []; outputoverflow := [];
     cipher := c; cbc := m; isClosed := false |}.

Definition Write (e : t) (p : list byte) : outcome (Z * option error * t) :=
  if isClosed e then Returns (0, Some ErrWriterClosed, e)
  else
    let p := if len (inputoverflow e) >? 0 then inputoverflow e ++ p else p in
    r <- go_rem (len p) BlockSize ;;
    '(io, p) <-
      (if negb (r =? 0) then
         numFullBlocks <- go_div (len p) BlockSize ;;
         let sizeFullBlocks := numFullBlocks * BlockSize in
         let extraBytes := len p - sizeFullBlocks in
         io <- slice p (len p - extraBytes) (len p) ;;
         p' <- slice p 0 sizeFullBlocks ;;
         Returns (io, p')
       else
         Returns (if len (inputoverflow e) >? 0 then [] else inputoverflow e,
                  p)) ;;
    '(plaintext, m) <- CBCDecrypter_CryptBlocks (cbc e) p ;;
    Returns (len p, None,
             update e io (outputoverflow e ++ plaintext) m (isClosed e)).

Definition Read (e : t) (p : list byte)
  : outcome (list byte * Z * option error * t) :=
  if (len (outputoverflow e) =? 0) && isClosed e
  then Returns (p, 0, Some io_EOF, e)
  else
    let bytesToRetain := if isClosed e then 0 else 16 in
    if len p >=? len (outputoverflow e) - bytesToRetain then
      src <- slice (outputoverflow e) 0 (len (outputoverflow e) - bytesToRetain) ;;
      let '(p', n) := copy p src in
      oo <- slice (outputoverflow e)
                  (len (outputoverflow e) - bytesToRetain)
                  (len (outputoverflow e)) ;;
      Returns (p', n, None, update e (inputoverflow e) oo (cbc e) (isClosed e))
    else
      let '(p', n) := copy p (outputoverflow e) in
      oo <- slice (outputoverflow e) n (len (outputoverflow e)) ;;
      Returns (p', n, None, update e (inputoverflow e) oo (cbc e) (isClosed e)).

Definition Close (e : t) : outcome (option error * t) :=
  if len (outputoverflow e) <? 16 then Returns (Some ErrNotEnoughBytes, e)
  else
    '(p, err) <- Pkcs7Unpad (outputoverflow e) ;;
    match err with
    | Some x => Returns (Some x, e)
    | None => Returns (None, update e (inputoverflow e) p (cbc e) true)
    end.

(** A caller's sequence of [Write] calls, one per chunk, results dropped;
    every chunk in a buffer of its own that the caller does not write again.
    [Write] keeps the residue of its argument, so for chunks passed through
    one buffer the calls are those of [Decryptor_WriteArgs]. *)
Fixpoint WriteChunks (e : t) (chunks : list (list byte)) : outcome t :=
  match chunks with
  | [] => Returns e
  | c :: rest => '(_, e') <- Write e c ;; WriteChunks e' rest
  end.

(** The drain loop of [Copy], as for the encryptor. *)
Fixpoint ReadAll (fuel : nat) (e : t) (buf : list byte)
  : outcome (list byte * t) :=
  match fuel with
  | O => OutOfFuel
  | S fuel' =>
      '(buf', n, _, e') <- Read e buf ;;
      if n =? 0 then Returns ([], e')
      else
        chunk <- slice buf' 0 n ;;
        '(rest, e'') <- ReadAll fuel' e' buf' ;;
        Returns (chunk ++ rest, e'')
  end.

(** One call, results dropped, and a sequence of calls. *)
Definition step (e : t) (c : call) : outcome t :=
  match c with
  | CallWrite p => '(_, e') <- Write e p ;; Returns e'
  | CallRead buf => '(_, e') <- Read e buf ;; Returns e'
  | CallClose => '(_, e') <- Close e ;; Returns e'
  end.

Fixpoint run (e : t) (calls : list call) : outcome t :=
  match calls with
  | [] => Returns e
  | c :: rest => e' <- step e c ;; run e' rest
  end.

End AESCBCDecryptor.

(** [NewAESCBCDecryptor]: the stream (when there is no error) and the error. *)
Definition NewAESCBCDecryptor (aes_NewCipher : list byte -> Block)
  (aesKey iv : list byte) : outcome (option AESCBCDecryptor.t * option error) :=
  if negb (len aesKey =? 32)
  then Returns (None, Some (errors_New "aes key must be 32 bytes long"%string))
  else if negb (len iv =? 16)
  then Returns (None, Some (errors_New "IV must be 16 bytes long"%string))
  else
    let c := aes_NewCipher aesKey in
    m <- NewCBC c iv ;;
    Returns (Some (AESCBCDecryptor.fresh aesKey iv c m), None).

(** ** Whole-stream drivers *)

(** Write every chunk, close, and drain with a buffer [buf]: the ciphertext.
    The chunks are in buffers of their own, as for [WriteChunks];
    [encrypt_args] has the caller's buffers. *)
Definition encrypt_chunks (aes_NewCipher : list byte -> Block)
  (key iv0 : list byte) (chunks : list (list byte)) (buf : list byte)
  : outcome (list byte) :=
  e <- NewAESCBCEncryptor aes_NewCipher key iv0 ;;
  e <- AESCBCEncryptor.WriteChunks e chunks ;;
  e <- AESCBCEncryptor.Close e ;;
  '(c, _) <- AESCBCEncryptor.ReadAll
               (S (length (AESCBCEncryptor.outputoverflow e))) e buf ;;
  Returns c.

(** Write the ciphertext in one call, close, and drain: the plaintext, or the
    error of [NewAESCBCDecryptor] or [Close]. *)
Definition decrypt_all (aes_NewCipher : list byte -> Block)
  (key iv0 : list byte) (c : list byte) (buf : list byte)
  : outcome (list byte * option error) :=
  '(d, err) <- NewAESCBCDecryptor aes_NewCipher key iv0 ;;
  match d with
  | None => Returns ([], err)
  | Some d =>
      '(_, d) <- AESCBCDecryptor.Write d c ;;
      '(err, d) <- AESCBCDecryptor.Close d ;;
      match err with
      | Some x => Returns ([], Some x)
      | None =>
          '(p, _) <- AESCBCDecryptor.ReadAll
                       (S (length (AESCBCDecryptor.outputoverflow d))) d buf ;;
          Returns (p, None)
      end
  end.

(** ** A small block cipher to run the streams on

    Not AES: a keyed toy permutation of 16-byte blocks (xor with the head of
    the key, then reversal), used to evaluate the streams on concrete
    inputs. *)

Definition toy_NewCipher (key : list byte) : Block :=
  {| Encrypt := fun x => rev (xorBytes x (firstn 16 key));
     Decrypt := fun y => xorBytes (rev y) (firstn 16 key) |}.

Definition zeros (n : nat) : list byte := repeat Byte.x00 n.

Definition toy_key : list byte := repeat Byte.x2a 32.
Definition toy_iv : list byte := repeat Byte.x01 16.
Definition toy_cbc : BlockMode :=
  {| cbc_block := toy_NewCipher toy_key; cbc_iv := toy_iv |}.

(** The streams the two constructors return for the toy cipher. *)
Definition toy_encryptor : AESCBCEncryptor.t :=
  AESCBCEncryptor.fresh toy_key toy_iv (toy_NewCipher toy_key) toy_cbc.
Definition toy_decryptor : AESCBCDecryptor.t :=
  AESCBCDecryptor.fresh toy_key toy_iv (toy_NewCipher toy_key) toy_cbc.

(** The value of an outcome, [dflt] when there is none. *)
Definition value_or {A : Type} (dflt : A) (o : outcome A) : A :=
  match o with
  | Returns a => a
  | _ => dflt
  end.

(** The plaintext "hello". *)
Definition hello : list byte := [Byte.x68; Byte.x65; Byte.x6c; Byte.x6c; Byte.x6f].

(** ** Closed forms used in the statements *)

(** The number of whole blocks in [src]. *)
Definition nblocks (src : list byte) : nat := Z.to_nat (len src / 16).

(** CBC encryption of [src] from the chaining value [chain]: the ciphertext
    and the chaining value afterwards. *)
Definition cbc_encrypt (blk : Block) (chain src : list byte)
  : list byte * list byte :=
  encrypt_blocks (nblocks src) blk chain src.

Definition cbc_decrypt (blk : Block) (chain src : list byte)
  : list byte * list byte :=
  decrypt_blocks (nblocks src) blk chain src.

(** How many bytes of a combined buffer of [n > 0] bytes the encryptor's
    [Write] keeps back: the trailing partial block, or one whole block when
    [n] is a multiple of 16. *)
Definition retained (n : Z) : Z := if n mod 16 =? 0 then 16 else n mod 16.

(** The bytes [Pkcs7Pad] appends to [n] bytes of data for block size 16. *)
Definition padding (n : Z) : list byte :=
  repeat (byte_of_int (16 - n mod 16)) (Z.to_nat (16 - n mod 16)).

(** The encryptor after [Write] has processed the combined buffer [T] (input
    overflow followed by the written bytes): all but the retained bytes are
    encrypted onto the output overflow. *)
Definition Encryptor_written (e : AESCBCEncryptor.t) (T : list byte)
  : AESCBCEncryptor.t :=
  let h := Z.to_nat (len T - retained (len T)) in
  let r := cbc_encrypt (cbc_block (AESCBCEncryptor.cbc e))
                       (cbc_iv (AESCBCEncryptor.cbc e)) (firstn h T) in
  AESCBCEncryptor.update e (skipn h T)
    (AESCBCEncryptor.outputoverflow e ++ fst r)
    {| cbc_block := cbc_block (AESCBCEncryptor.cbc e); cbc_iv := snd r |}
    false.

(** The decryptor after [Write] has processed the combined buffer [T]: the
    whole blocks are decrypted onto the output overflow, the residue is kept. *)
Definition Decryptor_written (d : AESCBCDecryptor.t) (T : list byte)
  : AESCBCDecryptor.t :=
  let h := Z.to_nat (len T - len T mod 16) in
  let r := cbc_decrypt (cbc_block (AESCBCDecryptor.cbc d))
                       (cbc_iv (AESCBCDecryptor.cbc d)) (firstn h T) in
  AESCBCDecryptor.update d (skipn h T)
    (AESCBCDecryptor.outputoverflow d ++ fst r)
    {| cbc_block := cbc_block (AESCBCDecryptor.cbc d); cbc_iv := snd r |}
    false.


(** ** Sessions: a client's calls, with what its Reads deliver

    On bytes: every [Write] of a session passes a buffer of its own that the
    caller does not write again.  [Encryptor_collect_mem] and
    [Decryptor_WriteArgs] below are the sessions with the caller's buffers. *)

(** The chunks that the [Write] calls among [calls] pass, in order. *)
Fixpoint written_chunks (calls : list call) : list (list byte) :=
  match calls with
  | [] => []
  | CallWrite p :: rest => p :: written_chunks rest
  | _ :: rest => written_chunks rest
  end.

Fixpoint no_Close (calls : list call) : bool :=
  match calls with
  | [] => true
  | CallClose :: _ => false
  | _ :: rest => no_Close rest
  end.

(** The calls run in order on an encryptor; every [Read(buf)] hands [buf[:n]]
    to the client.  The bytes handed over, and the stream afterwards. *)
Fixpoint Encryptor_collect (e : AESCBCEncryptor.t) (calls : list call)
  : outcome (list byte * AESCBCEncryptor.t) :=
  match calls with
  | [] => Returns ([], e)
  | CallWrite p :: rest =>
      '(_, e') <- AESCBCEncryptor.Write e p ;;
      Encryptor_collect e' rest
  | CallRead buf :: rest =>
      '(buf', n, _, e') <- AESCBCEncryptor.Read e buf ;;
      got <- slice buf' 0 n ;;
      '(more, e'') <- Encryptor_collect e' rest ;;
      Returns (got ++ more, e'')
  | CallClose :: rest =>
      e' <- AESCBCEncryptor.Close e ;;
      Encryptor_collect e' rest
  end.

(** A whole encryption session: the calls, then [Close] and the drain loop;
    everything the client has read. *)
Definition encrypt_session (aes_NewCipher : list byte -> Block)
  (key iv0 : list byte) (calls : list call) (buf : list byte)
  : outcome (list byte) :=
  e <- NewAESCBCEncryptor aes_NewCipher key iv0 ;;
  '(early, e) <- Encryptor_collect e calls ;;
  e <- AESCBCEncryptor.Close e ;;
  '(late, _) <- AESCBCEncryptor.ReadAll
                  (S (length (AESCBCEncryptor.outputoverflow e))) e buf ;;
  Returns (early ++ late).

(** Write the ciphertext chunk by chunk, close, and drain. *)
Definition decrypt_chunks (aes_NewCipher : list byte -> Block)
  (key iv0 : list byte) (chunks : list (list byte)) (buf : list byte)
  : outcome (list byte * option error) :=
  '(d, err) <- NewAESCBCDecryptor aes_NewCipher key iv0 ;;
  match d with
  | None => Returns ([], err)
  | Some d =>
      d <- AESCBCDecryptor.WriteChunks d chunks ;;
      '(err, d) <- AESCBCDecryptor.Close d ;;
      match err with
      | Some x => Returns ([], Some x)
      | None =>
          '(p, _) <- AESCBCDecryptor.ReadAll
                       (S (length (AESCBCDecryptor.outputoverflow d))) d buf ;;
          Returns (p, None)
      end
  end.

(** The encryptor with its output overflow replaced. *)
Definition Encryptor_with_output (e : AESCBCEncryptor.t) (oo : list byte)
  : AESCBCEncryptor.t :=
  AESCBCEncryptor.update e (AESCBCEncryptor.inputoverflow e) oo
    (AESCBCEncryptor.cbc e) (AESCBCEncryptor.isClosed e).

(** The decryptor with its input overflow replaced. *)
Definition Decryptor_with_input (d : AESCBCDecryptor.t) (io : list byte)
  : AESCBCDecryptor.t :=
  AESCBCDecryptor.update d io (AESCBCDecryptor.outputoverflow d)
    (AESCBCDecryptor.cbc d) (AESCBCDecryptor.isClosed d).

(** ** Copy: streams, source and sink around one copy buffer

    [Copy] allocates one buffer, [inputBuf], reads the source into it, passes
    [inputBuf[:n]] to [Write], lets [Read] overwrite it and hands it to the
    sink.  [Write] may keep a sub-slice of its argument as the input
    overflow, so that slice can lie inside [inputBuf] and change when the
    buffer is written again.  Here a slice is therefore a reference: either
    into the copy buffer, or into memory that nothing else reaches. *)

Inductive slice_ref : Type :=
| Own (bytes : list byte)
| InBuf (off n : Z).

(** [len(s)] *)
Definition ref_len (s : slice_ref) : Z :=
  match s with
  | Own v => len v
  | InBuf _ n => n
  end.

(** The bytes of [s] when the copy buffer holds [buf]. *)
Definition contents (s : slice_ref) (buf : list byte) : list byte :=
  match s with
  | Own v => v
  | InBuf off n => firstn (Z.to_nat n) (skipn (Z.to_nat off) buf)
  end.

(** [s[lo:hi]], with [hi] within the length. *)
Definition ref_slice (s : slice_ref) (lo hi : Z) : outcome slice_ref :=
  match s with
  | Own v => v' <- slice v lo hi ;; Returns (Own v')
  | InBuf off n =>
      if (0 <=? lo) && (lo <=? hi) && (hi <=? n)
      then Returns (InBuf (off + lo) (hi - lo))
      else Panics
  end.

(** [append(s, x...)]: the new slice and the copy buffer afterwards.  A slice
    inside the copy buffer has the rest of the buffer as capacity: the bytes
    are written in place when they fit, and otherwise the slice moves to
    memory of its own. *)
Definition ref_append (s : slice_ref) (x buf : list byte)
  : slice_ref * list byte :=
  match s with
  | Own v => (Own (v ++ x), buf)
  | InBuf off n =>
      if off + n + len x <=? len buf
      then (InBuf off (n + len x),
            firstn (Z.to_nat (off + n)) buf ++ x ++
            skipn (Z.to_nat (off + n + len x)) buf)
      else (Own (contents s buf ++ x), buf)
  end.

(** [Pkcs7Pad] on a located slice. *)
Fixpoint pad_loop_shared (n : nat) (input : slice_ref) (pl : Z) (buf : list byte)
  : slice_ref * list byte :=
  match n with
  | O => (input, buf)
  | S n' =>
      let '(input', buf') := ref_append input [byte_of_int pl] buf in
      pad_loop_shared n' input' pl buf'
  end.

Definition Pkcs7Pad_shared (input : slice_ref) (blockSize : Z) (buf : list byte)
  : outcome (slice_ref * list byte) :=
  r <- go_rem (ref_len input) blockSize ;;
  let pl := blockSize - r in
  Returns (pad_loop_shared (Z.to_nat pl) input pl buf).

(** [err == io.EOF] *)
Definition is_EOF (x : error) : bool :=
  match x with
  | io_EOF => true
  | errors_New _ => false
  end.

(** The encryptor's [Write(p)] with the input overflow [io] and [p] located.
    The record's own [inputoverflow] field is set to the bytes the new slice
    has at that moment; the bytes it has later are [contents io buf]. *)
Definition Encryptor_Write_shared
  (e : AESCBCEncryptor.t) (io p : slice_ref) (buf : list byte)
  : outcome (Z * option error * AESCBCEncryptor.t * slice_ref * list byte) :=
  if AESCBCEncryptor.isClosed e
  then Returns (0, Some ErrWriterClosed, e, io, buf)
  else
    let '(p, buf) :=
      if ref_len io >? 0 then ref_append io (contents p buf) buf else (p, buf) in
    r <- go_rem (ref_len p) BlockSize ;;
    '(io', p) <-
      (if negb (r =? 0) then
         numFullBlocks <- go_div (ref_len p) BlockSize ;;
         let sizeFullBlocks := numFullBlocks * BlockSize in
         let extraBytes := ref_len p - sizeFullBlocks in
         tail <- ref_slice p (ref_len p - extraBytes) (ref_len p) ;;
         p' <- ref_slice p 0 sizeFullBlocks ;;
         Returns (Own (contents tail buf), p')
       else
         io' <- ref_slice p (ref_len p - BlockSize) (ref_len p) ;;
         p' <- ref_slice p 0 (ref_len p - BlockSize) ;;
         Returns (io', p')) ;;
    '(cipherText, m) <-
      CBCEncrypter_CryptBlocks (AESCBCEncryptor.cbc e) (contents p buf) ;;
    Returns (ref_len p, None,
             AESCBCEncryptor.update e (contents io' buf)
               (AESCBCEncryptor.outputoverflow e ++ cipherText) m
               (AESCBCEncryptor.isClosed e),
             io', buf).

(** The encryptor's [Close()] with the input overflow located: the padding
    bytes are appended to that slice, in the copy buffer when it lies there
    and they fit. *)
Definition Encryptor_Close_shared
  (e : AESCBCEncryptor.t) (io : slice_ref) (buf : list byte)
  : outcome (AESCBCEncryptor.t * list byte) :=
  '(p, buf') <- Pkcs7Pad_shared io BlockSize buf ;;
  '(lastBlock, m) <-
    CBCEncrypter_CryptBlocks (AESCBCEncryptor.cbc e) (contents p buf') ;;
  Returns (AESCBCEncryptor.update e (contents io buf')
             (AESCBCEncryptor.outputoverflow e ++ lastBlock) m true,
           buf').

(** The decryptor's [Write(p)] with the input overflow and [p] located. *)
Definition Decryptor_Write_shared
  (e : AESCBCDecryptor.t) (io p : slice_ref) (buf : list byte)
  : outcome (Z * option error * AESCBCDecryptor.t * slice_ref * list byte) :=
  if AESCBCDecryptor.isClosed e
  then Returns (0, Some ErrWriterClosed, e, io, buf)
  else
    let '(p, buf) :=
      if ref_len io >? 0 then ref_append io (contents p buf) buf else (p, buf) in
    r <- go_rem (ref_len p) BlockSize ;;
    '(io', p) <-
      (if negb (r =? 0) then
         numFullBlocks <- go_div (ref_len p) BlockSize ;;
         let sizeFullBlocks := numFullBlocks * BlockSize in
         let extraBytes := ref_len p - sizeFullBlocks in
         io' <- ref_slice p (ref_len p - extraBytes) (ref_len p) ;;
         p' <- ref_slice p 0 sizeFullBlocks ;;
         Returns (io', p')
       else
         Returns (if ref_len io >? 0 then Own [] else io, p)) ;;
    '(plaintext, m) <-
      CBCDecrypter_CryptBlocks (AESCBCDecryptor.cbc e) (contents p buf) ;;
    Returns (ref_len p, None,
             AESCBCDecryptor.update e (contents io' buf)
               (AESCBCDecryptor.outputoverflow e ++ plaintext) m
               (AESCBCDecryptor.isClosed e),
             io', buf).

(** *** Sources and sinks

    An [io.Reader] is a state with a [Read(p)] that returns the new contents
    of [p], the count, the error and the state afterwards; an [io.Writer] is
    a state with a [Write(p)] that returns the count, the error and the state
    afterwards. *)

Definition reader (R : Type) : Type :=
  R -> list byte -> list byte * Z * option error * R.

Definition writer (W : Type) : Type :=
  W -> list byte -> Z * option error * W.

(** A source that delivers a fixed sequence of reads, each with its error;
    a read larger than [p] is delivered in pieces; afterwards [0, io.EOF]. *)
Definition script_Read : reader (list (list byte * option error)) :=
  fun s p =>
    match s with
    | [] => (p, 0, Some io_EOF, [])
    | (data, err) :: rest =>
        if len data <=? len p
        then (data ++ skipn (length data) p, len data, err, rest)
        else (firstn (length p) data, len p, None,
              (skipn (length p) data, err) :: rest)
    end.

(** A sink that keeps everything and never fails, like [bytes.Buffer]. *)
Definition buffer_Write : writer (list byte) :=
  fun w p => (len p, None, w ++ p).

(** *** AESCBCEncryptor.Copy *)

(** The drain loop after [Close]. *)
Fixpoint Encryptor_Copy_drain {W : Type} (dst_Write : writer W) (fuel : nat)
  (e : AESCBCEncryptor.t) (buf : list byte) (w : W) (written : Z)
  : outcome (Z * option error * W) :=
  match fuel with
  | O => OutOfFuel
  | S fuel' =>
      '(buf', n, _, e') <- AESCBCEncryptor.Read e buf ;;
      if n =? 0 then Returns (written, None, w)
      else
        q <- slice buf' 0 n ;;
        let '(n', err, w') := dst_Write w q in
        match err with
        | Some x => Returns (written, Some x, w')
        | None => Encryptor_Copy_drain dst_Write fuel' e' buf' w' (written + n')
        end
  end.

(** The main loop, one iteration per read of the source. *)
Fixpoint Encryptor_Copy_loop {R W : Type}
  (src_Read : reader R) (dst_Write : writer W) (fuel drain_fuel : nat)
  (e : AESCBCEncryptor.t) (io : slice_ref) (inputBuf : list byte)
  (r : R) (w : W) (written : Z)
  : outcome (Z * option error * W) :=
  match fuel with
  | O => OutOfFuel
  | S fuel' =>
      let '(buf, n, err, r) := src_Read r inputBuf in
      let stop :=
        match err with
        | None => inl false
        | Some x => if is_EOF x then inl true else inr x
        end in
      match stop with
      | inr x => Returns (written, Some x, w)
      | inl shouldClose =>
          p <- ref_slice (InBuf 0 (len buf)) 0 n ;;
          '(_, _, e, io, buf) <- Encryptor_Write_shared e io p buf ;;
          '(buf, n, _, e) <- AESCBCEncryptor.Read e buf ;;
          q <- slice buf 0 n ;;
          let '(n, err, w) := dst_Write w q in
          let written := written + n in
          match err with
          | Some x => Returns (written, Some x, w)
          | None =>
              if shouldClose then
                '(e, buf) <- Encryptor_Close_shared e io buf ;;
                Encryptor_Copy_drain dst_Write drain_fuel e buf w written
              else
                Encryptor_Copy_loop src_Read dst_Write fuel' drain_fuel
                  e io buf r w written
          end
      end
  end.

(** [e.Copy(dst, src)]: the count, the error and the sink afterwards.  The
    encryptor's input overflow is taken to lie outside the copy buffer when
    [Copy] starts. *)
Definition Encryptor_Copy {R W : Type}
  (src_Read : reader R) (dst_Write : writer W) (fuel drain_fuel : nat)
  (e : AESCBCEncryptor.t) (r : R) (w : W)
  : outcome (Z * option error * W) :=
  if AESCBCEncryptor.CopyBufferSize e <? 0 then Panics
  else
    let inputBuf := repeat Byte.x00 (Z.to_nat (AESCBCEncryptor.CopyBufferSize e)) in
    let '(_, _, w) := dst_Write w (AESCBCEncryptor.IV e) in
    let written := len (AESCBCEncryptor.IV e) in
    Encryptor_Copy_loop src_Read dst_Write fuel drain_fuel
      e (Own (AESCBCEncryptor.inputoverflow e)) inputBuf r w written.

(** *** AESCBCDecryptor.Copy *)

Fixpoint Decryptor_Copy_drain {W : Type} (dst_Write : writer W) (fuel : nat)
  (e : AESCBCDecryptor.t) (buf : list byte) (w : W) (read : Z)
  : outcome (Z * option error * W) :=
  match fuel with
  | O => OutOfFuel
  | S fuel' =>
      '(buf', n, _, e') <- AESCBCDecryptor.Read e buf ;;
      if n =? 0 then Returns (read, None, w)
      else
        let read := read + n in
        q <- slice buf' 0 n ;;
        let '(_, err, w') := dst_Write w q in
        match err with
        | Some x => Returns (read, Some x, w')
        | None => Decryptor_Copy_drain dst_Write fuel' e' buf' w' read
        end
  end.

(** The main loop.  The count of [e.Read(inputBuf)] is dropped: what goes to
    the sink is [inputBuf[:n]] with the [n] of the source's read.  The error
    of [e.Close()] is dropped too. *)
Fixpoint Decryptor_Copy_loop {R W : Type}
  (src_Read : reader R) (dst_Write : writer W) (fuel drain_fuel : nat)
  (e : AESCBCDecryptor.t) (io : slice_ref) (inputBuf : list byte)
  (r : R) (w : W) (read : Z)
  : outcome (Z * option error * W) :=
  match fuel with
  | O => OutOfFuel
  | S fuel' =>
      let '(buf, n, err, r) := src_Read r inputBuf in
      let stop :=
        match err with
        | None => inl false
        | Some x => if is_EOF x then inl true else inr x
        end in
      match stop with
      | inr x => Returns (read, Some x, w)
      | inl shouldClose =>
          p <- ref_slice (InBuf 0 (len buf)) 0 n ;;
          '(_, _, e, io, buf) <- Decryptor_Write_shared e io p buf ;;
          '(buf, _, _, e) <- AESCBCDecryptor.Read e buf ;;
          q <- slice buf 0 n ;;
          let '(n, err, w) := dst_Write w q in
          match err with
          | Some x => Returns (read, Some x, w)
          | None =>
              let read := read + n in
              if shouldClose then
                '(_, e) <- AESCBCDecryptor.Close e ;;
                Decryptor_Copy_drain dst_Write drain_fuel e buf w read
              else
                Decryptor_Copy_loop src_Read dst_Write fuel' drain_fuel
                  e io buf r w read
          end
      end
  end.

(** [e.Copy(dst, src)].  The first read of the source goes into [e.iv]; the
    chaining value of [e.cbc], copied from the IV by [NewAESCBCDecryptor], is
    not touched by it. *)
Definition Decryptor_Copy {R W : Type}
  (src_Read : reader R) (dst_Write : writer W) (fuel drain_fuel : nat)
  (e : AESCBCDecryptor.t) (r : R) (w : W)
  : outcome (Z * option error * W) :=
  if AESCBCDecryptor.CopyBufferSize e <? 0 then Panics
  else
    let inputBuf := repeat Byte.x00 (Z.to_nat (AESCBCDecryptor.CopyBufferSize e)) in
    let '(iv', _, _, r) := src_Read r (AESCBCDecryptor.iv e) in
    let read := len (AESCBCDecryptor.iv e) in
    let e :=
      {| AESCBCDecryptor.iv := iv';
         AESCBCDecryptor.aesKey := AESCBCDecryptor.aesKey e;
         AESCBCDecryptor.CopyBufferSize := AESCBCDecryptor.CopyBufferSize e;
         AESCBCDecryptor.inputoverflow := AESCBCDecryptor.inputoverflow e;
         AESCBCDecryptor.outputoverflow := AESCBCDecryptor.outputoverflow e;
         AESCBCDecryptor.cipher := AESCBCDecryptor.cipher e;
         AESCBCDecryptor.cbc := AESCBCDecryptor.cbc e;
         AESCBCDecryptor.isClosed := AESCBCDecryptor.isClosed e |} in
    Decryptor_Copy_loop src_Read dst_Write fuel drain_fuel
      e (Own (AESCBCDecryptor.inputoverflow e)) inputBuf r w read.

(** A reference is within the copy buffer. *)
Definition ref_ok (s : slice_ref) (buf : list byte) : Prop :=
  match s with
  | Own _ => True
  | InBuf off n => 0 <= off /\ 0 <= n /\ off + n <= len buf
  end.

(** Where the encryptor's [Write] leaves the input overflow when the
    combined buffer is the slice [p] with bytes [T]: a copy of the trailing
    partial block, or, for a whole number of blocks, the last block of [p]
    itself. *)
Definition Encryptor_kept (p : slice_ref) (T : list byte) : slice_ref :=
  let tail := skipn (Z.to_nat (len T - retained (len T))) T in
  match p with
  | Own _ => Own tail
  | InBuf off n => if len T mod 16 =? 0 then InBuf (off + (n - 16)) 16 else Own tail
  end.

(** [t] ends no later in the copy buffer than [s] does. *)
Definition ref_before (t s : slice_ref) : Prop :=
  match s, t with
  | InBuf off n, InBuf o m => o + m <= off + n
  | _, _ => True
  end.

(** The streams with the exported field [CopyBufferSize] set by the caller. *)
Definition Encryptor_with_CopyBufferSize (e : AESCBCEncryptor.t) (n : Z)
  : AESCBCEncryptor.t :=
  {| AESCBCEncryptor.IV := AESCBCEncryptor.IV e;
     AESCBCEncryptor.AESKey := AESCBCEncryptor.AESKey e;
     AESCBCEncryptor.CopyBufferSize := n;
     AESCBCEncryptor.inputoverflow := AESCBCEncryptor.inputoverflow e;
     AESCBCEncryptor.outputoverflow := AESCBCEncryptor.outputoverflow e;
     AESCBCEncryptor.cipher := AESCBCEncryptor.cipher e;
     AESCBCEncryptor.cbc := AESCBCEncryptor.cbc e;
     AESCBCEncryptor.isClosed := AESCBCEncryptor.isClosed e |}.

Definition Decryptor_with_CopyBufferSize (d : AESCBCDecryptor.t) (n : Z)
  : AESCBCDecryptor.t :=
  {| AESCBCDecryptor.iv := AESCBCDecryptor.iv d;
     AESCBCDecryptor.aesKey := AESCBCDecryptor.aesKey d;
     AESCBCDecryptor.CopyBufferSize := n;
     AESCBCDecryptor.inputoverflow := AESCBCDecryptor.inputoverflow d;
     AESCBCDecryptor.outputoverflow := AESCBCDecryptor.outputoverflow d;
     AESCBCDecryptor.cipher := AESCBCDecryptor.cipher d;
     AESCBCDecryptor.cbc := AESCBCDecryptor.cbc d;
     AESCBCDecryptor.isClosed := AESCBCDecryptor.isClosed d |}.

(** ** Callers' buffers

    [Write] keeps a slice of its argument as the input overflow: its last
    block (encryptor) or the residue after its whole blocks (decryptor).
    What a sequence of [Write] calls does therefore depends on where the
    caller's chunks lie.  A caller passes a chunk either in a buffer of its
    own, allocated for the chunk and not written again ([Fresh]), or through
    one buffer [buf] that it refills for every such chunk ([Reuse]):
    [copy(buf, p); e.Write(buf[:len(p)])]. *)
Inductive chunk_arg : Type :=
| Fresh (p : list byte)
| Reuse (p : list byte).

Definition arg_bytes (a : chunk_arg) : list byte :=
  match a with
  | Fresh p => p
  | Reuse p => p
  end.

(** A chunk that goes through the buffer [buf] has to fit in it. *)
Definition arg_fits (buf : list byte) (a : chunk_arg) : Prop :=
  match a with
  | Fresh _ => True
  | Reuse p => len p <= len buf
  end.

(** [e.Write] of a chunk: the count, the error, the stream, where its input
    overflow lies, and the caller's buffer afterwards. *)
Definition Encryptor_Write_arg
  (e : AESCBCEncryptor.t) (io : slice_ref) (a : chunk_arg) (buf : list byte)
  : outcome (Z * option error * AESCBCEncryptor.t * slice_ref * list byte) :=
  match a with
  | Fresh p => Encryptor_Write_shared e io (Own p) buf
  | Reuse p =>
      let '(buf', _) := copy buf p in
      q <- ref_slice (InBuf 0 (len buf')) 0 (len p) ;;
      Encryptor_Write_shared e io q buf'
  end.

Definition Decryptor_Write_arg
  (d : AESCBCDecryptor.t) (io : slice_ref) (a : chunk_arg) (buf : list byte)
  : outcome (Z * option error * AESCBCDecryptor.t * slice_ref * list byte) :=
  match a with
  | Fresh p => Decryptor_Write_shared d io (Own p) buf
  | Reuse p =>
      let '(buf', _) := copy buf p in
      q <- ref_slice (InBuf 0 (len buf')) 0 (len p) ;;
      Decryptor_Write_shared d io q buf'
  end.

(** A call of a session on an encryptor: [Write] of a chunk, or [Read] into
    a buffer [rbuf] that is none of the chunks' buffers. *)
Inductive mem_call : Type :=
| MemWrite (a : chunk_arg)
| MemRead (rbuf : list byte).

(** The call with its buffers forgotten. *)
Definition call_of (c : mem_call) : call :=
  match c with
  | MemWrite a => CallWrite (arg_bytes a)
  | MemRead rbuf => CallRead rbuf
  end.

Definition call_fits (buf : list byte) (c : mem_call) : Prop :=
  match c with
  | MemWrite a => arg_fits buf a
  | MemRead _ => True
  end.

(** The calls run in order on an encryptor; every [Read(rbuf)] hands
    [rbuf[:n]] to the client.  The bytes handed over, the stream, where its
    input overflow lies, and the caller's buffer afterwards. *)
Fixpoint Encryptor_collect_mem
  (e : AESCBCEncryptor.t) (io : slice_ref) (calls : list mem_call)
  (buf : list byte)
  : outcome (list byte * AESCBCEncryptor.t * slice_ref * list byte) :=
  match calls with
  | [] => Returns ([], e, io, buf)
  | MemWrite a :: rest =>
      '(_, _, e', io', buf') <- Encryptor_Write_arg e io a buf ;;
      Encryptor_collect_mem e' io' rest buf'
  | MemRead rbuf :: rest =>
      '(rbuf', n, _, e') <- AESCBCEncryptor.Read e rbuf ;;
      got <- slice rbuf' 0 n ;;
      '(more, e'', io', buf') <- Encryptor_collect_mem e' io rest buf ;;
      Returns (got ++ more, e'', io', buf')
  end.

(** A whole encryption session with the caller's buffers: the calls, then
    [Close] and the drain loop into [rbuf]; everything the client has read. *)
Definition encrypt_session_mem (aes_NewCipher : list byte -> Block)
  (key iv0 : list byte) (calls : list mem_call) (buf rbuf : list byte)
  : outcome (list byte) :=
  e <- NewAESCBCEncryptor aes_NewCipher key iv0 ;;
  '(early, e, io, buf) <-
    Encryptor_collect_mem e (Own (AESCBCEncryptor.inputoverflow e)) calls buf ;;
  '(e, _) <- Encryptor_Close_shared e io buf ;;
  '(late, _) <- AESCBCEncryptor.ReadAll
                  (S (length (AESCBCEncryptor.outputoverflow e))) e rbuf ;;
  Returns (early ++ late).

(** Write every chunk, close, and drain: the ciphertext. *)
Definition encrypt_args (aes_NewCipher : list byte -> Block)
  (key iv0 : list byte) (args : list chunk_arg) (buf rbuf : list byte)
  : outcome (list byte) :=
  encrypt_session_mem aes_NewCipher key iv0 (map MemWrite args) buf rbuf.

(** The first [Write] of a session, if there is one, passes a chunk that is
    not empty in a buffer of its own, or through [buf] a chunk that is not a
    whole number of blocks. *)
Fixpoint first_write_safe (calls : list mem_call) : Prop :=
  match calls with
  | [] => True
  | MemRead _ :: rest => first_write_safe rest
  | MemWrite (Fresh c) :: _ => c <> []
  | MemWrite (Reuse c) :: _ => len c mod 16 <> 0
  end.

(** A caller's sequence of [Write] calls on a decryptor, one per chunk. *)
Fixpoint Decryptor_WriteArgs
  (d : AESCBCDecryptor.t) (io : slice_ref) (args : list chunk_arg)
  (buf : list byte)
  : outcome (AESCBCDecryptor.t * slice_ref * list byte) :=
  match args with
  | [] => Returns (d, io, buf)
  | a :: rest =>
      '(_, _, d', io', buf') <- Decryptor_Write_arg d io a buf ;;
      Decryptor_WriteArgs d' io' rest buf'
  end.

(** Write the ciphertext chunk by chunk, close, and drain into [rbuf]. *)
Definition decrypt_args (aes_NewCipher : list byte -> Block)
  (key iv0 : list byte) (args : list chunk_arg) (buf rbuf : list byte)
  : outcome (list byte * option error) :=
  '(d, err) <- NewAESCBCDecryptor aes_NewCipher key iv0 ;;
  match d with
  | None => Returns ([], err)
  | Some d =>
      '(d, _, _) <-
        Decryptor_WriteArgs d (Own (AESCBCDecryptor.inputoverflow d)) args buf ;;
      '(err, d) <- AESCBCDecryptor.Close d ;;
      match err with
      | Some x => Returns ([], Some x)
      | None =>
          '(p, _) <- AESCBCDecryptor.ReadAll
                       (S (length (AESCBCDecryptor.outputoverflow d))) d rbuf ;;
          Returns (p, None)
      end
  end.

(** Where the decryptor's [Write] leaves the input overflow when the combined
    buffer is the slice [p] with bytes [T] and the input overflow was [io]:
    the residue of [p] itself, or for a whole number of blocks an empty
    slice. *)
Definition Decryptor_kept (io p : slice_ref) (T : list byte) : slice_ref :=
  let h := len T - len T mod 16 in
  if len T mod 16 =? 0 then (if ref_len io >? 0 then Own [] else io)
  else match p with
       | Own _ => Own (skipn (Z.to_nat h) T)
       | InBuf off n => InBuf (off + h) (n - h)
       end.

(** [s[len(s)-1] = v] on a non-empty slice. *)
Definition set_last (s : list byte) (v : byte) : list byte :=
  removelast s ++ [v].

(** * Properties *)

(** ** Lengths, bytes and slices *)

Lemma len_nonneg {A : Type} (s : list A) : 0 <= len s.
Proof. unfold len; lia. Qed.

Lemma len_app {A : Type} (s1 s2 : list A) : len (s1 ++ s2) = len s1 + len s2.
Proof. unfold len; rewrite length_app; lia. Qed.

Lemma len_repeat {A : Type} (a : A) (n : nat) : len (repeat a n) = Z.of_nat n.
Proof. unfold len; now rewrite repeat_length. Qed.

Lemma len_nil {A : Type} : len (@nil A) = 0.
Proof. reflexivity. Qed.

Lemma len_zero_nil {A : Type} (s : list A) : len s = 0 -> s = [].
Proof. destruct s; [easy | unfold len; simpl; lia]. Qed.

Lemma int_of_byte_range (x : byte) : 0 <= int_of_byte x < 256.
Proof.
  unfold int_of_byte. pose proof (Byte.to_N_bounded x). lia.
Qed.

Lemma int_of_byte_inj (x y : byte) : int_of_byte x = int_of_byte y -> x = y.
Proof.
  unfold int_of_byte; intros H. apply N2Z.inj in H.
  pose proof (Byte.of_to_N x) as Hx. pose proof (Byte.of_to_N y) as Hy.
  rewrite H in Hx. congruence.
Qed.

Lemma int_of_byte_of_int (z : Z) : 0 <= z < 256 -> int_of_byte (byte_of_int z) = z.
Proof.
  intros Hz. unfold int_of_byte, byte_of_int.
  rewrite Z.mod_small by lia.
  destruct (Byte.of_N (Z.to_N z)) as [x|] eqn:E.
  - apply Byte.to_of_N in E. rewrite E. lia.
  - apply Byte.of_N_None_iff in E. lia.
Qed.

Lemma slice_prefix {A : Type} (s : list A) (n : Z) :
  0 <= n <= len s -> slice s 0 n = Returns (firstn (Z.to_nat n) s).
Proof.
  intros H. unfold slice.
  replace ((0 <=? 0) && (0 <=? n) && (n <=? len s)) with true
    by (symmetry; rewrite !andb_true_iff, !Z.leb_le; lia).
  now rewrite Z.sub_0_r.
Qed.

Lemma slice_suffix {A : Type} (s : list A) (n : Z) :
  0 <= n <= len s -> slice s n (len s) = Returns (skipn (Z.to_nat n) s).
Proof.
  intros H. unfold slice.
  replace ((0 <=? n) && (n <=? len s) && (len s <=? len s)) with true
    by (symmetry; rewrite !andb_true_iff, !Z.leb_le; lia).
  f_equal. apply firstn_all2. rewrite length_skipn. unfold len in *. lia.
Qed.

Lemma slice_negative {A : Type} (s : list A) (lo hi : Z) :
  lo < 0 \/ hi < lo -> slice s lo hi = Panics.
Proof.
  intros H. unfold slice.
  destruct (0 <=? lo) eqn:E1; [|reflexivity].
  destruct (lo <=? hi) eqn:E2; [|reflexivity].
  apply Z.leb_le in E1, E2. lia.
Qed.

Lemma index_last {A : Type} (s : list A) (a : A) :
  index (s ++ [a]) (len (s ++ [a]) - 1) = Returns a.
Proof.
  unfold index. rewrite len_app. pose proof (len_nonneg s).
  replace (len [a]) with 1 by reflexivity.
  replace ((0 <=? len s + 1 - 1) && (len s + 1 - 1 <? len s + 1)) with true
    by (symmetry; rewrite andb_true_iff, Z.leb_le, Z.ltb_lt; lia).
  replace (Z.to_nat (len s + 1 - 1)) with (length s) by (unfold len; lia).
  rewrite nth_error_app2 by lia. now rewrite Nat.sub_diag.
Qed.

(** ** The padding codec *)

Lemma pad_loop_repeat (n : nat) (input : list byte) (pl : Z) :
  pad_loop n input pl = input ++ repeat (byte_of_int pl) n.
Proof.
  revert input. induction n as [|n IH]; intros input; simpl.
  - now rewrite app_nil_r.
  - rewrite IH, <- app_assoc. reflexivity.
Qed.

Lemma Pkcs7Pad_16 (data : list byte) :
  Pkcs7Pad data 16 =
  Returns (data ++ repeat (byte_of_int (16 - len data mod 16))
                          (Z.to_nat (16 - len data mod 16))).
Proof.
  unfold Pkcs7Pad, go_rem. simpl.
  rewrite Z.rem_mod_nonneg by (pose proof (len_nonneg data); lia).
  now rewrite pad_loop_repeat.
Qed.

Lemma check_loop_forallb (p : list byte) (n : Z) :
  check_loop p n =
  if forallb (fun pc => int_of_byte pc =? n) p then None
  else Some ErrInvalidPadding.
Proof.
  induction p as [|pc rest IH]; simpl; [reflexivity|].
  destruct (int_of_byte pc =? n); simpl; [exact IH | reflexivity].
Qed.

Lemma check_loop_repeat (x : byte) (k : nat) (n : Z) :
  int_of_byte x = n -> check_loop (repeat x k) n = None.
Proof.
  intros H. induction k as [|k IH]; simpl; [reflexivity|].
  rewrite H, Z.eqb_refl. exact IH.
Qed.

(** [Pkcs7Unpad] never panics: it returns data and no error, or no data and
    the invalid-padding error. *)
Lemma Pkcs7Unpad_cases (input : list byte) :
  (exists p, Pkcs7Unpad input = Returns (p, None)) \/
  Pkcs7Unpad input = Returns ([], Some ErrInvalidPadding).
Proof.
  unfold Pkcs7Unpad.
  destruct (len input =? 0) eqn:E0; [eauto|].
  apply Z.eqb_neq in E0.
  destruct (exists_last (l := input)) as (s & a & ->).
  { intros ->. now apply E0. }
  rewrite index_last. cbn [bind].
  pose proof (int_of_byte_range a) as Ha.
  unfold checkPaddingIsValid.
  destruct (len (s ++ [a]) <? int_of_byte a) eqn:E1; cbn [bind]; [now right|].
  apply Z.ltb_ge in E1.
  rewrite slice_suffix by lia. cbn [bind].
  rewrite check_loop_forallb.
  destruct (forallb _ _); [|now right].
  rewrite slice_prefix by lia. cbn [bind]. eauto.
Qed.

(** Unpadding a buffer that ends in [n] bytes of value [n]. *)
Lemma Pkcs7Unpad_padded (data : list byte) (n : Z) :
  1 <= n < 256 ->
  Pkcs7Unpad (data ++ repeat (byte_of_int n) (Z.to_nat n)) = Returns (data, None).
Proof.
  intros Hn.
  pose proof (int_of_byte_of_int n ltac:(lia)) as Hb.
  pose proof (len_nonneg data) as Hd.
  set (x := byte_of_int n) in *.
  assert (Hlen : len (data ++ repeat x (Z.to_nat n)) = len data + n)
    by (rewrite len_app, len_repeat; lia).
  unfold Pkcs7Unpad.
  replace (len (data ++ repeat x (Z.to_nat n)) =? 0) with false
    by (symmetry; apply Z.eqb_neq; lia).
  assert (Hidx : index (data ++ repeat x (Z.to_nat n))
                       (len (data ++ repeat x (Z.to_nat n)) - 1) = Returns x).
  { destruct (Z.to_nat n) as [|k] eqn:Ek; [lia|].
    change (repeat x (S k)) with (x :: repeat x k).
    rewrite repeat_cons, app_assoc. apply index_last. }
  rewrite Hidx. simpl. rewrite Hb.
  unfold checkPaddingIsValid.
  replace (len (data ++ repeat x (Z.to_nat n)) <? n) with false
    by (symmetry; apply Z.ltb_ge; lia).
  rewrite slice_suffix by lia. simpl.
  replace (Z.to_nat (len (data ++ repeat x (Z.to_nat n)) - n)) with (length data)
    by (unfold len in *; lia).
  rewrite skipn_app, skipn_all, Nat.sub_diag. simpl.
  rewrite check_loop_repeat by (rewrite len_repeat; lia).
  rewrite slice_prefix by lia. simpl.
  replace (Z.to_nat (len (data ++ repeat x (Z.to_nat n)) - n)) with (length data)
    by (unfold len in *; lia).
  rewrite firstn_app, firstn_all, Nat.sub_diag. simpl.
  now rewrite app_nil_r.
Qed.

(** C2. For every byte sequence [data] (in particular every length from 0 to
    3*16) and block size 16, [Pkcs7Pad] appends [n] bytes of value [n] with
    [n] between 1 and 16, and [Pkcs7Unpad] of the padded buffer returns
    [data] with no error. *)
Theorem Pkcs7Unpad_Pkcs7Pad (data : list byte) :
  let n := 16 - len data mod 16 in
  1 <= n <= 16 /\
  Pkcs7Pad data 16 = Returns (data ++ repeat (byte_of_int n) (Z.to_nat n)) /\
  int_of_byte (byte_of_int n) = n /\
  (p <- Pkcs7Pad data 16 ;; Pkcs7Unpad p) = Returns (data, None).
Proof.
  intros n.
  assert (Hn : 1 <= n <= 16) by (subst n; pose proof (Z.mod_pos_bound (len data) 16); lia).
  split; [exact Hn|]. split; [apply Pkcs7Pad_16|].
  split; [apply int_of_byte_of_int; lia|].
  rewrite Pkcs7Pad_16. cbn [bind]. apply Pkcs7Unpad_padded. fold n. lia.
Qed.

Lemma Pkcs7Pad_16_nonempty (data padded : list byte) :
  Pkcs7Pad data 16 = Returns padded -> exists s a, padded = s ++ [a].
Proof.
  rewrite Pkcs7Pad_16. intros H.
  assert (Hne : padded <> []).
  { intros E. rewrite E in H. apply (f_equal (fun o => match o with
                                      | Returns x => len x | _ => 0 end)) in H.
    rewrite len_app, len_repeat, len_nil in H.
    pose proof (len_nonneg data). pose proof (Z.mod_pos_bound (len data) 16). lia. }
  destruct (exists_last Hne) as (s & a & E). eauto.
Qed.

(** C3, counterexample.  A tampered final byte that [Pkcs7Unpad] accepts:
    31 bytes of value 17 are padded with one byte of value 1; with that byte
    changed to 17, outside [1,16], the buffer ends in 17 bytes of value 17
    and [Pkcs7Unpad] returns its first 15 bytes without an error. *)
Lemma Pkcs7Unpad_tamper_accepted :
  Pkcs7Pad (repeat Byte.x11 31) 16 = Returns (repeat Byte.x11 31 ++ [Byte.x01]) /\
  int_of_byte Byte.x11 = 17 /\
  Pkcs7Unpad (set_last (repeat Byte.x11 31 ++ [Byte.x01]) Byte.x11)
  = Returns (repeat Byte.x11 15, None).
Proof. vm_compute. repeat split. Qed.

(** C3, as amended.  For every correctly padded buffer (the result of
    [Pkcs7Pad] with block size 16), changing its final byte to a value
    [n >= 1] that exceeds the length of the buffer, or for which the last
    [n] bytes of the changed buffer are not all equal to [n], makes
    [Pkcs7Unpad] return the invalid-padding error and no data.  Every [n] in
    [1,16] whose last [n] bytes are not all [n] is such a value. *)
Theorem Pkcs7Unpad_tamper_rejected (data padded : list byte) (v : byte) :
  Pkcs7Pad data 16 = Returns padded ->
  1 <= int_of_byte v ->
  len padded < int_of_byte v \/
  (exists x,
     In x (skipn (Z.to_nat (len padded - int_of_byte v)) (set_last padded v)) /\
     x <> v) ->
  Pkcs7Unpad (set_last padded v) = Returns ([], Some ErrInvalidPadding).
Proof.
  intros Hpad Hv Hbad.
  destruct (Pkcs7Pad_16_nonempty _ _ Hpad) as (s & a & ->).
  unfold set_last in *. rewrite removelast_last in *.
  assert (Hlen : len (s ++ [a]) = len (s ++ [v])) by now rewrite !len_app.
  rewrite Hlen in Hbad.
  pose proof (len_nonneg s) as Hs.
  assert (Hl : len (s ++ [v]) = len s + 1) by now rewrite len_app.
  unfold Pkcs7Unpad.
  replace (len (s ++ [v]) =? 0) with false by (symmetry; apply Z.eqb_neq; lia).
  rewrite index_last. cbn [bind]. unfold checkPaddingIsValid.
  destruct (len (s ++ [v]) <? int_of_byte v) eqn:E; [reflexivity|].
  apply Z.ltb_ge in E.
  destruct Hbad as [Hbad | (x & Hin & Hx)]; [lia|].
  rewrite slice_suffix by lia. cbn [bind].
  rewrite check_loop_forallb.
  set (p := skipn (Z.to_nat (len (s ++ [v]) - int_of_byte v)) (s ++ [v])) in *.
  assert (Hp : len p = int_of_byte v).
  { unfold p, len in *. rewrite length_skipn. lia. }
  destruct (forallb _ p) eqn:F; [|reflexivity].
  rewrite forallb_forall in F. specialize (F x Hin).
  apply Z.eqb_eq in F. rewrite Hp in F.
  now apply int_of_byte_inj in F.
Qed.

Lemma Pkcs7Unpad_tamper_rejected_witness :
  Pkcs7Unpad (set_last (repeat Byte.x68 5 ++ repeat Byte.x0b 11) Byte.x03)
  = Returns ([], Some ErrInvalidPadding).
Proof.
  apply (Pkcs7Unpad_tamper_rejected (repeat Byte.x68 5)).
  - reflexivity.
  - vm_compute. discriminate.
  - right. exists Byte.x0b. split; [vm_compute; auto | discriminate].
Defined.

(** ** Closed streams and the close guards *)

Lemma Encryptor_Write_closed (e : AESCBCEncryptor.t) (p : list byte) :
  AESCBCEncryptor.isClosed e = true ->
  AESCBCEncryptor.Write e p = Returns (0, Some ErrWriterClosed, e).
Proof. intros H. unfold AESCBCEncryptor.Write. now rewrite H. Qed.

Lemma Decryptor_Write_closed (d : AESCBCDecryptor.t) (p : list byte) :
  AESCBCDecryptor.isClosed d = true ->
  AESCBCDecryptor.Write d p = Returns (0, Some ErrWriterClosed, d).
Proof. intros H. unfold AESCBCDecryptor.Write. now rewrite H. Qed.

Lemma Encryptor_Close_closed (e e' : AESCBCEncryptor.t) :
  AESCBCEncryptor.Close e = Returns e' -> AESCBCEncryptor.isClosed e' = true.
Proof.
  unfold AESCBCEncryptor.Close. intros H.
  destruct (Pkcs7Pad _ _) as [p| |]; cbn [bind] in H; try discriminate.
  destruct (CBCEncrypter_CryptBlocks _ _) as [[c m]| |]; cbn [bind] in H;
    try discriminate.
  injection H as <-. reflexivity.
Qed.

Lemma Decryptor_Close_cases (d : AESCBCDecryptor.t) :
  let oo := AESCBCDecryptor.outputoverflow d in
  (len oo < 16 /\
   AESCBCDecryptor.Close d = Returns (Some ErrNotEnoughBytes, d)) \/
  (16 <= len oo /\
   Pkcs7Unpad oo = Returns ([], Some ErrInvalidPadding) /\
   AESCBCDecryptor.Close d = Returns (Some ErrInvalidPadding, d)) \/
  (16 <= len oo /\
   exists p,
     Pkcs7Unpad oo = Returns (p, None) /\
     AESCBCDecryptor.Close d =
     Returns (None, AESCBCDecryptor.update d (AESCBCDecryptor.inputoverflow d) p
                      (AESCBCDecryptor.cbc d) true)).
Proof.
  intros oo. unfold AESCBCDecryptor.Close. fold oo.
  destruct (len oo <? 16) eqn:E.
  - left. apply Z.ltb_lt in E. now split.
  - right. apply Z.ltb_ge in E.
    destruct (Pkcs7Unpad_cases oo) as [(p & H) | H]; rewrite H; cbn [bind].
    + right. split; [exact E|]. exists p. now split.
    + left. now repeat split.
Qed.

Lemma Encryptor_step_closed (e e' : AESCBCEncryptor.t) (c : call) :
  AESCBCEncryptor.isClosed e = true ->
  AESCBCEncryptor.step e c = Returns e' ->
  AESCBCEncryptor.isClosed e' = true.
Proof.
  intros Hc H. destruct c as [p | buf |]; cbn [AESCBCEncryptor.step] in H.
  - rewrite Encryptor_Write_closed in H by exact Hc. cbn [bind] in H.
    now injection H as <-.
  - unfold AESCBCEncryptor.Read in H. rewrite Hc in H.
    destruct (true && _); cbn [bind] in H; [now injection H as <-|].
    destruct (_ >=? _), (copy _ _); destruct (slice _ _ _);
      cbn [bind] in H; try discriminate; now injection H as <-.
  - now apply Encryptor_Close_closed with e.
Qed.

Lemma Encryptor_run_closed (calls : list call) :
  forall e e' : AESCBCEncryptor.t,
  AESCBCEncryptor.isClosed e = true ->
  AESCBCEncryptor.run e calls = Returns e' ->
  AESCBCEncryptor.isClosed e' = true.
Proof.
  induction calls as [|c rest IH]; intros e e' Hc H; cbn [AESCBCEncryptor.run] in H.
  - now injection H as <-.
  - destruct (AESCBCEncryptor.step e c) as [e1| |] eqn:E; cbn [bind] in H;
      try discriminate.
    apply (IH e1 e'); [|exact H]. now apply Encryptor_step_closed with e c.
Qed.

Lemma Decryptor_step_closed (d d' : AESCBCDecryptor.t) (c : call) :
  AESCBCDecryptor.isClosed d = true ->
  AESCBCDecryptor.step d c = Returns d' ->
  AESCBCDecryptor.isClosed d' = true.
Proof.
  intros Hc H. destruct c as [p | buf |]; cbn [AESCBCDecryptor.step] in H.
  - rewrite Decryptor_Write_closed in H by exact Hc. cbn [bind] in H.
    now injection H as <-.
  - unfold AESCBCDecryptor.Read in H. rewrite Hc in H.
    destruct (_ && true); cbn [bind] in H; [now injection H as <-|].
    destruct (_ >=? _).
    + destruct (slice _ 0 _); cbn [bind] in H; try discriminate.
      destruct (copy _ _). destruct (slice _ _ _); cbn [bind] in H;
        try discriminate; now injection H as <-.
    + destruct (copy _ _). destruct (slice _ _ _); cbn [bind] in H;
        try discriminate; now injection H as <-.
  - destruct (Decryptor_Close_cases d)
      as [(_ & C) | [(_ & _ & C) | (_ & p & _ & C)]];
      rewrite C in H; cbn [bind] in H; now injection H as <-.
Qed.

Lemma Decryptor_run_closed (calls : list call) :
  forall d d' : AESCBCDecryptor.t,
  AESCBCDecryptor.isClosed d = true ->
  AESCBCDecryptor.run d calls = Returns d' ->
  AESCBCDecryptor.isClosed d' = true.
Proof.
  induction calls as [|c rest IH]; intros d d' Hc H; cbn [AESCBCDecryptor.run] in H.
  - now injection H as <-.
  - destruct (AESCBCDecryptor.step d c) as [d1| |] eqn:E; cbn [bind] in H;
      try discriminate.
    apply (IH d1 d'); [|exact H]. now apply Decryptor_step_closed with d c.
Qed.

(** C7, counterexample.  [Close] on a decryptor fresh from
    [NewAESCBCDecryptor] returns the not-enough-bytes error before it has
    set [isClosed]: the stream stays open, and the [Write] of a block that
    follows returns 16 and a nil error and puts 16 bytes on the output
    overflow. *)
Lemma Decryptor_Write_after_failed_Close :
  exists d1 d2,
    AESCBCDecryptor.Close toy_decryptor = Returns (Some ErrNotEnoughBytes, d1) /\
    AESCBCDecryptor.Write d1 (zeros 16) = Returns (16, None, d2) /\
    AESCBCDecryptor.outputoverflow d1 = [] /\
    len (AESCBCDecryptor.outputoverflow d2) = 16.
Proof. do 2 eexists. repeat split. Qed.

(** C7, as amended.  Once [Close] has been called on an encryptor, or has
    returned nil on a decryptor, then after any further calls every [Write]
    returns the writer-closed error with count 0 and leaves the whole stream
    (input overflow, output overflow, chaining state) as it was. *)
Theorem Write_after_Close
  (e e1 e2 : AESCBCEncryptor.t) (d d1 d2 : AESCBCDecryptor.t)
  (callsE callsD : list call) (p q : list byte) :
  AESCBCEncryptor.Close e = Returns e1 ->
  AESCBCEncryptor.run e1 callsE = Returns e2 ->
  AESCBCDecryptor.Close d = Returns (None, d1) ->
  AESCBCDecryptor.run d1 callsD = Returns d2 ->
  AESCBCEncryptor.Write e2 p = Returns (0, Some ErrWriterClosed, e2) /\
  AESCBCDecryptor.Write d2 q = Returns (0, Some ErrWriterClosed, d2).
Proof.
  intros He Hre Hd Hrd. split.
  - apply Encryptor_Write_closed.
    apply (Encryptor_run_closed callsE e1 e2); [|exact Hre].
    now apply Encryptor_Close_closed with e.
  - apply Decryptor_Write_closed.
    apply (Decryptor_run_closed callsD d1 d2); [|exact Hrd].
    destruct (Decryptor_Close_cases d) as [(_ & H) | [(_ & _ & H) | (_ & x & _ & H)]];
      rewrite H in Hd; try discriminate.
    injection Hd as <-. reflexivity.
Qed.

Lemma Write_after_Close_witness :
  let e1 := value_or toy_encryptor (AESCBCEncryptor.Close toy_encryptor) in
  let e2 := value_or toy_encryptor
              (AESCBCEncryptor.run e1 [CallRead (zeros 4); CallWrite hello]) in
  let d := AESCBCDecryptor.update toy_decryptor []
             (hello ++ repeat Byte.x0b 11) toy_cbc false in
  let d1 := AESCBCDecryptor.update toy_decryptor [] hello toy_cbc true in
  let d2 := AESCBCDecryptor.update toy_decryptor [] [Byte.x6f] toy_cbc true in
  AESCBCEncryptor.Write e2 hello = Returns (0, Some ErrWriterClosed, e2) /\
  AESCBCDecryptor.Write d2 hello = Returns (0, Some ErrWriterClosed, d2).
Proof.
  intros e1 e2 d d1 d2.
  apply (Write_after_Close toy_encryptor e1 e2 d d1 d2
           [CallRead (zeros 4); CallWrite hello]
           [CallRead (zeros 4); CallClose] hello hello); reflexivity.
Defined.

(** C8. For every decryptor state, [Close] with fewer than 16 bytes of
    decrypted output buffered returns the not-enough-bytes error; with at
    least 16 bytes buffered it runs [Pkcs7Unpad] on the buffered output,
    returns its invalid-padding error when the padding is malformed, and
    otherwise stores the unpadded output and closes the stream. *)
Theorem Decryptor_Close_guard (d : AESCBCDecryptor.t) :
  let oo := AESCBCDecryptor.outputoverflow d in
  (len oo < 16 /\
   AESCBCDecryptor.Close d = Returns (Some ErrNotEnoughBytes, d)) \/
  (16 <= len oo /\
   Pkcs7Unpad oo = Returns ([], Some ErrInvalidPadding) /\
   AESCBCDecryptor.Close d = Returns (Some ErrInvalidPadding, d)) \/
  (16 <= len oo /\
   exists p,
     Pkcs7Unpad oo = Returns (p, None) /\
     AESCBCDecryptor.Close d =
     Returns (None, AESCBCDecryptor.update d (AESCBCDecryptor.inputoverflow d) p
                      (AESCBCDecryptor.cbc d) true)).
Proof. exact (Decryptor_Close_cases d). Qed.



(** ** Read *)

Lemma copy_nil (dst : list byte) : copy dst [] = (dst, 0).
Proof.
  unfold copy. replace (len (@nil byte)) with 0 by reflexivity.
  rewrite Z.min_r by apply len_nonneg. reflexivity.
Qed.

(** An open encryptor with nothing to hand out returns zero bytes, no error,
    and keeps its state. *)
Lemma Encryptor_Read_open_empty (e : AESCBCEncryptor.t) (buf : list byte) :
  AESCBCEncryptor.isClosed e = false ->
  AESCBCEncryptor.outputoverflow e = [] ->
  exists e',
    AESCBCEncryptor.Read e buf = Returns (buf, 0, None, e') /\
    AESCBCEncryptor.outputoverflow e' = [] /\
    AESCBCEncryptor.inputoverflow e' = AESCBCEncryptor.inputoverflow e /\
    AESCBCEncryptor.isClosed e' = false.
Proof.
  intros Hc Ho. unfold AESCBCEncryptor.Read. rewrite Hc, Ho.
  cbn [andb len length Z.of_nat].
  pose proof (len_nonneg buf) as Hb.
  replace (len buf >=? 0) with true by (symmetry; apply Z.geb_le; lia).
  rewrite copy_nil. cbn.
  eexists. split; [reflexivity|]. repeat split.
Qed.

(** An open decryptor that holds exactly the 16-byte retained tail returns
    zero bytes, no error, and keeps the tail. *)
Lemma Decryptor_Read_open_tail (d : AESCBCDecryptor.t) (buf : list byte) :
  AESCBCDecryptor.isClosed d = false ->
  len (AESCBCDecryptor.outputoverflow d) = 16 ->
  exists d',
    AESCBCDecryptor.Read d buf = Returns (buf, 0, None, d') /\
    AESCBCDecryptor.outputoverflow d' = AESCBCDecryptor.outputoverflow d /\
    AESCBCDecryptor.isClosed d' = false.
Proof.
  intros Hc Ho. unfold AESCBCDecryptor.Read. rewrite Hc, andb_false_r.
  pose proof (len_nonneg buf) as Hb.
  replace (len buf >=? len (AESCBCDecryptor.outputoverflow d) - 16) with true
    by (symmetry; apply Z.geb_le; lia).
  rewrite slice_prefix by lia. rewrite slice_suffix by lia.
  replace (len (AESCBCDecryptor.outputoverflow d) - 16) with 0 by lia.
  cbn [bind Z.to_nat firstn skipn].
  rewrite copy_nil.
  eexists. split; [reflexivity|]. split; reflexivity.
Qed.

(** [Read] signals end-of-stream exactly when the stream is closed and its
    output overflow is empty. *)
Lemma Encryptor_Read_EOF (e e' : AESCBCEncryptor.t) (buf buf' : list byte) (n : Z) :
  AESCBCEncryptor.Read e buf = Returns (buf', n, Some io_EOF, e') ->
  AESCBCEncryptor.isClosed e = true /\ AESCBCEncryptor.outputoverflow e = [].
Proof.
  unfold AESCBCEncryptor.Read.
  destruct (AESCBCEncryptor.isClosed e) eqn:Hc; cbn [andb].
  - destruct (len (AESCBCEncryptor.outputoverflow e) =? 0) eqn:E.
    + intros _. apply Z.eqb_eq in E. split; [reflexivity | now apply len_zero_nil].
    + destruct (_ >=? _), (copy _ _); intros H;
        destruct (slice _ _ _); cbn [bind] in H; discriminate.
  - destruct (_ >=? _), (copy _ _); intros H;
      destruct (slice _ _ _); cbn [bind] in H; discriminate.
Qed.

Lemma Decryptor_Read_EOF (d d' : AESCBCDecryptor.t) (buf buf' : list byte) (n : Z) :
  AESCBCDecryptor.Read d buf = Returns (buf', n, Some io_EOF, d') ->
  AESCBCDecryptor.isClosed d = true /\ AESCBCDecryptor.outputoverflow d = [].
Proof.
  unfold AESCBCDecryptor.Read.
  destruct (len (AESCBCDecryptor.outputoverflow d) =? 0) eqn:E;
    destruct (AESCBCDecryptor.isClosed d) eqn:Hc; cbn [andb].
  1: { intros _. apply Z.eqb_eq in E. split; [reflexivity | now apply len_zero_nil]. }
  all: destruct (_ >=? _); intros H.
  all: repeat match type of H with
       | context [slice ?s ?a ?b] => destruct (slice s a b); cbn [bind] in H
       | context [copy ?a ?b] => destruct (copy a b)
       end; discriminate.
Qed.

(** An open decryptor with fewer than 16 bytes of output buffered, as it is
    before the first full block has been written: [Read] takes the branch
    "we can send all of our data" and slices the output overflow at the
    negative bound [len - 16]. *)
Lemma Decryptor_Read_open_short (d : AESCBCDecryptor.t) (buf : list byte) :
  AESCBCDecryptor.isClosed d = false ->
  len (AESCBCDecryptor.outputoverflow d) < 16 ->
  AESCBCDecryptor.Read d buf = Panics.
Proof.
  intros Hc Ho. unfold AESCBCDecryptor.Read. rewrite Hc, andb_false_r.
  pose proof (len_nonneg buf) as Hb.
  replace (len buf >=? len (AESCBCDecryptor.outputoverflow d) - 16) with true
    by (symmetry; apply Z.geb_le; lia).
  rewrite slice_negative by lia. reflexivity.
Qed.

(** C6, at the state where it fails.  On a decryptor fresh from
    [NewAESCBCDecryptor] (open, nothing buffered) [Read] panics for every
    caller buffer, where the claim and the method's documentation promise
    zero bytes and a nil error. *)
Theorem Decryptor_Read_fresh_panics
  (aes_NewCipher : list byte -> Block) (key iv0 buf : list byte)
  (d : AESCBCDecryptor.t) :
  NewAESCBCDecryptor aes_NewCipher key iv0 = Returns (Some d, None) ->
  AESCBCDecryptor.Read d buf = Panics.
Proof.
  unfold NewAESCBCDecryptor. intros H.
  destruct (negb (len key =? 32)); [discriminate|].
  destruct (negb (len iv0 =? 16)); [discriminate|].
  destruct (NewCBC _ _); cbn [bind] in H; try discriminate.
  injection H as <-.
  apply Decryptor_Read_open_short; [reflexivity | cbn; lia].
Qed.

Lemma Decryptor_Read_fresh_panics_witness :
  NewAESCBCDecryptor toy_NewCipher toy_key toy_iv = Returns (Some toy_decryptor, None) /\
  AESCBCDecryptor.Read toy_decryptor (zeros 4) = Panics.
Proof.
  split; [reflexivity|].
  apply (Decryptor_Read_fresh_panics toy_NewCipher toy_key toy_iv). reflexivity.
Defined.

(** ** CBC chaining *)

Lemma xor_byte_involutive (x y : byte) : xor_byte (xor_byte x y) y = x.
Proof.
  unfold xor_byte.
  rewrite <- (Byte.of_bits_to_bits x) at 2.
  destruct (Byte.to_bits x) as (a0 & a1 & a2 & a3 & a4 & a5 & a6 & a7).
  destruct (Byte.to_bits y) as (b0 & b1 & b2 & b3 & b4 & b5 & b6 & b7).
  rewrite Byte.to_bits_of_bits.
  rewrite !xorb_assoc, !xorb_nilpotent, !xorb_false_r. reflexivity.
Qed.

Lemma length_xorBytes (x y : list byte) :
  length (xorBytes x y) = Nat.min (length x) (length y).
Proof.
  revert y. induction x as [|a x IH]; intros [|c y]; simpl; auto.
Qed.

Lemma xorBytes_involutive (x y : list byte) :
  (length x <= length y)%nat -> xorBytes (xorBytes x y) y = x.
Proof.
  revert y. induction x as [|a x IH]; intros [|c y] H; simpl in *; try lia; auto.
  rewrite xor_byte_involutive, IH by lia. reflexivity.
Qed.

Section BlockCipher.

Variable blk : Block.

Lemma encrypt_blocks_app (n1 n2 : nat) (chain s1 s2 : list byte) :
  length s1 = (16 * n1)%nat ->
  encrypt_blocks (n1 + n2) blk chain (s1 ++ s2) =
  let '(c1, chain1) := encrypt_blocks n1 blk chain s1 in
  let '(c2, chain2) := encrypt_blocks n2 blk chain1 s2 in
  (c1 ++ c2, chain2).
Proof.
  revert chain s1. induction n1 as [|n1 IH]; intros chain s1 Hlen.
  - destruct s1; [|simpl in Hlen; lia]. cbn [encrypt_blocks Nat.add app].
    now destruct (encrypt_blocks n2 blk chain s2).
  - cbn [encrypt_blocks Nat.add].
    rewrite firstn_app, skipn_app.
    replace (16 - length s1)%nat with 0%nat by lia.
    rewrite firstn_0, skipn_0, app_nil_r.
    rewrite IH by (rewrite length_skipn; lia).
    destruct (encrypt_blocks n1 blk _ (skipn 16 s1)) as [c1 chain1].
    destruct (encrypt_blocks n2 blk chain1 s2) as [c2 chain2].
    now rewrite app_assoc.
Qed.

Hypothesis blk_ok : Block_ok blk.

Lemma encrypt_blocks_length (n : nat) (chain src : list byte) :
  length chain = 16%nat -> (16 * n <= length src)%nat ->
  length (fst (encrypt_blocks n blk chain src)) = (16 * n)%nat /\
  length (snd (encrypt_blocks n blk chain src)) = 16%nat.
Proof.
  revert chain src. induction n as [|n IH]; intros chain src Hc Hs.
  - now split.
  - cbn [encrypt_blocks].
    set (c := Encrypt blk (xorBytes (firstn 16 src) chain)).
    assert (Hlc : length c = 16%nat).
    { apply (Encrypt_length blk blk_ok).
      rewrite length_xorBytes, length_firstn. lia. }
    destruct (IH c (skipn 16 src) Hlc) as [H1 H2];
      [rewrite length_skipn; lia|].
    destruct (encrypt_blocks n blk c (skipn 16 src)) as [rest chain'].
    cbn [fst snd] in *. rewrite length_app. split; lia.
Qed.

Lemma decrypt_blocks_encrypt_blocks (n : nat) (chain src : list byte) :
  length chain = 16%nat -> length src = (16 * n)%nat ->
  decrypt_blocks n blk chain (fst (encrypt_blocks n blk chain src)) =
  (src, snd (encrypt_blocks n blk chain src)).
Proof.
  revert chain src. induction n as [|n IH]; intros chain src Hc Hs.
  - destruct src; [reflexivity | simpl in Hs; lia].
  - cbn [encrypt_blocks].
    set (x := xorBytes (firstn 16 src) chain).
    assert (Hx : length x = 16%nat)
      by (unfold x; rewrite length_xorBytes, length_firstn; lia).
    set (c := Encrypt blk x).
    assert (Hlc : length c = 16%nat) by (apply (Encrypt_length blk blk_ok), Hx).
    specialize (IH c (skipn 16 src) Hlc).
    destruct (encrypt_blocks n blk c (skipn 16 src)) as [rest chain'].
    cbn [fst snd decrypt_blocks] in *.
    rewrite firstn_app, skipn_app, Hlc, Nat.sub_diag.
    rewrite (firstn_all2 (n := 16) c), (skipn_all2 (n := 16) c) by lia.
    rewrite firstn_0, skipn_0, app_nil_r. cbn [app].
    rewrite IH by (rewrite length_skipn; lia).
    unfold c. rewrite (Decrypt_Encrypt blk blk_ok) by exact Hx.
    unfold x. rewrite xorBytes_involutive by (rewrite length_firstn; lia).
    now rewrite firstn_skipn.
Qed.

End BlockCipher.

Lemma rem_16 (n : Z) : 0 <= n -> Z.rem n 16 = n mod 16.
Proof. intros. apply Z.rem_mod_nonneg; lia. Qed.

Lemma quot_16 (n : Z) : 0 <= n -> Z.quot n 16 = n / 16.
Proof. intros. apply Z.quot_div_nonneg; lia. Qed.

(** [CryptBlocks] returns on every whole number of blocks. *)
Lemma crypt_blocks_whole blocks (x : BlockMode) (src : list byte) (n : nat) :
  length src = (16 * n)%nat ->
  crypt_blocks blocks x src =
  Returns (fst (blocks n (cbc_block x) (cbc_iv x) src),
           {| cbc_block := cbc_block x;
              cbc_iv := snd (blocks n (cbc_block x) (cbc_iv x) src) |}).
Proof.
  intros H. unfold crypt_blocks, go_rem, BlockSize. cbn [Z.eqb bind].
  assert (Hl : len src = 16 * Z.of_nat n) by (unfold len; lia).
  rewrite rem_16, quot_16 by apply len_nonneg.
  rewrite Hl, Z.mul_comm, Z_mod_mult, Z_div_mult by lia.
  cbn [Z.eqb negb]. rewrite Nat2Z.id.
  now destruct (blocks n _ _ src).
Qed.

Lemma crypt_blocks_partial blocks (x : BlockMode) (src : list byte) :
  len src mod 16 <> 0 -> crypt_blocks blocks x src = Panics.
Proof.
  intros H. unfold crypt_blocks, go_rem, BlockSize. cbn [Z.eqb bind].
  rewrite rem_16 by apply len_nonneg.
  apply Z.eqb_neq in H. now rewrite H.
Qed.

(** ** The encryptor's Write *)

Lemma mod16_mul (q : Z) : (16 * q) mod 16 = 0.
Proof. rewrite Z.mul_comm. apply Z_mod_mult. Qed.

Lemma mod16_zero_div (n : Z) : n mod 16 = 0 -> n = 16 * (n / 16).
Proof. intros H. pose proof (Z.div_mod n 16). lia. Qed.

Lemma retained_spec (n : Z) :
  0 < n ->
  1 <= retained n <= 16 /\ retained n <= n /\
  (n - retained n) mod 16 = 0 /\ retained n mod 16 = n mod 16.
Proof.
  intros Hn. unfold retained.
  pose proof (Z.mod_pos_bound n 16 ltac:(lia)) as Hb.
  pose proof (Z.div_mod n 16 ltac:(lia)) as Hd.
  destruct (n mod 16 =? 0) eqn:E.
  - apply Z.eqb_eq in E.
    assert (0 < n / 16) by lia.
    repeat split; try lia.
    + replace (n - 16) with (16 * (n / 16 - 1)) by lia. apply mod16_mul.
    + now rewrite E.
  - apply Z.eqb_neq in E.
    assert (0 <= n / 16) by (apply Z.div_pos; lia).
    repeat split; try lia.
    + replace (n - n mod 16) with (16 * (n / 16)) by lia. apply mod16_mul.
    + apply Z.mod_mod. lia.
Qed.

Lemma nblocks_whole (src : list byte) :
  len src mod 16 = 0 -> length src = (16 * nblocks src)%nat.
Proof.
  intros H. unfold nblocks. apply mod16_zero_div in H.
  pose proof (len_nonneg src).
  assert (0 <= len src / 16) by (apply Z.div_pos; lia).
  unfold len in *. lia.
Qed.

Lemma nblocks_app (s1 s2 : list byte) :
  len s1 mod 16 = 0 -> nblocks (s1 ++ s2) = (nblocks s1 + nblocks s2)%nat.
Proof.
  intros H. unfold nblocks. rewrite len_app.
  apply mod16_zero_div in H.
  pose proof (len_nonneg s1). pose proof (len_nonneg s2).
  rewrite H at 1. rewrite Z.mul_comm, Z.div_add_l by lia.
  rewrite Z2Nat.inj_add; try (apply Z.div_pos; lia). reflexivity.
Qed.

Lemma cbc_encrypt_app (blk : Block) (chain s1 s2 : list byte) :
  len s1 mod 16 = 0 ->
  cbc_encrypt blk chain (s1 ++ s2) =
  let '(c1, chain1) := cbc_encrypt blk chain s1 in
  let '(c2, chain2) := cbc_encrypt blk chain1 s2 in
  (c1 ++ c2, chain2).
Proof.
  intros H. unfold cbc_encrypt. rewrite nblocks_app by exact H.
  apply encrypt_blocks_app. now apply nblocks_whole.
Qed.

Lemma cbc_encrypt_nil (blk : Block) (chain : list byte) :
  cbc_encrypt blk chain [] = ([], chain).
Proof. reflexivity. Qed.

Lemma CryptBlocks_whole blocks (x : BlockMode) (src : list byte) :
  len src mod 16 = 0 ->
  crypt_blocks blocks x src =
  Returns (fst (blocks (nblocks src) (cbc_block x) (cbc_iv x) src),
           {| cbc_block := cbc_block x;
              cbc_iv := snd (blocks (nblocks src) (cbc_block x) (cbc_iv x) src) |}).
Proof. intros H. apply crypt_blocks_whole. now apply nblocks_whole. Qed.

Lemma len_firstn (s : list byte) (n : Z) :
  0 <= n <= len s -> len (firstn (Z.to_nat n) s) = n.
Proof. intros H. unfold len in *. rewrite length_firstn. lia. Qed.

Lemma len_skipn (s : list byte) (n : Z) :
  0 <= n <= len s -> len (skipn (Z.to_nat n) s) = len s - n.
Proof. intros H. unfold len in *. rewrite length_skipn. lia. Qed.

Lemma len_pos_nonempty (s : list byte) : s <> [] -> 0 < len s.
Proof. destruct s; [easy | unfold len; simpl; lia]. Qed.

(** [Write] on an open encryptor whose combined buffer is not empty. *)
Lemma Encryptor_Write_open (e : AESCBCEncryptor.t) (p : list byte) :
  AESCBCEncryptor.isClosed e = false ->
  AESCBCEncryptor.inputoverflow e ++ p <> [] ->
  let T := AESCBCEncryptor.inputoverflow e ++ p in
  AESCBCEncryptor.Write e p =
  Returns (len T - retained (len T), None, Encryptor_written e T).
Proof.
  intros Hc Hne T. unfold AESCBCEncryptor.Write. rewrite Hc.
  assert (HT : (if len (AESCBCEncryptor.inputoverflow e) >? 0
                then AESCBCEncryptor.inputoverflow e ++ p else p) = T).
  { unfold T. destruct (AESCBCEncryptor.inputoverflow e); reflexivity. }
  rewrite HT. clear HT.
  pose proof (len_pos_nonempty T Hne) as Hpos.
  destruct (retained_spec (len T) Hpos) as (Hk1 & Hk2 & Hk3 & Hk4).
  unfold go_rem, go_div, BlockSize. cbn [Z.eqb bind].
  rewrite rem_16, quot_16 by lia.
  pose proof (Z.div_mod (len T) 16 ltac:(lia)) as Hd.
  assert (Hslices :
    slice T (len T - retained (len T)) (len T) =
      Returns (skipn (Z.to_nat (len T - retained (len T))) T) /\
    slice T 0 (len T - retained (len T)) =
      Returns (firstn (Z.to_nat (len T - retained (len T))) T)).
  { split; [apply slice_suffix | apply slice_prefix]; lia. }
  destruct Hslices as [Hs1 Hs2].
  assert (Hhead : len (firstn (Z.to_nat (len T - retained (len T))) T) mod 16 = 0).
  { rewrite len_firstn by lia. exact Hk3. }
  unfold CBCEncrypter_CryptBlocks, Encryptor_written, cbc_encrypt.
  unfold retained in *.
  destruct (len T mod 16 =? 0) eqn:E; cbn [negb].
  - rewrite Hs1, Hs2. cbn [bind].
    rewrite CryptBlocks_whole by exact Hhead.
    cbn [bind]. rewrite len_firstn by lia. reflexivity.
  - replace (len T - len T / 16 * 16) with (len T mod 16) by lia.
    replace (len T / 16 * 16) with (len T - len T mod 16) by lia.
    rewrite Hs1, Hs2. cbn [bind].
    rewrite CryptBlocks_whole by exact Hhead.
    cbn [bind]. rewrite len_firstn by lia. reflexivity.
Qed.

(** [Write] of an empty slice on an encryptor whose input overflow is empty,
    as it is before the first byte has been written: the block-aligned branch
    slices the empty buffer at [len - 16]. *)
Lemma Encryptor_Write_empty_panics (e : AESCBCEncryptor.t) :
  AESCBCEncryptor.isClosed e = false ->
  AESCBCEncryptor.inputoverflow e = [] ->
  AESCBCEncryptor.Write e [] = Panics.
Proof.
  intros Hc Hio. unfold AESCBCEncryptor.Write. rewrite Hc, Hio. reflexivity.
Qed.

Lemma mod16_add (a c : Z) : a mod 16 = 0 -> (a + c) mod 16 = c mod 16.
Proof.
  intros H. apply mod16_zero_div in H. rewrite H.
  rewrite Z.add_comm, Z.mul_comm. apply Z_mod_plus_full.
Qed.

Lemma retained_mod (n m : Z) : n mod 16 = m mod 16 -> retained n = retained m.
Proof. intros H. unfold retained. now rewrite H. Qed.

(** Writing [T1] and then [X] leaves the encryptor as writing [T1 ++ X] in
    one go does. *)
Lemma Encryptor_written_written (e : AESCBCEncryptor.t) (T1 X : list byte) :
  T1 <> [] ->
  Encryptor_written (Encryptor_written e T1)
    (skipn (Z.to_nat (len T1 - retained (len T1))) T1 ++ X) =
  Encryptor_written e (T1 ++ X).
Proof.
  intros Hne.
  pose proof (len_pos_nonempty T1 Hne) as Hpos.
  destruct (retained_spec (len T1) Hpos) as (Hk1 & Hk2 & Hk3 & Hk4).
  set (h1 := Z.to_nat (len T1 - retained (len T1))).
  set (A := firstn h1 T1). set (B := skipn h1 T1 ++ X).
  assert (HAB : T1 ++ X = A ++ B)
    by (unfold A, B; now rewrite app_assoc, firstn_skipn).
  assert (HlenA : len A = len T1 - retained (len T1))
    by (apply len_firstn; lia).
  assert (HlenB : len B = retained (len T1) + len X).
  { unfold B, h1. rewrite len_app, len_skipn; lia. }
  pose proof (len_nonneg X) as HX.
  assert (HposB : 0 < len B) by lia.
  destruct (retained_spec (len B) HposB) as (Hb1 & Hb2 & Hb3 & Hb4).
  assert (Hret : retained (len (A ++ B)) = retained (len B)).
  { apply retained_mod. rewrite len_app, HlenA. now apply mod16_add. }
  rewrite HAB. unfold Encryptor_written at 1 3.
  cbn [AESCBCEncryptor.cbc AESCBCEncryptor.outputoverflow AESCBCEncryptor.update
       cbc_block cbc_iv].
  rewrite Hret.
  assert (Hh : Z.to_nat (len (A ++ B) - retained (len B)) =
               (length A + Z.to_nat (len B - retained (len B)))%nat).
  { rewrite len_app. unfold len in *. lia. }
  rewrite Hh, firstn_app_2, skipn_app, Nat.add_comm, Nat.add_sub.
  rewrite (skipn_all2 A) by lia. cbn [app].
  rewrite cbc_encrypt_app by (rewrite HlenA; exact Hk3).
  unfold Encryptor_written, AESCBCEncryptor.update.
  fold h1. fold A.
  cbn [AESCBCEncryptor.IV AESCBCEncryptor.AESKey AESCBCEncryptor.CopyBufferSize
       AESCBCEncryptor.cipher AESCBCEncryptor.outputoverflow AESCBCEncryptor.cbc
       cbc_block cbc_iv].
  destruct (cbc_encrypt _ _ A) as [c1 chain1]. cbn [fst snd].
  destruct (cbc_encrypt _ chain1 _) as [c2 chain2]. cbn [fst snd].
  now rewrite app_assoc.
Qed.

(** Writing nothing more leaves a stream that holds a retained tail as it
    is. *)
Lemma Encryptor_written_retained (e : AESCBCEncryptor.t) :
  AESCBCEncryptor.isClosed e = false ->
  1 <= len (AESCBCEncryptor.inputoverflow e) <= 16 ->
  Encryptor_written e (AESCBCEncryptor.inputoverflow e) = e.
Proof.
  intros Hc Hl. unfold Encryptor_written.
  assert (Hr : retained (len (AESCBCEncryptor.inputoverflow e)) =
               len (AESCBCEncryptor.inputoverflow e)).
  { unfold retained.
    destruct (Z.eq_dec (len (AESCBCEncryptor.inputoverflow e)) 16) as [E|E].
    - now rewrite E.
    - rewrite Z.mod_small by lia.
      replace (_ =? 0) with false by (symmetry; apply Z.eqb_neq; lia).
      reflexivity. }
  rewrite Hr, Z.sub_diag. cbn [Z.to_nat firstn skipn].
  rewrite cbc_encrypt_nil. cbn [fst snd]. rewrite app_nil_r.
  destruct e as [? ? ? ? ? ? [? ?] ?]. cbn in *. now subst.
Qed.

Lemma inputoverflow_written (e : AESCBCEncryptor.t) (T : list byte) :
  AESCBCEncryptor.inputoverflow (Encryptor_written e T) =
  skipn (Z.to_nat (len T - retained (len T))) T.
Proof. reflexivity. Qed.

Lemma Encryptor_written_open (e : AESCBCEncryptor.t) (T : list byte) :
  T <> [] ->
  AESCBCEncryptor.isClosed (Encryptor_written e T) = false /\
  1 <= len (AESCBCEncryptor.inputoverflow (Encryptor_written e T)) <= 16 /\
  len (AESCBCEncryptor.inputoverflow (Encryptor_written e T)) = retained (len T).
Proof.
  intros Hne. pose proof (len_pos_nonempty T Hne) as Hpos.
  destruct (retained_spec (len T) Hpos) as (Hk1 & Hk2 & Hk3 & Hk4).
  unfold Encryptor_written. cbn [AESCBCEncryptor.update
    AESCBCEncryptor.isClosed AESCBCEncryptor.inputoverflow].
  rewrite len_skipn by lia. repeat split; lia.
Qed.

(** A sequence of [Write] calls on an encryptor that already holds a retained
    tail never panics, and amounts to one [Write] of the concatenation. *)
Lemma Encryptor_WriteChunks_retained (chunks : list (list byte)) :
  forall e : AESCBCEncryptor.t,
  AESCBCEncryptor.isClosed e = false ->
  1 <= len (AESCBCEncryptor.inputoverflow e) <= 16 ->
  AESCBCEncryptor.WriteChunks e chunks =
  Returns (Encryptor_written e (AESCBCEncryptor.inputoverflow e ++ concat chunks)).
Proof.
  induction chunks as [|c rest IH]; intros e Hc Hl.
  - cbn [AESCBCEncryptor.WriteChunks concat]. rewrite app_nil_r.
    now rewrite Encryptor_written_retained.
  - cbn [AESCBCEncryptor.WriteChunks concat].
    assert (Hne : AESCBCEncryptor.inputoverflow e ++ c <> []).
    { intros E. apply (f_equal len) in E. rewrite len_app, len_nil in E.
      pose proof (len_nonneg c). lia. }
    rewrite Encryptor_Write_open by assumption. cbn [bind].
    destruct (Encryptor_written_open e _ Hne) as (Hc' & Hl' & _).
    rewrite IH by assumption.
    rewrite inputoverflow_written.
    rewrite Encryptor_written_written by exact Hne.
    now rewrite app_assoc.
Qed.

(** From a stream with an empty input overflow, a sequence of [Write] calls
    whose first chunk is not empty amounts to one [Write] of the
    concatenation. *)
Lemma Encryptor_WriteChunks_fresh
  (e : AESCBCEncryptor.t) (c : list byte) (rest : list (list byte)) :
  AESCBCEncryptor.isClosed e = false ->
  AESCBCEncryptor.inputoverflow e = [] ->
  c <> [] ->
  AESCBCEncryptor.WriteChunks e (c :: rest) =
  Returns (Encryptor_written e (concat (c :: rest))).
Proof.
  intros Hc Hio Hne.
  cbn [AESCBCEncryptor.WriteChunks concat].
  rewrite Encryptor_Write_open by (try rewrite Hio; assumption).
  rewrite Hio. cbn [app bind].
  destruct (Encryptor_written_open e c Hne) as (Hc' & Hl' & _).
  rewrite Encryptor_WriteChunks_retained by assumption.
  rewrite inputoverflow_written.
  now rewrite Encryptor_written_written.
Qed.

(** ** Close and the drain loop of the encryptor *)

Lemma Pkcs7Pad_padding (data : list byte) :
  Pkcs7Pad data BlockSize = Returns (data ++ padding (len data)).
Proof. apply Pkcs7Pad_16. Qed.

Lemma len_padding (n : Z) : len (padding n) = 16 - n mod 16.
Proof.
  unfold padding. rewrite len_repeat.
  pose proof (Z.mod_pos_bound n 16). lia.
Qed.

Lemma padding_mod (n m : Z) : n mod 16 = m mod 16 -> padding n = padding m.
Proof. intros H. unfold padding. now rewrite H. Qed.

Lemma padded_whole (s : list byte) : len (s ++ padding (len s)) mod 16 = 0.
Proof.
  rewrite len_app, len_padding.
  pose proof (Z.div_mod (len s) 16 ltac:(lia)).
  replace (len s + (16 - len s mod 16)) with (16 * (len s / 16 + 1)) by lia.
  apply mod16_mul.
Qed.

(** [Close] of the encryptor never panics, whatever the state. *)
Lemma Encryptor_Close_returns (e : AESCBCEncryptor.t) :
  let io := AESCBCEncryptor.inputoverflow e in
  let r := cbc_encrypt (cbc_block (AESCBCEncryptor.cbc e))
                       (cbc_iv (AESCBCEncryptor.cbc e))
                       (io ++ padding (len io)) in
  AESCBCEncryptor.Close e =
  Returns (AESCBCEncryptor.update e io
             (AESCBCEncryptor.outputoverflow e ++ fst r)
             {| cbc_block := cbc_block (AESCBCEncryptor.cbc e); cbc_iv := snd r |}
             true).
Proof.
  intros io r. unfold AESCBCEncryptor.Close. fold io.
  rewrite Pkcs7Pad_padding. cbn [bind].
  unfold CBCEncrypter_CryptBlocks.
  rewrite CryptBlocks_whole by apply padded_whole.
  reflexivity.
Qed.

Lemma len_copy (dst src : list byte) : len (fst (copy dst src)) = len dst.
Proof.
  unfold copy. cbn [fst].
  pose proof (len_nonneg dst). pose proof (len_nonneg src).
  rewrite len_app, len_firstn, len_skipn by lia. lia.
Qed.

Lemma copy_prefix (dst src : list byte) :
  let n := Z.min (len dst) (len src) in
  copy dst src = (fst (copy dst src), n) /\
  slice (fst (copy dst src)) 0 n = Returns (firstn (Z.to_nat n) src).
Proof.
  intros n. split; [reflexivity|].
  pose proof (len_nonneg dst). pose proof (len_nonneg src).
  rewrite slice_prefix by (rewrite len_copy; lia).
  unfold copy. fold n. cbn [fst].
  rewrite firstn_app.
  assert (Hl : length (firstn (Z.to_nat n) src) = Z.to_nat n).
  { rewrite length_firstn. unfold len in *. lia. }
  rewrite Hl, Nat.sub_diag, firstn_0, app_nil_r.
  rewrite <- Hl at 1. now rewrite firstn_all.
Qed.

(** One [Read] on an encryptor with output waiting: as many bytes as fit go
    to the caller's buffer and leave the output overflow. *)
Lemma Encryptor_Read_some (e : AESCBCEncryptor.t) (buf : list byte) :
  AESCBCEncryptor.outputoverflow e <> [] ->
  let oo := AESCBCEncryptor.outputoverflow e in
  let n := Z.min (len buf) (len oo) in
  AESCBCEncryptor.Read e buf =
  Returns (fst (copy buf oo), n, None,
           AESCBCEncryptor.update e (AESCBCEncryptor.inputoverflow e)
             (skipn (Z.to_nat n) oo) (AESCBCEncryptor.cbc e)
             (AESCBCEncryptor.isClosed e)).
Proof.
  intros Hne oo n. unfold AESCBCEncryptor.Read. fold oo.
  pose proof (len_pos_nonempty oo Hne) as Hpos.
  pose proof (len_nonneg buf) as Hb.
  replace (len oo =? 0) with false by (symmetry; apply Z.eqb_neq; lia).
  rewrite andb_false_r.
  destruct (copy_prefix buf oo) as [Hcopy _]. fold n in Hcopy. rewrite Hcopy.
  destruct (len buf >=? len oo) eqn:E.
  - apply Z.geb_le in E.
    rewrite slice_prefix by lia. cbn [bind Z.to_nat firstn].
    assert (Hn : Z.to_nat n = length oo) by (unfold n, len in *; lia).
    rewrite Hn, skipn_all. reflexivity.
  - assert (len buf < len oo).
    { destruct (Z.geb_spec (len buf) (len oo)); [discriminate | lia]. }
    rewrite slice_suffix by lia. reflexivity.
Qed.

Lemma Encryptor_ReadAll_closed (fuel : nat) :
  forall (e : AESCBCEncryptor.t) (buf : list byte),
  AESCBCEncryptor.isClosed e = true ->
  0 < len buf ->
  (length (AESCBCEncryptor.outputoverflow e) < fuel)%nat ->
  exists e',
    AESCBCEncryptor.ReadAll fuel e buf =
    Returns (AESCBCEncryptor.outputoverflow e, e') /\
    AESCBCEncryptor.outputoverflow e' = [] /\
    AESCBCEncryptor.isClosed e' = true.
Proof.
  induction fuel as [|fuel IH]; intros e buf Hc Hb Hf; [lia|].
  cbn [AESCBCEncryptor.ReadAll].
  destruct (AESCBCEncryptor.outputoverflow e) as [|x oo] eqn:Ho.
  - unfold AESCBCEncryptor.Read. rewrite Hc, Ho. cbn. eauto.
  - assert (Hne : AESCBCEncryptor.outputoverflow e <> []) by now rewrite Ho.
    rewrite Encryptor_Read_some by exact Hne. cbn [bind].
    rewrite Ho.
    set (n := Z.min (len buf) (len (x :: oo))).
    assert (Hn : 1 <= n <= len (x :: oo)).
    { unfold n. pose proof (len_pos_nonempty (x :: oo)). 
      assert (0 < len (x :: oo)) by (apply len_pos_nonempty; discriminate). lia. }
    replace (n =? 0) with false by (symmetry; apply Z.eqb_neq; lia).
    destruct (copy_prefix buf (x :: oo)) as [_ Hs]. fold n in Hs.
    rewrite Hs. cbn [bind].
    set (e1 := AESCBCEncryptor.update e _ _ _ _).
    destruct (IH e1 (fst (copy buf (x :: oo)))) as (e' & Hr & Ho' & Hc').
    + exact Hc.
    + now rewrite len_copy.
    + unfold e1. cbn [AESCBCEncryptor.outputoverflow AESCBCEncryptor.update].
      rewrite length_skipn. unfold len in Hn. cbn [length] in *. lia.
    + rewrite Hr. cbn [bind].
      unfold e1. cbn [AESCBCEncryptor.outputoverflow AESCBCEncryptor.update].
      rewrite firstn_skipn. eauto.
Qed.

(** Closing after the combined buffer [T] has been written: the output
    overflow receives the CBC encryption of [T] with its padding. *)
Lemma Encryptor_Close_written (e : AESCBCEncryptor.t) (T : list byte) :
  T <> [] ->
  exists e2,
    AESCBCEncryptor.Close (Encryptor_written e T) = Returns e2 /\
    AESCBCEncryptor.outputoverflow e2 =
      AESCBCEncryptor.outputoverflow e ++
      fst (cbc_encrypt (cbc_block (AESCBCEncryptor.cbc e))
                       (cbc_iv (AESCBCEncryptor.cbc e))
                       (T ++ padding (len T))) /\
    AESCBCEncryptor.isClosed e2 = true.
Proof.
  intros Hne. pose proof (len_pos_nonempty T Hne) as Hpos.
  destruct (retained_spec (len T) Hpos) as (Hk1 & Hk2 & Hk3 & Hk4).
  rewrite Encryptor_Close_returns. eexists. split; [reflexivity|].
  split; [|reflexivity].
  cbn [AESCBCEncryptor.outputoverflow AESCBCEncryptor.update].
  rewrite inputoverflow_written.
  set (h := Z.to_nat (len T - retained (len T))).
  assert (Hpad : padding (len (skipn h T)) = padding (len T)).
  { apply padding_mod. unfold h. rewrite len_skipn by lia.
    replace (len T - (len T - retained (len T))) with (retained (len T)) by lia.
    exact Hk4. }
  rewrite Hpad.
  assert (HT : T ++ padding (len T) =
               firstn h T ++ (skipn h T ++ padding (len T)))
    by now rewrite app_assoc, firstn_skipn.
  rewrite HT.
  assert (Hhead : len (firstn h T) mod 16 = 0).
  { subst h. rewrite len_firstn by lia. exact Hk3. }
  rewrite (cbc_encrypt_app _ _ (firstn h T)) by exact Hhead.
  unfold Encryptor_written.
  cbn [AESCBCEncryptor.outputoverflow AESCBCEncryptor.update
       AESCBCEncryptor.cbc cbc_block cbc_iv].
  fold h.
  destruct (cbc_encrypt _ _ (firstn h T)) as [c1 chain1]. cbn [fst snd].
  destruct (cbc_encrypt _ chain1 _) as [c2 chain2]. cbn [fst snd].
  now rewrite app_assoc.
Qed.

(** The ciphertext of a whole stream: when the first chunk written is not
    empty (or nothing is written at all), writing the chunks, closing and
    draining yields the CBC encryption, from the IV, of the concatenated
    chunks followed by their PKCS7 padding. *)
Lemma encrypt_chunks_ciphertext
  (aes_NewCipher : list byte -> Block) (key iv0 : list byte)
  (chunks : list (list byte)) (buf : list byte) :
  len iv0 = 16 -> 0 < len buf ->
  match chunks with [] => True | c :: _ => c <> [] end ->
  encrypt_chunks aes_NewCipher key iv0 chunks buf =
  Returns (fst (cbc_encrypt (aes_NewCipher key) iv0
                  (concat chunks ++ padding (len (concat chunks))))).
Proof.
  intros Hiv Hb Hfirst. unfold encrypt_chunks, NewAESCBCEncryptor, NewCBC.
  rewrite Hiv. cbn [Z.eqb BlockSize Pos.eqb bind].
  set (e0 := AESCBCEncryptor.fresh _ _ _ _).
  assert (Hclose : exists e2,
    (e <- AESCBCEncryptor.WriteChunks e0 chunks ;; AESCBCEncryptor.Close e)
    = Returns e2 /\
    AESCBCEncryptor.outputoverflow e2 =
      fst (cbc_encrypt (aes_NewCipher key) iv0
             (concat chunks ++ padding (len (concat chunks)))) /\
    AESCBCEncryptor.isClosed e2 = true).
  { destruct chunks as [|c rest].
    - cbn [AESCBCEncryptor.WriteChunks bind concat].
      rewrite Encryptor_Close_returns. eexists. split; [reflexivity|].
      split; reflexivity.
    - rewrite Encryptor_WriteChunks_fresh by (auto; reflexivity).
      cbn [bind].
      assert (Hne : concat (c :: rest) <> []).
      { cbn [concat]. destruct c; [contradiction | discriminate]. }
      destruct (Encryptor_Close_written e0 _ Hne) as (e2 & H1 & H2 & H3).
      exists e2. split; [exact H1|]. split; [exact H2 | exact H3]. }
  destruct Hclose as (e2 & H1 & H2 & H3).
  destruct (AESCBCEncryptor.WriteChunks e0 chunks) as [e1| |]; cbn [bind] in *;
    try discriminate.
  rewrite H1. cbn [bind].
  destruct (Encryptor_ReadAll_closed
              (S (length (AESCBCEncryptor.outputoverflow e2))) e2 buf H3 Hb)
    as (e3 & Hr & _); [lia|].
  rewrite Hr. cbn [bind]. now rewrite H2.
Qed.

(** ** The decryptor's Write, Close and drain loop *)

(** [Write] on an open decryptor never panics. *)
Lemma Decryptor_Write_open (d : AESCBCDecryptor.t) (p : list byte) :
  AESCBCDecryptor.isClosed d = false ->
  let T := AESCBCDecryptor.inputoverflow d ++ p in
  AESCBCDecryptor.Write d p =
  Returns (len T - len T mod 16, None, Decryptor_written d T).
Proof.
  intros Hc T. unfold AESCBCDecryptor.Write. rewrite Hc.
  assert (HT : (if len (AESCBCDecryptor.inputoverflow d) >? 0
                then AESCBCDecryptor.inputoverflow d ++ p else p) = T).
  { unfold T. destruct (AESCBCDecryptor.inputoverflow d); reflexivity. }
  rewrite HT. clear HT.
  assert (Hio : (if len (AESCBCDecryptor.inputoverflow d) >? 0
                 then [] else AESCBCDecryptor.inputoverflow d) = []).
  { destruct (AESCBCDecryptor.inputoverflow d); reflexivity. }
  rewrite Hio. clear Hio.
  pose proof (len_nonneg T) as Hpos.
  pose proof (Z.mod_pos_bound (len T) 16 ltac:(lia)) as Hb.
  pose proof (Z.div_mod (len T) 16 ltac:(lia)) as Hd.
  assert (0 <= len T / 16) by (apply Z.div_pos; lia).
  unfold go_rem, go_div, BlockSize. cbn [Z.eqb bind].
  rewrite rem_16, quot_16 by lia.
  assert (Hhead : len (firstn (Z.to_nat (len T - len T mod 16)) T) mod 16 = 0).
  { rewrite len_firstn by lia.
    replace (len T - len T mod 16) with (16 * (len T / 16)) by lia.
    apply mod16_mul. }
  unfold CBCDecrypter_CryptBlocks, Decryptor_written, cbc_decrypt.
  destruct (len T mod 16 =? 0) eqn:E; cbn [negb].
  - apply Z.eqb_eq in E.
    assert (Hh : Z.to_nat (len T - len T mod 16) = length T)
      by (unfold len in *; lia).
    rewrite Hh in *. rewrite firstn_all in *. rewrite skipn_all.
    rewrite E, Z.sub_0_r. cbn [bind].
    rewrite CryptBlocks_whole by exact Hhead. reflexivity.
  - replace (len T - len T / 16 * 16) with (len T mod 16) by lia.
    replace (len T / 16 * 16) with (len T - len T mod 16) by lia.
    replace (len T - len T mod 16 - (len T - len T mod 16))
      with 0 by lia.
    rewrite slice_suffix, slice_prefix by lia. cbn [bind].
    rewrite CryptBlocks_whole by exact Hhead.
    cbn [bind]. rewrite len_firstn by lia. reflexivity.
Qed.

Lemma Decryptor_written_open (d : AESCBCDecryptor.t) (T : list byte) :
  AESCBCDecryptor.isClosed (Decryptor_written d T) = false /\
  len (AESCBCDecryptor.inputoverflow (Decryptor_written d T)) = len T mod 16.
Proof.
  pose proof (len_nonneg T) as Hpos.
  pose proof (Z.mod_pos_bound (len T) 16 ltac:(lia)) as Hb.
  pose proof (Z.mod_le (len T) 16 ltac:(lia) ltac:(lia)) as Hle.
  unfold Decryptor_written.
  cbn [AESCBCDecryptor.update AESCBCDecryptor.isClosed
       AESCBCDecryptor.inputoverflow].
  rewrite len_skipn by lia. split; [reflexivity | lia].
Qed.

(** Every sequence of [Write] calls on an open decryptor succeeds and leaves
    fewer than 16 bytes in the input overflow. *)
Lemma Decryptor_WriteChunks_open (chunks : list (list byte)) :
  forall d : AESCBCDecryptor.t,
  AESCBCDecryptor.isClosed d = false ->
  len (AESCBCDecryptor.inputoverflow d) < 16 ->
  exists d',
    AESCBCDecryptor.WriteChunks d chunks = Returns d' /\
    AESCBCDecryptor.isClosed d' = false /\
    len (AESCBCDecryptor.inputoverflow d') =
    (len (AESCBCDecryptor.inputoverflow d) + len (concat chunks)) mod 16.
Proof.
  induction chunks as [|c rest IH]; intros d Hc Hl.
  - exists d. cbn [AESCBCDecryptor.WriteChunks concat].
    pose proof (len_nonneg (AESCBCDecryptor.inputoverflow d)).
    rewrite len_nil, Z.add_0_r, Z.mod_small by lia. auto.
  - cbn [AESCBCDecryptor.WriteChunks concat].
    rewrite Decryptor_Write_open by exact Hc. cbn [bind].
    destruct (Decryptor_written_open d (AESCBCDecryptor.inputoverflow d ++ c))
      as [Hc' Hl'].
    destruct (IH _ Hc') as (d' & Hw & Hc'' & Hl'').
    { rewrite Hl'. apply Z.mod_pos_bound. lia. }
    exists d'. split; [exact Hw|]. split; [exact Hc''|].
    rewrite Hl'', Hl', !len_app, Z.add_mod_idemp_l by lia.
    f_equal. lia.
Qed.

(** One [Read] on a closed decryptor with output waiting. *)
Lemma Decryptor_Read_closed_some (d : AESCBCDecryptor.t) (buf : list byte) :
  AESCBCDecryptor.isClosed d = true ->
  AESCBCDecryptor.outputoverflow d <> [] ->
  let oo := AESCBCDecryptor.outputoverflow d in
  let n := Z.min (len buf) (len oo) in
  AESCBCDecryptor.Read d buf =
  Returns (fst (copy buf oo), n, None,
           AESCBCDecryptor.update d (AESCBCDecryptor.inputoverflow d)
             (skipn (Z.to_nat n) oo) (AESCBCDecryptor.cbc d) true).
Proof.
  intros Hc Hne oo n. unfold AESCBCDecryptor.Read. fold oo. rewrite Hc.
  pose proof (len_pos_nonempty oo Hne) as Hpos.
  pose proof (len_nonneg buf) as Hb.
  replace (len oo =? 0) with false by (symmetry; apply Z.eqb_neq; lia).
  cbn [andb]. rewrite Z.sub_0_r.
  destruct (copy_prefix buf oo) as [Hcopy _]. fold n in Hcopy.
  destruct (len buf >=? len oo) eqn:E.
  - apply Z.geb_le in E.
    rewrite slice_prefix by lia. cbn [bind].
    unfold len at 1. rewrite Nat2Z.id, firstn_all. rewrite Hcopy.
    rewrite slice_suffix by lia. cbn [bind].
    assert (Hn : Z.to_nat n = length oo) by (unfold n, len in *; lia).
    rewrite Hn. unfold len. rewrite Nat2Z.id. reflexivity.
  - assert (len buf < len oo).
    { destruct (Z.geb_spec (len buf) (len oo)); [discriminate | lia]. }
    rewrite Hcopy. rewrite slice_suffix by lia. reflexivity.
Qed.

Lemma Decryptor_ReadAll_closed (fuel : nat) :
  forall (d : AESCBCDecryptor.t) (buf : list byte),
  AESCBCDecryptor.isClosed d = true ->
  0 < len buf ->
  (length (AESCBCDecryptor.outputoverflow d) < fuel)%nat ->
  exists d',
    AESCBCDecryptor.ReadAll fuel d buf =
    Returns (AESCBCDecryptor.outputoverflow d, d') /\
    AESCBCDecryptor.outputoverflow d' = [] /\
    AESCBCDecryptor.isClosed d' = true.
Proof.
  induction fuel as [|fuel IH]; intros d buf Hc Hb Hf; [lia|].
  cbn [AESCBCDecryptor.ReadAll].
  destruct (AESCBCDecryptor.outputoverflow d) as [|x oo] eqn:Ho.
  - unfold AESCBCDecryptor.Read. rewrite Hc, Ho. cbn. eauto.
  - assert (Hne : AESCBCDecryptor.outputoverflow d <> []) by now rewrite Ho.
    rewrite Decryptor_Read_closed_some by assumption. cbn [bind].
    rewrite Ho.
    set (n := Z.min (len buf) (len (x :: oo))).
    assert (Hn : 1 <= n <= len (x :: oo)).
    { unfold n.
      assert (0 < len (x :: oo)) by (apply len_pos_nonempty; discriminate). lia. }
    replace (n =? 0) with false by (symmetry; apply Z.eqb_neq; lia).
    destruct (copy_prefix buf (x :: oo)) as [_ Hs]. fold n in Hs.
    rewrite Hs. cbn [bind].
    set (d1 := AESCBCDecryptor.update d _ _ _ _).
    destruct (IH d1 (fst (copy buf (x :: oo)))) as (d' & Hr & Ho' & Hc').
    + reflexivity.
    + now rewrite len_copy.
    + unfold d1. cbn [AESCBCDecryptor.outputoverflow AESCBCDecryptor.update].
      rewrite length_skipn. unfold len in Hn. cbn [length] in *. lia.
    + rewrite Hr. cbn [bind].
      unfold d1. cbn [AESCBCDecryptor.outputoverflow AESCBCDecryptor.update].
      rewrite firstn_skipn. eauto.
Qed.

(** ** Round trip *)

Lemma cbc_decrypt_encrypt (blk : Block) (chain src : list byte) :
  Block_ok blk -> length chain = 16%nat -> len src mod 16 = 0 ->
  len (fst (cbc_encrypt blk chain src)) = len src /\
  cbc_decrypt blk chain (fst (cbc_encrypt blk chain src)) =
  (src, snd (cbc_encrypt blk chain src)).
Proof.
  intros Hok Hc Hs. unfold cbc_decrypt, cbc_encrypt.
  pose proof (nblocks_whole src Hs) as Hn.
  destruct (encrypt_blocks_length blk Hok (nblocks src) chain src Hc) as [Hl _];
    [lia|].
  assert (Hlen : len (fst (encrypt_blocks (nblocks src) blk chain src)) = len src)
    by (unfold len; lia).
  split; [exact Hlen|].
  assert (Hnb : nblocks (fst (encrypt_blocks (nblocks src) blk chain src))
                = nblocks src).
  { revert Hlen. generalize (fst (encrypt_blocks (nblocks src) blk chain src)).
    intros l Hlen. unfold nblocks. now rewrite Hlen. }
  rewrite Hnb. now apply decrypt_blocks_encrypt_blocks.
Qed.

Lemma Decryptor_written_whole (d : AESCBCDecryptor.t) (T : list byte) :
  len T mod 16 = 0 ->
  Decryptor_written d T =
  let r := cbc_decrypt (cbc_block (AESCBCDecryptor.cbc d))
                       (cbc_iv (AESCBCDecryptor.cbc d)) T in
  AESCBCDecryptor.update d [] (AESCBCDecryptor.outputoverflow d ++ fst r)
    {| cbc_block := cbc_block (AESCBCDecryptor.cbc d); cbc_iv := snd r |} false.
Proof.
  intros H. unfold Decryptor_written.
  replace (Z.to_nat (len T - len T mod 16)) with (length T)
    by (unfold len in *; lia).
  now rewrite firstn_all, skipn_all.
Qed.

(** Decrypting the CBC encryption of a padded plaintext: one [Write], [Close]
    and the drain loop give the plaintext back. *)
Lemma decrypt_all_padded
  (aes_NewCipher : list byte -> Block) (key iv0 P buf : list byte) :
  Block_ok (aes_NewCipher key) ->
  len key = 32 -> len iv0 = 16 -> 0 < len buf ->
  decrypt_all aes_NewCipher key iv0
    (fst (cbc_encrypt (aes_NewCipher key) iv0 (P ++ padding (len P)))) buf =
  Returns (P, None).
Proof.
  intros Hok Hkey Hiv Hb.
  assert (Hiv' : length iv0 = 16%nat) by (unfold len in Hiv; lia).
  destruct (cbc_decrypt_encrypt _ iv0 _ Hok Hiv' (padded_whole P)) as [Hlen Hdec].
  set (C := fst (cbc_encrypt (aes_NewCipher key) iv0 (P ++ padding (len P)))) in *.
  unfold decrypt_all, NewAESCBCDecryptor, NewCBC.
  rewrite Hkey, Hiv. cbn [Z.eqb Pos.eqb negb BlockSize bind].
  set (d0 := AESCBCDecryptor.fresh _ _ _ _).
  rewrite Decryptor_Write_open by reflexivity.
  cbn [bind AESCBCDecryptor.inputoverflow d0 AESCBCDecryptor.fresh app].
  rewrite Decryptor_written_whole by (rewrite Hlen; apply padded_whole).
  subst d0.
  cbn [AESCBCDecryptor.cbc AESCBCDecryptor.outputoverflow AESCBCDecryptor.fresh
       cbc_block cbc_iv app].
  rewrite Hdec. cbn [fst snd].
  unfold AESCBCDecryptor.Close.
  cbn [AESCBCDecryptor.outputoverflow AESCBCDecryptor.update].
  assert (Hpad : 1 <= 16 - len P mod 16 <= 16)
    by (pose proof (Z.mod_pos_bound (len P) 16); lia).
  assert (Hl : 16 <= len (P ++ padding (len P))).
  { rewrite len_app, len_padding.
    pose proof (len_nonneg P). pose proof (Z.mod_le (len P) 16). lia. }
  replace (len (P ++ padding (len P)) <? 16) with false
    by (symmetry; apply Z.ltb_ge; exact Hl).
  unfold padding. rewrite Pkcs7Unpad_padded by lia. cbn [bind].
  match goal with
  | |- context [AESCBCDecryptor.ReadAll ?f ?d ?b] =>
      destruct (Decryptor_ReadAll_closed f d b) as (d' & Hr & _);
      [reflexivity | exact Hb | lia |]
  end.
  rewrite Hr. reflexivity.
Qed.

(** Round trip for a stream whose first written chunk is not empty (or to
    which nothing is written): the decryptor, given the same key and IV,
    returns the concatenated chunks. *)
Lemma decrypt_encrypt_chunks
  (aes_NewCipher : list byte -> Block) (key iv0 : list byte)
  (chunks : list (list byte)) (buf1 buf2 : list byte) :
  Block_ok (aes_NewCipher key) ->
  len key = 32 -> len iv0 = 16 -> 0 < len buf1 -> 0 < len buf2 ->
  match chunks with [] => True | c :: _ => c <> [] end ->
  (c <- encrypt_chunks aes_NewCipher key iv0 chunks buf1 ;;
   decrypt_all aes_NewCipher key iv0 c buf2) =
  Returns (concat chunks, None).
Proof.
  intros Hok Hkey Hiv Hb1 Hb2 Hfirst.
  rewrite encrypt_chunks_ciphertext by assumption. cbn [bind].
  now apply decrypt_all_padded.
Qed.

(** Streaming equivalence for a stream whose first written chunk is not
    empty: the ciphertext is that of a single [Write] of the whole payload. *)
Lemma encrypt_chunks_single
  (aes_NewCipher : list byte -> Block) (key iv0 : list byte)
  (c : list byte) (rest : list (list byte)) (buf1 buf2 : list byte) :
  len iv0 = 16 -> 0 < len buf1 -> 0 < len buf2 -> c <> [] ->
  encrypt_chunks aes_NewCipher key iv0 (c :: rest) buf1 =
  encrypt_chunks aes_NewCipher key iv0 [concat (c :: rest)] buf2.
Proof.
  intros Hiv Hb1 Hb2 Hne.
  rewrite !encrypt_chunks_ciphertext; try assumption.
  - cbn [concat]. now rewrite app_nil_r.
  - cbn [concat]. destruct c; [contradiction | discriminate].
Qed.

(** ** The toy cipher is a block cipher *)

Lemma toy_Block_ok (key : list byte) :
  (16 <= length key)%nat -> Block_ok (toy_NewCipher key).
Proof.
  intros Hk.
  assert (Hl : length (firstn 16 key) = 16%nat) by (rewrite length_firstn; lia).
  constructor; cbn [toy_NewCipher Encrypt Decrypt]; intros x Hx.
  - rewrite length_rev, length_xorBytes. lia.
  - rewrite length_xorBytes, length_rev. lia.
  - rewrite rev_involutive. apply xorBytes_involutive. lia.
Qed.

Lemma toy_key_ok : Block_ok (toy_NewCipher toy_key).
Proof. apply toy_Block_ok. cbn. lia. Qed.

(** ** The claims about whole streams *)

(** C1, at the length where it fails.  Writing the empty byte sequence to an
    encryptor fresh from [NewAESCBCEncryptor] panics: the block-aligned
    branch of [Write] slices the empty buffer at [len - 16].  So the round
    trip of a plaintext of length 0, written with one [Write], produces no
    ciphertext at all.  For a non-empty plaintext in a buffer that the
    caller does not write again the round trip holds
    ([decrypt_encrypt_chunks]). *)
Theorem Encryptor_Write_empty_plaintext
  (aes_NewCipher : list byte -> Block) (key iv0 buf : list byte)
  (e : AESCBCEncryptor.t) :
  NewAESCBCEncryptor aes_NewCipher key iv0 = Returns e ->
  AESCBCEncryptor.Write e [] = Panics /\
  encrypt_chunks aes_NewCipher key iv0 [[]] buf = Panics.
Proof.
  intros H. unfold encrypt_chunks. rewrite H. cbn [bind AESCBCEncryptor.WriteChunks].
  unfold NewAESCBCEncryptor in H.
  destruct (NewCBC _ _) as [m| |]; cbn [bind] in H; try discriminate.
  injection H as <-.
  rewrite Encryptor_Write_empty_panics by reflexivity. now split.
Qed.

Lemma Encryptor_Write_empty_plaintext_witness :
  NewAESCBCEncryptor toy_NewCipher toy_key toy_iv = Returns toy_encryptor /\
  AESCBCEncryptor.Write toy_encryptor [] = Panics /\
  encrypt_chunks toy_NewCipher toy_key toy_iv [[]] (zeros 4) = Panics.
Proof.
  split; [reflexivity|].
  apply (Encryptor_Write_empty_plaintext toy_NewCipher toy_key toy_iv).
  reflexivity.
Defined.

(** C9, at a split where it fails.  A non-empty payload written in one
    [Write] is encrypted, but the same payload split into an empty chunk
    followed by the payload panics in the first [Write], for the reason
    given at C1.  For every split whose first chunk is not empty the
    ciphertexts agree when the chunks are in buffers of their own
    ([encrypt_chunks_single]); chunks passed through one buffer that the
    caller refills can be encrypted wrongly as well. *)
Theorem encrypt_chunks_empty_first_chunk
  (aes_NewCipher : list byte -> Block) (key iv0 P buf : list byte) :
  len iv0 = 16 -> 0 < len buf -> P <> [] ->
  encrypt_chunks aes_NewCipher key iv0 [P] buf =
    Returns (fst (cbc_encrypt (aes_NewCipher key) iv0 (P ++ padding (len P)))) /\
  encrypt_chunks aes_NewCipher key iv0 [[]; P] buf = Panics.
Proof.
  intros Hiv Hb Hne. split.
  - rewrite encrypt_chunks_ciphertext by assumption.
    cbn [concat]. now rewrite app_nil_r.
  - unfold encrypt_chunks, NewAESCBCEncryptor, NewCBC.
    rewrite Hiv. cbn [Z.eqb Pos.eqb BlockSize bind AESCBCEncryptor.WriteChunks].
    rewrite Encryptor_Write_empty_panics by reflexivity. reflexivity.
Qed.

Lemma encrypt_chunks_empty_first_chunk_witness :
  (exists c, encrypt_chunks toy_NewCipher toy_key toy_iv [hello] (zeros 4)
             = Returns c /\ len c = 16) /\
  encrypt_chunks toy_NewCipher toy_key toy_iv [[]; hello] (zeros 4) = Panics.
Proof.
  destruct (encrypt_chunks_empty_first_chunk toy_NewCipher toy_key toy_iv
              hello (zeros 4)) as [H1 H2].
  - reflexivity.
  - reflexivity.
  - discriminate.
  - split; [|exact H2]. eexists. split; [exact H1 | reflexivity].
Defined.

(** C5, counterexample.  The encryptor's input overflow after five bytes
    have been written holds those five bytes, not a 16-byte block. *)
Lemma Encryptor_inputoverflow_partial_block :
  NewAESCBCEncryptor toy_NewCipher toy_key toy_iv = Returns toy_encryptor /\
  exists e,
    AESCBCEncryptor.Write toy_encryptor hello = Returns (0, None, e) /\
    AESCBCEncryptor.isClosed e = false /\
    AESCBCEncryptor.inputoverflow e = hello /\
    len (AESCBCEncryptor.inputoverflow e) = 5.
Proof.
  split; [reflexivity|]. eexists. split; [reflexivity|]. repeat split.
Qed.

(** C5, as amended.  After any sequence of [Write] calls on a fresh
    decryptor (they all succeed) its input overflow holds fewer than 16
    bytes: the length written so far modulo 16.  After any sequence of
    successful [Write] calls on a fresh encryptor, its input overflow is
    empty if nothing was written, and otherwise holds between 1 and 16
    bytes: the trailing partial block of what was written, or one whole
    16-byte block exactly when the length written is a multiple of 16. *)
Theorem inputoverflow_invariant
  (aes_NewCipher : list byte -> Block) (key iv0 : list byte)
  (e0 e : AESCBCEncryptor.t) (d0 : AESCBCDecryptor.t)
  (chunksE chunksD : list (list byte)) :
  NewAESCBCEncryptor aes_NewCipher key iv0 = Returns e0 ->
  NewAESCBCDecryptor aes_NewCipher key iv0 = Returns (Some d0, None) ->
  AESCBCEncryptor.WriteChunks e0 chunksE = Returns e ->
  (exists d,
     AESCBCDecryptor.WriteChunks d0 chunksD = Returns d /\
     AESCBCDecryptor.isClosed d = false /\
     len (AESCBCDecryptor.inputoverflow d) = len (concat chunksD) mod 16 /\
     len (AESCBCDecryptor.inputoverflow d) < 16) /\
  AESCBCEncryptor.isClosed e = false /\
  match chunksE with
  | [] => AESCBCEncryptor.inputoverflow e = []
  | _ :: _ =>
      let total := len (concat chunksE) in
      1 <= len (AESCBCEncryptor.inputoverflow e) <= 16 /\
      len (AESCBCEncryptor.inputoverflow e) =
        (if total mod 16 =? 0 then 16 else total mod 16) /\
      AESCBCEncryptor.inputoverflow e =
        skipn (Z.to_nat (total - len (AESCBCEncryptor.inputoverflow e)))
              (concat chunksE)
  end.
Proof.
  intros He0 Hd0 Hw. split.
  - unfold NewAESCBCDecryptor in Hd0.
    destruct (negb (len key =? 32)); [discriminate|].
    destruct (negb (len iv0 =? 16)); [discriminate|].
    destruct (NewCBC _ _) as [m| |]; cbn [bind] in Hd0; try discriminate.
    injection Hd0 as <-.
    destruct (Decryptor_WriteChunks_open chunksD
                (AESCBCDecryptor.fresh key iv0 (aes_NewCipher key) m))
      as (d & H1 & H2 & H3); [reflexivity | cbn; lia |].
    exists d. cbn [AESCBCDecryptor.inputoverflow AESCBCDecryptor.fresh] in H3.
    rewrite len_nil, Z.add_0_l in H3.
    repeat split; try assumption.
    rewrite H3. apply Z.mod_pos_bound. lia.
  - unfold NewAESCBCEncryptor in He0.
    destruct (NewCBC _ _) as [m| |]; cbn [bind] in He0; try discriminate.
    injection He0 as <-.
    destruct chunksE as [|c rest].
    + cbn in Hw. injection Hw as <-. now split.
    + destruct c as [|x c].
      * cbn [AESCBCEncryptor.WriteChunks] in Hw.
        rewrite Encryptor_Write_empty_panics in Hw by reflexivity.
        discriminate.
      * rewrite Encryptor_WriteChunks_fresh in Hw
          by (try reflexivity; discriminate).
        injection Hw as <-.
        assert (Hne : concat ((x :: c) :: rest) <> []) by discriminate.
        destruct (Encryptor_written_open
                    (AESCBCEncryptor.fresh key iv0 (aes_NewCipher key) m)
                    _ Hne) as (H1 & H2 & H3).
        change (x :: c ++ concat rest) with (concat ((x :: c) :: rest)).
        split; [exact H1|]. cbv zeta.
        split; [exact H2|]. split; [exact H3|].
        rewrite H3. apply inputoverflow_written.
Qed.

Lemma inputoverflow_invariant_witness :
  let e := Encryptor_written toy_encryptor (hello ++ hello) in
  AESCBCEncryptor.WriteChunks toy_encryptor [hello; hello] = Returns e /\
  len (AESCBCEncryptor.inputoverflow e) = 10 /\
  exists d,
    AESCBCDecryptor.WriteChunks toy_decryptor [hello; zeros 16] = Returns d /\
    len (AESCBCDecryptor.inputoverflow d) = 5.
Proof.
  intros e.
  destruct (inputoverflow_invariant toy_NewCipher toy_key toy_iv
              toy_encryptor e toy_decryptor [hello; hello] [hello; zeros 16])
    as ((d & Hd & _ & Hl & _) & _ & _ & Hr & _).
  - reflexivity.
  - reflexivity.
  - reflexivity.
  - split; [reflexivity|]. split; [exact Hr|].
    exists d. split; [exact Hd | exact Hl].
Defined.

(** ** Closing twice *)

Lemma cbc_encrypt_length (blk : Block) (chain src : list byte) :
  Block_ok blk -> length chain = 16%nat -> len src mod 16 = 0 ->
  len (fst (cbc_encrypt blk chain src)) = len src /\
  length (snd (cbc_encrypt blk chain src)) = 16%nat.
Proof.
  intros Hok Hc Hs. unfold cbc_encrypt.
  pose proof (nblocks_whole src Hs) as Hn.
  destruct (encrypt_blocks_length blk Hok (nblocks src) chain src Hc) as [H1 H2];
    [lia|].
  split; [unfold len; lia | exact H2].
Qed.


(** A second [Close] of the decryptor can strip plaintext: with the 16-byte
    plaintext (15 zero bytes, then 1) and its padding block buffered, the
    first [Close] leaves the plaintext and the second removes its last
    byte. *)
Lemma Decryptor_Close_twice_strips :
  let plain := zeros 15 ++ [Byte.x01] in
  let d := AESCBCDecryptor.update toy_decryptor []
             (plain ++ repeat Byte.x10 16) toy_cbc false in
  exists d1 d2,
    AESCBCDecryptor.Close d = Returns (None, d1) /\
    AESCBCDecryptor.outputoverflow d1 = plain /\
    AESCBCDecryptor.Close d1 = Returns (None, d2) /\
    AESCBCDecryptor.outputoverflow d2 = zeros 15.
Proof.
  do 2 eexists. repeat split.
Qed.



(** ** The concrete scenario, on the toy cipher *)

(** "hello" written in one [Write] and closed gives 16 bytes of ciphertext,
    and a fresh decryptor with the same key and IV gives "hello" back. *)
Lemma hello_round_trip :
  (exists c,
     encrypt_chunks toy_NewCipher toy_key toy_iv [hello] (zeros 4) = Returns c /\
     len c = 16) /\
  (c <- encrypt_chunks toy_NewCipher toy_key toy_iv [hello] (zeros 4) ;;
   decrypt_all toy_NewCipher toy_key toy_iv c (zeros 3)) = Returns (hello, None).
Proof.
  split.
  - eexists. split; reflexivity.
  - apply (decrypt_encrypt_chunks toy_NewCipher toy_key toy_iv [hello]);
      try reflexivity.
    + apply toy_key_ok.
    + discriminate.
Qed.

(** * Further properties of the padding codec *)

Lemma byte_of_int_of_byte (x : byte) : byte_of_int (int_of_byte x) = x.
Proof.
  apply int_of_byte_inj. apply int_of_byte_of_int. apply int_of_byte_range.
Qed.

Lemma Pkcs7Pad_pos (data : list byte) (blockSize : Z) :
  0 < blockSize ->
  Pkcs7Pad data blockSize =
  Returns (data ++ repeat (byte_of_int (blockSize - len data mod blockSize))
                          (Z.to_nat (blockSize - len data mod blockSize))).
Proof.
  intros H. unfold Pkcs7Pad, go_rem.
  replace (blockSize =? 0) with false by (symmetry; apply Z.eqb_neq; lia).
  cbn [bind]. rewrite Z.rem_mod_nonneg by (pose proof (len_nonneg data); lia).
  now rewrite pad_loop_repeat.
Qed.

(** X1. For every block size from 1 to 255 and every [data], [Pkcs7Unpad]
    of [Pkcs7Pad data blockSize] returns [data] and no error. *)
Theorem Pkcs7Unpad_Pkcs7Pad_blockSize (data : list byte) (blockSize : Z) :
  1 <= blockSize <= 255 ->
  (p <- Pkcs7Pad data blockSize ;; Pkcs7Unpad p) = Returns (data, None).
Proof.
  intros H. rewrite Pkcs7Pad_pos by lia. cbn [bind].
  apply Pkcs7Unpad_padded.
  pose proof (Z.mod_pos_bound (len data) blockSize). lia.
Qed.

Lemma Pkcs7Unpad_Pkcs7Pad_blockSize_witness :
  (p <- Pkcs7Pad hello 7 ;; Pkcs7Unpad p) = Returns (hello, None).
Proof. apply Pkcs7Unpad_Pkcs7Pad_blockSize. lia. Defined.

(** X2. For every positive block size, [Pkcs7Pad] returns [data] followed by
    between 1 and [blockSize] further bytes, and the length of the result is
    the next multiple of [blockSize] strictly above [len data]. *)
Theorem Pkcs7Pad_length (data : list byte) (blockSize : Z) :
  0 < blockSize ->
  exists pad,
    Pkcs7Pad data blockSize = Returns (data ++ pad) /\
    1 <= len pad <= blockSize /\
    len (data ++ pad) = blockSize * (len data / blockSize + 1).
Proof.
  intros H. rewrite Pkcs7Pad_pos by exact H.
  pose proof (Z.mod_pos_bound (len data) blockSize H) as Hb.
  pose proof (Z.div_mod (len data) blockSize ltac:(lia)) as Hd.
  eexists. split; [reflexivity|].
  rewrite len_app, len_repeat. split; lia.
Qed.

Lemma Pkcs7Pad_length_witness :
  exists pad,
    Pkcs7Pad hello 1000 = Returns (hello ++ pad) /\
    1 <= len pad <= 1000 /\
    len (hello ++ pad) = 1000 * (len hello / 1000 + 1).
Proof. apply Pkcs7Pad_length. lia. Defined.

(** [int] arithmetic within the range of [int]. *)
Lemma wrap_in_range (bits x : Z) :
  0 < bits -> - 2 ^ (bits - 1) <= x < 2 ^ (bits - 1) -> wrap bits x = x.
Proof.
  intros Hb Hx. unfold wrap.
  assert (H2 : 2 ^ bits = 2 * 2 ^ (bits - 1)).
  { replace bits with (1 + (bits - 1)) at 1 by lia.
    rewrite Z.pow_add_r by lia. reflexivity. }
  rewrite Z.mod_small by lia. lia.
Qed.

(** [Pkcs7Pad] is exact wherever [blockSize - r] is within the range of
    [int]; every block size of at least 1 is such. *)
Lemma Pkcs7Pad_int_in_range (bits : Z) (input : list byte) (blockSize : Z) :
  0 < bits ->
  - 2 ^ (bits - 1) <= blockSize - Z.rem (len input) blockSize < 2 ^ (bits - 1) ->
  Pkcs7Pad_int bits input blockSize = Pkcs7Pad input blockSize.
Proof.
  intros Hb Hx. unfold Pkcs7Pad_int, Pkcs7Pad, go_rem.
  destruct (blockSize =? 0); [reflexivity|]. cbn [bind].
  now rewrite wrap_in_range.
Qed.

Lemma Pkcs7Pad_int_positive (bits : Z) (input : list byte) (blockSize : Z) :
  0 < bits -> 1 <= blockSize < 2 ^ (bits - 1) ->
  Pkcs7Pad_int bits input blockSize = Pkcs7Pad input blockSize.
Proof.
  intros Hb Hs. apply Pkcs7Pad_int_in_range; [exact Hb|].
  pose proof (len_nonneg input) as Hl.
  pose proof (Z.rem_nonneg (len input) blockSize ltac:(lia) Hl).
  pose proof (Z.rem_bound_pos (len input) blockSize Hl ltac:(lia)).
  assert (0 < 2 ^ (bits - 1)) by (apply Z.pow_pos_nonneg; lia).
  lia.
Qed.

(** Where the difference leaves the range: a negative block size within
    [len(input) mod |blockSize|] of the least [int] gives a positive padding
    length, and the loop appends that many bytes. *)
Lemma Pkcs7Pad_int_wraps (bits : Z) (input : list byte) (blockSize : Z) :
  0 < bits ->
  - 2 ^ (bits - 1) <= blockSize < 0 ->
  blockSize - Z.rem (len input) blockSize < - 2 ^ (bits - 1) ->
  let pl := blockSize - Z.rem (len input) blockSize + 2 ^ bits in
  0 < pl /\
  Pkcs7Pad_int bits input blockSize =
  Returns (input ++ repeat (byte_of_int pl) (Z.to_nat pl)).
Proof.
  intros Hb Hs Hw pl.
  pose proof (len_nonneg input) as Hl.
  assert (H2 : 2 ^ bits = 2 * 2 ^ (bits - 1)).
  { replace bits with (1 + (bits - 1)) at 1 by lia.
    rewrite Z.pow_add_r by lia. reflexivity. }
  assert (Hr : 0 <= Z.rem (len input) blockSize < - blockSize).
  { pose proof (Z.rem_bound_pos (len input) (- blockSize) Hl ltac:(lia)) as H.
    rewrite Z.rem_opp_r in H by lia. exact H. }
  assert (Hpl : wrap bits (blockSize - Z.rem (len input) blockSize) = pl).
  { unfold wrap, pl.
    replace (blockSize - Z.rem (len input) blockSize + 2 ^ (bits - 1))
      with (blockSize - Z.rem (len input) blockSize + 2 ^ (bits - 1)
            + 2 ^ bits + (-1) * 2 ^ bits) by lia.
    rewrite Z_mod_plus_full, Z.mod_small by lia. lia. }
  split; [unfold pl; lia|].
  unfold Pkcs7Pad_int, go_rem.
  replace (blockSize =? 0) with false by (symmetry; apply Z.eqb_neq; lia).
  cbn [bind]. rewrite Hpl. now rewrite pad_loop_repeat.
Qed.

(** X3. [Pkcs7Pad] with block size 0 panics (integer division by zero).
    With a negative block size it returns its input unchanged, as long as
    [blockSize - len(input)] is still an [int]: the padding length
    [blockSize - r] is then negative and the loop does not run.  (Nearer to
    the least [int] the difference wraps around to a positive padding
    length, see [Pkcs7Pad_int_wraps].) *)
Theorem Pkcs7Pad_nonpositive (bits : Z) (data : list byte) (blockSize : Z) :
  0 < bits ->
  blockSize <= 0 ->
  - 2 ^ (bits - 1) <= blockSize - len data ->
  Pkcs7Pad_int bits data blockSize =
  if blockSize =? 0 then Panics else Returns data.
Proof.
  intros Hb H Hmin. unfold Pkcs7Pad_int, go_rem.
  destruct (blockSize =? 0) eqn:E; [reflexivity|]. apply Z.eqb_neq in E.
  cbn [bind].
  pose proof (len_nonneg data) as Hl.
  pose proof (Z.rem_nonneg (len data) blockSize E Hl) as Hr0.
  assert (Hr : Z.rem (len data) blockSize <= len data).
  { destruct (Z.eq_dec (len data) 0) as [E0|E0].
    - rewrite E0, Z.rem_0_l by exact E. lia.
    - pose proof (Z.rem_bound_pos (len data) (- blockSize) Hl ltac:(lia)) as Hb1.
      rewrite Z.rem_opp_r in Hb1 by lia.
      destruct (Z_lt_le_dec (len data) (- blockSize)) as [Hlt|Hge].
      + rewrite <- (Z.rem_opp_r _ blockSize) by lia.
        rewrite Z.rem_small by lia. lia.
      + lia. }
  assert (0 < 2 ^ (bits - 1)) by (apply Z.pow_pos_nonneg; lia).
  rewrite wrap_in_range by lia.
  replace (Z.to_nat (blockSize - Z.rem (len data) blockSize)) with 0%nat by lia.
  reflexivity.
Qed.

Lemma Pkcs7Pad_nonpositive_witness :
  Pkcs7Pad_int 64 hello 0 = Panics /\
  Pkcs7Pad_int 64 hello (-16) = Returns hello /\
  Pkcs7Pad_int 64 hello (- 2 ^ 63 + 5) = Returns hello.
Proof.
  split; [|split].
  - apply (Pkcs7Pad_nonpositive 64 hello 0); [lia | lia | now vm_compute].
  - apply (Pkcs7Pad_nonpositive 64 hello (-16)); [lia | lia | now vm_compute].
  - apply (Pkcs7Pad_nonpositive 64 hello (- 2 ^ 63 + 5));
      [lia | now vm_compute | now vm_compute].
Defined.

(** A buffer that ends in a zero byte. *)
Lemma Pkcs7Unpad_zero (s : list byte) :
  Pkcs7Unpad (s ++ [Byte.x00]) = Returns (s ++ [Byte.x00], None).
Proof.
  pose proof (len_nonneg s) as Hs.
  assert (Hl : len (s ++ [Byte.x00]) = len s + 1) by now rewrite len_app.
  unfold Pkcs7Unpad.
  replace (len (s ++ [Byte.x00]) =? 0) with false
    by (symmetry; apply Z.eqb_neq; lia).
  rewrite index_last. cbn [bind].
  change (int_of_byte Byte.x00) with 0.
  unfold checkPaddingIsValid.
  replace (len (s ++ [Byte.x00]) <? 0) with false
    by (symmetry; apply Z.ltb_ge; lia).
  rewrite Z.sub_0_r.
  rewrite slice_suffix by lia. cbn [bind].
  unfold len at 1. rewrite Nat2Z.id, skipn_all. cbn [check_loop].
  rewrite slice_prefix by lia. cbn [bind].
  unfold len. rewrite Nat2Z.id, firstn_all. reflexivity.
Qed.

(** X4. The padding byte is the low eight bits of the padding length: when
    the padding length is a multiple of 256 (block size 256 and an aligned
    input, say) [Pkcs7Pad] appends zero bytes, and [Pkcs7Unpad] then returns
    the padded buffer whole, without an error, instead of the data. *)
Theorem Pkcs7Unpad_Pkcs7Pad_truncated (data : list byte) (blockSize : Z) :
  0 < blockSize ->
  (blockSize - len data mod blockSize) mod 256 = 0 ->
  let pad := repeat Byte.x00 (Z.to_nat (blockSize - len data mod blockSize)) in
  pad <> [] /\
  (p <- Pkcs7Pad data blockSize ;; Pkcs7Unpad p) = Returns (data ++ pad, None).
Proof.
  intros Hb Hm pad.
  pose proof (Z.mod_pos_bound (len data) blockSize Hb) as Hr.
  assert (Hbyte : byte_of_int (blockSize - len data mod blockSize) = Byte.x00).
  { unfold byte_of_int. now rewrite Hm. }
  rewrite Pkcs7Pad_pos by exact Hb. cbn [bind]. rewrite Hbyte. fold pad.
  assert (Hne : pad <> []).
  { unfold pad. destruct (Z.to_nat _) eqn:E; [lia | discriminate]. }
  split; [exact Hne|].
  destruct (exists_last Hne) as (s & a & Hs).
  assert (Ha : a = Byte.x00).
  { assert (Hin : In a pad) by (rewrite Hs; apply in_or_app; right; now left).
    unfold pad in Hin. now apply repeat_spec in Hin. }
  rewrite Hs, Ha, app_assoc. apply Pkcs7Unpad_zero.
Qed.

Lemma Pkcs7Unpad_Pkcs7Pad_truncated_witness :
  (p <- Pkcs7Pad [] 256 ;; Pkcs7Unpad p) = Returns (repeat Byte.x00 256, None).
Proof.
  apply (Pkcs7Unpad_Pkcs7Pad_truncated [] 256); reflexivity.
Defined.

Lemma forallb_int_repeat (l : list byte) (x : byte) :
  forallb (fun pc => int_of_byte pc =? int_of_byte x) l = true <->
  l = repeat x (length l).
Proof.
  induction l as [|a l IH]; cbn [forallb length repeat]; [tauto|].
  rewrite andb_true_iff, IH, Z.eqb_eq. split.
  - intros [Ha Hl]. apply int_of_byte_inj in Ha. now rewrite Ha, <- Hl.
  - intros H. injection H as Ha Hl. split; [now rewrite Ha | exact Hl].
Qed.

Lemma Pkcs7Unpad_eval (s : list byte) (x : byte) :
  let input := s ++ [x] in
  let n := int_of_byte x in
  Pkcs7Unpad input =
  if len input <? n then Returns ([], Some ErrInvalidPadding)
  else if forallb (fun pc => int_of_byte pc =? n)
                  (skipn (Z.to_nat (len input - n)) input)
       then Returns (firstn (Z.to_nat (len input - n)) input, None)
       else Returns ([], Some ErrInvalidPadding).
Proof.
  intros input n. subst input n.
  pose proof (len_nonneg s) as Hs.
  pose proof (int_of_byte_range x) as Hx.
  assert (Hl : len (s ++ [x]) = len s + 1) by now rewrite len_app.
  unfold Pkcs7Unpad.
  replace (len (s ++ [x]) =? 0) with false by (symmetry; apply Z.eqb_neq; lia).
  rewrite index_last. cbn [bind]. unfold checkPaddingIsValid.
  destruct (len (s ++ [x]) <? int_of_byte x) eqn:E; [reflexivity|].
  apply Z.ltb_ge in E.
  rewrite slice_suffix by lia. cbn [bind].
  rewrite check_loop_forallb.
  rewrite len_skipn by lia.
  replace (len (s ++ [x]) - (len (s ++ [x]) - int_of_byte x))
    with (int_of_byte x) by lia.
  destruct (forallb _ _); [|reflexivity].
  rewrite slice_prefix by lia. reflexivity.
Qed.

(** X5. [Pkcs7Unpad] on a non-empty buffer whose last byte is [x], of value
    [n]: it returns [p] without an error exactly when the buffer is [p]
    followed by [n] bytes equal to [x]; on every other buffer it returns the
    invalid-padding error and no data.  It never panics. *)
Theorem Pkcs7Unpad_accepts_iff (s : list byte) (x : byte) :
  let input := s ++ [x] in
  let n := Z.to_nat (int_of_byte x) in
  (forall p, Pkcs7Unpad input = Returns (p, None) <-> input = p ++ repeat x n) /\
  ((forall p, input <> p ++ repeat x n) ->
   Pkcs7Unpad input = Returns ([], Some ErrInvalidPadding)).
Proof.
  intros input n.
  pose proof (len_nonneg input) as Hi.
  pose proof (int_of_byte_range x) as Hx.
  assert (Hfwd : forall p, Pkcs7Unpad input = Returns (p, None) ->
                           input = p ++ repeat x n).
  { intros p H. unfold input in H. rewrite Pkcs7Unpad_eval in H. fold input in H.
    destruct (len input <? int_of_byte x) eqn:E; [discriminate|].
    apply Z.ltb_ge in E.
    destruct (forallb _ _) eqn:F; [|discriminate].
    injection H as <-. apply forallb_int_repeat in F.
    rewrite <- (firstn_skipn (Z.to_nat (len input - int_of_byte x)) input) at 1.
    f_equal. rewrite F. f_equal.
    rewrite length_skipn. unfold n, len in *. lia. }
  split.
  - intros p. split; [apply Hfwd|].
    intros H. unfold input. rewrite Pkcs7Unpad_eval. fold input.
    assert (Hlen : len input = len p + int_of_byte x).
    { rewrite H at 1. rewrite len_app, len_repeat. unfold n. lia. }
    pose proof (len_nonneg p) as Hp.
    replace (len input <? int_of_byte x) with false
      by (symmetry; apply Z.ltb_ge; lia).
    replace (Z.to_nat (len input - int_of_byte x)) with (length p)
      by (unfold len in *; lia).
    rewrite H, skipn_app, skipn_all, firstn_app, firstn_all, Nat.sub_diag.
    cbn [skipn firstn app]. rewrite app_nil_r.
    assert (F : forallb (fun pc => int_of_byte pc =? int_of_byte x) (repeat x n)
                = true).
    { apply forallb_int_repeat. now rewrite repeat_length. }
    now rewrite F.
  - intros Hno.
    destruct (Pkcs7Unpad_cases input) as [(p & H) | H]; [|exact H].
    exfalso. apply (Hno p). now apply Hfwd.
Qed.

(** X6. A correctly padded buffer whose final byte is changed to 0 is
    returned whole by [Pkcs7Unpad], with the other padding bytes and the
    zero byte still in it, and with no error: a padding length of 0 passes
    the check. *)
Theorem Pkcs7Unpad_tamper_zero (data padded : list byte) :
  Pkcs7Pad data 16 = Returns padded ->
  Pkcs7Unpad (set_last padded Byte.x00) = Returns (set_last padded Byte.x00, None) /\
  len (set_last padded Byte.x00) = len padded.
Proof.
  intros H. destruct (Pkcs7Pad_16_nonempty _ _ H) as (s & a & ->).
  unfold set_last. rewrite removelast_last. split.
  - apply Pkcs7Unpad_zero.
  - now rewrite !len_app.
Qed.

Lemma Pkcs7Unpad_tamper_zero_witness :
  Pkcs7Unpad (hello ++ repeat Byte.x0b 10 ++ [Byte.x00])
  = Returns (hello ++ repeat Byte.x0b 10 ++ [Byte.x00], None).
Proof.
  exact (proj1 (Pkcs7Unpad_tamper_zero hello (hello ++ repeat Byte.x0b 11) eq_refl)).
Defined.

(** * Further properties of the streams *)

(** X7. [NewAESCBCDecryptor] never panics.  It returns a stream exactly when
    the key has 32 bytes and the IV has 16; the stream is then open, with
    empty buffers and the IV as chaining value.  A wrong key length is
    reported before a wrong IV length. *)
Theorem NewAESCBCDecryptor_validation
  (aes_NewCipher : list byte -> Block) (aesKey iv0 : list byte) :
  (len aesKey = 32 /\ len iv0 = 16 /\
   exists d,
     NewAESCBCDecryptor aes_NewCipher aesKey iv0 = Returns (Some d, None) /\
     AESCBCDecryptor.isClosed d = false /\
     AESCBCDecryptor.inputoverflow d = [] /\
     AESCBCDecryptor.outputoverflow d = [] /\
     AESCBCDecryptor.cbc d = {| cbc_block := aes_NewCipher aesKey; cbc_iv := iv0 |}) \/
  (len aesKey <> 32 /\
   NewAESCBCDecryptor aes_NewCipher aesKey iv0 =
   Returns (None, Some (errors_New "aes key must be 32 bytes long"%string))) \/
  (len aesKey = 32 /\ len iv0 <> 16 /\
   NewAESCBCDecryptor aes_NewCipher aesKey iv0 =
   Returns (None, Some (errors_New "IV must be 16 bytes long"%string))).
Proof.
  unfold NewAESCBCDecryptor, NewCBC, BlockSize.
  destruct (len aesKey =? 32) eqn:Ek; cbn [negb].
  - apply Z.eqb_eq in Ek.
    destruct (len iv0 =? 16) eqn:Ei; cbn [negb bind].
    + apply Z.eqb_eq in Ei. left. split; [exact Ek|]. split; [exact Ei|].
      eexists. split; [reflexivity|]. repeat split.
    + apply Z.eqb_neq in Ei. right. right. now repeat split.
  - apply Z.eqb_neq in Ek. right. left. now split.
Qed.

Lemma Encryptor_Read_available (e : AESCBCEncryptor.t) (buf : list byte) :
  AESCBCEncryptor.isClosed e = false \/ AESCBCEncryptor.outputoverflow e <> [] ->
  let oo := AESCBCEncryptor.outputoverflow e in
  let n := Z.min (len buf) (len oo) in
  AESCBCEncryptor.Read e buf =
  Returns (fst (copy buf oo), n, None,
           AESCBCEncryptor.update e (AESCBCEncryptor.inputoverflow e)
             (skipn (Z.to_nat n) oo) (AESCBCEncryptor.cbc e)
             (AESCBCEncryptor.isClosed e)).
Proof.
  intros H. cbv zeta.
  destruct (AESCBCEncryptor.outputoverflow e) as [|x l] eqn:Ho.
  - destruct H as [Hc | Hne]; [|contradiction].
    unfold AESCBCEncryptor.Read. rewrite Hc, Ho. cbn [andb].
    pose proof (len_nonneg buf) as Hb.
    change (len (@nil byte)) with 0.
    replace (len buf >=? 0) with true by (symmetry; apply Z.geb_le; exact Hb).
    rewrite copy_nil, Z.min_r by lia. reflexivity.
  - rewrite <- Ho. apply Encryptor_Read_some. now rewrite Ho.
Qed.

(** X8. [Read] on an encryptor that is open or has output waiting never
    panics and returns no error: it moves the first
    [min(len buf, len outputoverflow)] bytes of the output overflow to the
    front of the caller's buffer, leaves the rest of the buffer and the rest
    of the output overflow as they were, and touches nothing else. *)
Theorem Encryptor_Read_fifo (e : AESCBCEncryptor.t) (buf : list byte) :
  AESCBCEncryptor.isClosed e = false \/ AESCBCEncryptor.outputoverflow e <> [] ->
  let oo := AESCBCEncryptor.outputoverflow e in
  let n := Z.to_nat (Z.min (len buf) (len oo)) in
  exists buf' e',
    AESCBCEncryptor.Read e buf = Returns (buf', Z.of_nat n, None, e') /\
    buf' = firstn n oo ++ skipn n buf /\
    length buf' = length buf /\
    oo = firstn n oo ++ AESCBCEncryptor.outputoverflow e' /\
    AESCBCEncryptor.inputoverflow e' = AESCBCEncryptor.inputoverflow e /\
    AESCBCEncryptor.cbc e' = AESCBCEncryptor.cbc e /\
    AESCBCEncryptor.isClosed e' = AESCBCEncryptor.isClosed e.
Proof.
  intros H oo n. rewrite Encryptor_Read_available by exact H. fold oo.
  pose proof (len_nonneg buf). pose proof (len_nonneg oo).
  do 2 eexists. split; [f_equal; f_equal; f_equal; f_equal; unfold n; lia|].
  split; [reflexivity|]. split.
  - pose proof (len_copy buf oo) as Hl. unfold len in Hl. lia.
  - cbn [AESCBCEncryptor.outputoverflow AESCBCEncryptor.inputoverflow
         AESCBCEncryptor.cbc AESCBCEncryptor.isClosed AESCBCEncryptor.update].
    fold n. rewrite firstn_skipn. repeat split.
Qed.

Lemma Encryptor_Read_fifo_witness :
  let e := AESCBCEncryptor.update toy_encryptor [] hello toy_cbc false in
  exists e',
    AESCBCEncryptor.Read e (zeros 3) =
    Returns ([Byte.x68; Byte.x65; Byte.x6c], 3, None, e') /\
    AESCBCEncryptor.outputoverflow e' = [Byte.x6c; Byte.x6f].
Proof.
  intros e.
  destruct (Encryptor_Read_fifo e (zeros 3)) as (buf' & e' & H & _).
  - now left.
  - eexists. split; reflexivity.
Defined.

(** X9. [Write] on an open encryptor whose combined buffer (input overflow
    plus [p]) is not empty returns no error and a count that is the number of
    ciphertext bytes it produced: a multiple of 16, in general not [len p].
    No byte is lost: what is retained plus what was encrypted is what was
    held plus what was written; between 1 and 16 bytes are retained. *)
Theorem Encryptor_Write_count (e : AESCBCEncryptor.t) (p : list byte) :
  Block_ok (cbc_block (AESCBCEncryptor.cbc e)) ->
  length (cbc_iv (AESCBCEncryptor.cbc e)) = 16%nat ->
  AESCBCEncryptor.isClosed e = false ->
  AESCBCEncryptor.inputoverflow e ++ p <> [] ->
  exists n e' ciphertext,
    AESCBCEncryptor.Write e p = Returns (n, None, e') /\
    n mod 16 = 0 /\
    len (AESCBCEncryptor.inputoverflow e') + n =
      len (AESCBCEncryptor.inputoverflow e) + len p /\
    1 <= len (AESCBCEncryptor.inputoverflow e') <= 16 /\
    AESCBCEncryptor.outputoverflow e' =
      AESCBCEncryptor.outputoverflow e ++ ciphertext /\
    len ciphertext = n /\
    length (cbc_iv (AESCBCEncryptor.cbc e')) = 16%nat /\
    AESCBCEncryptor.isClosed e' = false.
Proof.
  intros Hok Hiv Hc Hne.
  rewrite Encryptor_Write_open by assumption.
  set (T := AESCBCEncryptor.inputoverflow e ++ p) in *.
  pose proof (len_pos_nonempty T Hne) as Hpos.
  destruct (retained_spec (len T) Hpos) as (Hk1 & Hk2 & Hk3 & Hk4).
  destruct (Encryptor_written_open e T Hne) as (Ho1 & Ho2 & Ho3).
  set (h := Z.to_nat (len T - retained (len T))).
  assert (Hh : len (firstn h T) = len T - retained (len T))
    by (apply len_firstn; lia).
  destruct (cbc_encrypt_length _ (cbc_iv (AESCBCEncryptor.cbc e)) (firstn h T)
              Hok Hiv) as [Hl1 Hl2]; [now rewrite Hh|].
  do 3 eexists. split; [reflexivity|].
  split; [exact Hk3|]. split.
  { assert (HT : len T = len (AESCBCEncryptor.inputoverflow e) + len p)
      by (unfold T; apply len_app).
    rewrite Ho3. lia. }
  split; [exact Ho2|].
  unfold Encryptor_written.
  cbn [AESCBCEncryptor.outputoverflow AESCBCEncryptor.update
       AESCBCEncryptor.cbc AESCBCEncryptor.isClosed cbc_iv].
  fold h. split; [reflexivity|]. split; [now rewrite Hl1|].
  split; [exact Hl2 | reflexivity].
Qed.

Lemma Encryptor_Write_count_witness :
  exists e' ciphertext,
    AESCBCEncryptor.Write toy_encryptor (hello ++ zeros 16) =
      Returns (16, None, e') /\
    len (AESCBCEncryptor.inputoverflow e') = 5 /\
    AESCBCEncryptor.outputoverflow e' = ciphertext /\
    len ciphertext = 16.
Proof.
  destruct (Encryptor_Write_count toy_encryptor (hello ++ zeros 16) toy_key_ok)
    as (n & e' & c & H & _); try reflexivity; [discriminate|].
  do 2 eexists. repeat split.
Defined.

(** On bytes, that is for chunks in buffers of their own: the ciphertext of
    a whole stream (nothing written, or a first chunk that is not empty) is
    the CBC encryption from the IV of the plaintext followed by its PKCS7
    padding, and its length is the next multiple of 16 strictly above the
    plaintext length. *)
Theorem encrypt_chunks_length
  (aes_NewCipher : list byte -> Block) (key iv0 : list byte)
  (chunks : list (list byte)) (buf : list byte) :
  Block_ok (aes_NewCipher key) ->
  len iv0 = 16 -> 0 < len buf ->
  match chunks with [] => True | c :: _ => c <> [] end ->
  let P := concat chunks in
  exists ciphertext,
    encrypt_chunks aes_NewCipher key iv0 chunks buf = Returns ciphertext /\
    ciphertext = fst (cbc_encrypt (aes_NewCipher key) iv0 (P ++ padding (len P))) /\
    len ciphertext = 16 * (len P / 16 + 1).
Proof.
  intros Hok Hiv Hb Hfirst P.
  rewrite encrypt_chunks_ciphertext by assumption. fold P.
  eexists. split; [reflexivity|]. split; [reflexivity|].
  assert (Hiv' : length iv0 = 16%nat) by (unfold len in Hiv; lia).
  destruct (cbc_encrypt_length _ iv0 (P ++ padding (len P)) Hok Hiv'
              (padded_whole P)) as [Hl _].
  rewrite Hl, len_app, len_padding.
  pose proof (Z.div_mod (len P) 16 ltac:(lia)). lia.
Qed.

(** On bytes.  While the encryptor is open, everything but the retained 1
    to 16 bytes of plaintext has already been encrypted: after the chunks
    (the first one not empty) have been written to a fresh encryptor, its output
    overflow holds [len P - retained] bytes, and they are a prefix of the
    ciphertext that [Close] completes with 16 or 32 further bytes. *)
Theorem Encryptor_output_before_Close
  (aes_NewCipher : list byte -> Block) (key iv0 c : list byte)
  (rest : list (list byte)) (e0 : AESCBCEncryptor.t) :
  Block_ok (aes_NewCipher key) ->
  NewAESCBCEncryptor aes_NewCipher key iv0 = Returns e0 ->
  c <> [] ->
  let P := concat (c :: rest) in
  exists e e2 last,
    AESCBCEncryptor.WriteChunks e0 (c :: rest) = Returns e /\
    len (AESCBCEncryptor.outputoverflow e) = len P - retained (len P) /\
    AESCBCEncryptor.Close e = Returns e2 /\
    AESCBCEncryptor.outputoverflow e2 = AESCBCEncryptor.outputoverflow e ++ last /\
    len last = 16 * (retained (len P) / 16 + 1) /\
    AESCBCEncryptor.outputoverflow e2 =
      fst (cbc_encrypt (aes_NewCipher key) iv0 (P ++ padding (len P))).
Proof.
  intros Hok He0 Hne P.
  unfold NewAESCBCEncryptor, NewCBC in He0.
  destruct (len iv0 =? BlockSize) eqn:Eiv; cbn [bind] in He0; [|discriminate].
  apply Z.eqb_eq in Eiv. unfold BlockSize in Eiv.
  assert (Hiv : length iv0 = 16%nat) by (unfold len in Eiv; lia).
  injection He0 as <-.
  set (e0 := AESCBCEncryptor.fresh _ _ _ _).
  assert (HP : P <> []).
  { unfold P. cbn [concat]. destruct c; [contradiction | discriminate]. }
  pose proof (len_pos_nonempty P HP) as Hpos.
  destruct (retained_spec (len P) Hpos) as (Hk1 & Hk2 & Hk3 & Hk4).
  rewrite Encryptor_WriteChunks_fresh by (try reflexivity; exact Hne). fold P.
  set (W := Encryptor_written e0 P).
  pose proof (Encryptor_Close_returns W) as HcW. cbv zeta in HcW.
  destruct (Encryptor_Close_written e0 P HP) as (e2 & Hc & Ho & _).
  fold W in Hc. rewrite HcW in Hc.
  apply (f_equal (value_or W)) in Hc. cbn [value_or] in Hc. rename Hc into He2.
  destruct (Encryptor_written_open e0 P HP) as (_ & _ & Hio). fold W in Hio.
  set (h := Z.to_nat (len P - retained (len P))).
  assert (Hh : len (firstn h P) = len P - retained (len P))
    by (apply len_firstn; lia).
  destruct (cbc_encrypt_length _ iv0 (firstn h P) Hok Hiv) as [Hl1 Hl2];
    [now rewrite Hh|].
  assert (HoW : len (AESCBCEncryptor.outputoverflow W) = len P - retained (len P)).
  { unfold W, Encryptor_written.
    cbn [AESCBCEncryptor.outputoverflow AESCBCEncryptor.update app].
    fold h. subst e0. cbn [AESCBCEncryptor.cbc AESCBCEncryptor.fresh cbc_block
                           cbc_iv AESCBCEncryptor.outputoverflow app].
    now rewrite Hl1. }
  assert (Hchain : length (cbc_iv (AESCBCEncryptor.cbc W)) = 16%nat).
  { unfold W, Encryptor_written.
    cbn [AESCBCEncryptor.cbc AESCBCEncryptor.update cbc_iv].
    fold h. subst e0. exact Hl2. }
  set (io := AESCBCEncryptor.inputoverflow W) in *.
  destruct (cbc_encrypt_length (cbc_block (AESCBCEncryptor.cbc W))
              _ (io ++ padding (len io)) Hok Hchain (padded_whole io))
    as [Hl _].
  exists W, e2,
    (fst (cbc_encrypt (cbc_block (AESCBCEncryptor.cbc W))
            (cbc_iv (AESCBCEncryptor.cbc W)) (io ++ padding (len io)))).
  split; [reflexivity|]. split; [exact HoW|].
  split; [now rewrite HcW, He2|].
  split; [now rewrite <- He2|]. split.
  - rewrite Hl, len_app, len_padding, Hio.
    pose proof (Z.div_mod (retained (len P)) 16 ltac:(lia)). lia.
  - exact Ho.
Qed.

(** ** Reads interleaved with writes *)

Lemma with_output_id (e : AESCBCEncryptor.t) :
  Encryptor_with_output e (AESCBCEncryptor.outputoverflow e) = e.
Proof. now destruct e. Qed.

Lemma with_output_twice (e : AESCBCEncryptor.t) (a c : list byte) :
  Encryptor_with_output (Encryptor_with_output e a) c = Encryptor_with_output e c.
Proof. reflexivity. Qed.

Lemma written_with_output (e : AESCBCEncryptor.t) (a T : list byte) :
  Encryptor_written (Encryptor_with_output e a) T =
  Encryptor_with_output (Encryptor_written e T)
    (a ++ fst (cbc_encrypt (cbc_block (AESCBCEncryptor.cbc e))
                 (cbc_iv (AESCBCEncryptor.cbc e))
                 (firstn (Z.to_nat (len T - retained (len T))) T))).
Proof. reflexivity. Qed.

Lemma output_written (e : AESCBCEncryptor.t) (T : list byte) :
  AESCBCEncryptor.outputoverflow (Encryptor_written e T) =
  AESCBCEncryptor.outputoverflow e ++
  fst (cbc_encrypt (cbc_block (AESCBCEncryptor.cbc e))
         (cbc_iv (AESCBCEncryptor.cbc e))
         (firstn (Z.to_nat (len T - retained (len T))) T)).
Proof. reflexivity. Qed.

(** A [Read] in the middle of the writes moves output to the client and
    changes nothing else. *)
Lemma collect_Read_step (e : AESCBCEncryptor.t) (buf T : list byte)
  (D' : list byte) (e' : AESCBCEncryptor.t) :
  let oo := AESCBCEncryptor.outputoverflow e in
  let n := Z.to_nat (Z.min (len buf) (len oo)) in
  Encryptor_with_output e' (D' ++ AESCBCEncryptor.outputoverflow e') =
    Encryptor_written (Encryptor_with_output e (skipn n oo)) T ->
  Encryptor_with_output e'
    ((firstn n oo ++ D') ++ AESCBCEncryptor.outputoverflow e') =
  Encryptor_written e T.
Proof.
  intros oo n H. rewrite written_with_output in H.
  pose proof (f_equal AESCBCEncryptor.outputoverflow H) as Ho.
  cbn [Encryptor_with_output AESCBCEncryptor.outputoverflow
       AESCBCEncryptor.update] in Ho.
  rewrite <- app_assoc, Ho.
  rewrite <- (with_output_twice e' (D' ++ AESCBCEncryptor.outputoverflow e')).
  rewrite H, with_output_twice, app_assoc, firstn_skipn.
  unfold oo. rewrite <- output_written. apply with_output_id.
Qed.

Lemma Encryptor_Read_collect (e : AESCBCEncryptor.t) (buf : list byte) :
  AESCBCEncryptor.isClosed e = false ->
  let oo := AESCBCEncryptor.outputoverflow e in
  let n := Z.to_nat (Z.min (len buf) (len oo)) in
  ('(buf', k, _, e') <- AESCBCEncryptor.Read e buf ;;
   got <- slice buf' 0 k ;;
   Returns (got, e')) =
  Returns (firstn n oo, Encryptor_with_output e (skipn n oo)).
Proof.
  intros Hc oo n. rewrite Encryptor_Read_available by now left.
  cbn [bind]. fold oo.
  destruct (copy_prefix buf oo) as [_ Hs]. rewrite Hs. reflexivity.
Qed.

Lemma Encryptor_collect_retained (calls : list call) :
  forall e : AESCBCEncryptor.t,
  AESCBCEncryptor.isClosed e = false ->
  1 <= len (AESCBCEncryptor.inputoverflow e) <= 16 ->
  no_Close calls = true ->
  exists D e',
    Encryptor_collect e calls = Returns (D, e') /\
    Encryptor_with_output e' (D ++ AESCBCEncryptor.outputoverflow e') =
    Encryptor_written e
      (AESCBCEncryptor.inputoverflow e ++ concat (written_chunks calls)).
Proof.
  induction calls as [|[p | buf |] rest IH]; intros e Hc Hl Hn.
  - exists [], e. split; [reflexivity|].
    cbn [written_chunks concat app]. rewrite app_nil_r.
    rewrite Encryptor_written_retained by assumption. apply with_output_id.
  - cbn [Encryptor_collect written_chunks concat].
    assert (Hne : AESCBCEncryptor.inputoverflow e ++ p <> []).
    { intros E. apply (f_equal len) in E. rewrite len_app, len_nil in E.
      pose proof (len_nonneg p). lia. }
    rewrite Encryptor_Write_open by assumption. cbn [bind].
    destruct (Encryptor_written_open e _ Hne) as (Hc' & Hl' & _).
    destruct (IH _ Hc' Hl' Hn) as (D & e' & H1 & H2).
    exists D, e'. split; [exact H1|].
    rewrite H2, inputoverflow_written.
    rewrite Encryptor_written_written by exact Hne.
    now rewrite app_assoc.
  - cbn [Encryptor_collect written_chunks].
    pose proof (Encryptor_Read_collect e buf Hc) as HR. cbv zeta in HR.
    set (oo := AESCBCEncryptor.outputoverflow e) in *.
    set (n := Z.to_nat (Z.min (len buf) (len oo))) in *.
    destruct (IH (Encryptor_with_output e (skipn n oo)) Hc Hl Hn)
      as (D' & e' & H1 & H2).
    exists (firstn n oo ++ D'), e'. split.
    + destruct (AESCBCEncryptor.Read e buf) as [[[[buf' k] err] e1]| |];
        cbn [bind] in HR |- *; try discriminate.
      destruct (slice buf' 0 k) as [got| |]; cbn [bind] in HR |- *;
        try discriminate.
      injection HR as -> ->. rewrite H1. reflexivity.
    + apply collect_Read_step. exact H2.
  - discriminate.
Qed.

Lemma Encryptor_collect_fresh (calls : list call) :
  forall e : AESCBCEncryptor.t,
  AESCBCEncryptor.isClosed e = false ->
  AESCBCEncryptor.inputoverflow e = [] ->
  AESCBCEncryptor.outputoverflow e = [] ->
  no_Close calls = true ->
  match written_chunks calls with [] => True | c :: _ => c <> [] end ->
  exists D e',
    Encryptor_collect e calls = Returns (D, e') /\
    Encryptor_with_output e' (D ++ AESCBCEncryptor.outputoverflow e') =
    match written_chunks calls with
    | [] => e
    | _ :: _ => Encryptor_written e (concat (written_chunks calls))
    end.
Proof.
  induction calls as [|[p | buf |] rest IH]; intros e Hc Hio Ho Hn Hfirst.
  - exists [], e. split; [reflexivity|]. apply with_output_id.
  - cbn [Encryptor_collect written_chunks concat] in *.
    rewrite Encryptor_Write_open by (try rewrite Hio; assumption).
    rewrite Hio. cbn [app bind].
    destruct (Encryptor_written_open e p Hfirst) as (Hc' & Hl' & _).
    destruct (Encryptor_collect_retained rest _ Hc' Hl' Hn) as (D & e' & H1 & H2).
    exists D, e'. split; [exact H1|].
    rewrite H2, inputoverflow_written.
    now rewrite Encryptor_written_written.
  - cbn [Encryptor_collect written_chunks] in *.
    pose proof (Encryptor_Read_collect e buf Hc) as HR. cbv zeta in HR.
    rewrite Ho in HR. rewrite firstn_nil, skipn_nil in HR.
    assert (He : Encryptor_with_output e [] = e)
      by (rewrite <- Ho; apply with_output_id).
    rewrite He in HR.
    destruct (IH e Hc Hio Ho Hn Hfirst) as (D' & e' & H1 & H2).
    exists D', e'. split; [|exact H2].
    destruct (AESCBCEncryptor.Read e buf) as [[[[buf' k] err] e1]| |];
      cbn [bind] in HR |- *; try discriminate.
    destruct (slice buf' 0 k) as [got| |]; cbn [bind] in HR |- *;
      try discriminate.
    injection HR as -> ->. rewrite H1. reflexivity.
  - discriminate.
Qed.

Lemma Encryptor_Close_with_output (e : AESCBCEncryptor.t) (a : list byte) :
  exists last e2 e2',
    AESCBCEncryptor.Close e = Returns e2 /\
    AESCBCEncryptor.Close (Encryptor_with_output e a) = Returns e2' /\
    AESCBCEncryptor.outputoverflow e2 = AESCBCEncryptor.outputoverflow e ++ last /\
    AESCBCEncryptor.outputoverflow e2' = a ++ last /\
    AESCBCEncryptor.isClosed e2 = true.
Proof.
  rewrite !Encryptor_Close_returns. do 3 eexists.
  split; [reflexivity|]. split; [reflexivity|]. repeat split.
Qed.

(** On bytes.  [Read] calls may be interleaved with the [Write] calls: in
    a session on a fresh encryptor (no [Close] among the calls; the first
    chunk written, if any, not empty) that ends with [Close] and the drain
    loop, the bytes the client has read, in order, are the CBC encryption
    from the IV of the written chunks followed by their PKCS7 padding. *)
Theorem encrypt_session_ciphertext
  (aes_NewCipher : list byte -> Block) (key iv0 : list byte)
  (calls : list call) (buf : list byte) :
  len iv0 = 16 -> 0 < len buf ->
  no_Close calls = true ->
  match written_chunks calls with [] => True | c :: _ => c <> [] end ->
  let P := concat (written_chunks calls) in
  encrypt_session aes_NewCipher key iv0 calls buf =
  Returns (fst (cbc_encrypt (aes_NewCipher key) iv0 (P ++ padding (len P)))).
Proof.
  intros Hiv Hb Hn Hfirst P.
  unfold encrypt_session, NewAESCBCEncryptor, NewCBC.
  rewrite Hiv. cbn [Z.eqb BlockSize Pos.eqb bind].
  set (e0 := AESCBCEncryptor.fresh _ _ _ _).
  destruct (Encryptor_collect_fresh calls e0) as (D & e' & H1 & H2);
    try reflexivity; try assumption.
  rewrite H1. cbn [bind].
  set (target := match written_chunks calls with
                 | [] => e0
                 | _ :: _ => Encryptor_written e0 (concat (written_chunks calls))
                 end) in H2.
  assert (Htarget : exists t2,
            AESCBCEncryptor.Close target = Returns t2 /\
            AESCBCEncryptor.outputoverflow t2 =
              fst (cbc_encrypt (aes_NewCipher key) iv0 (P ++ padding (len P)))).
  { unfold target, P. destruct (written_chunks calls) as [|c rest] eqn:E.
    - rewrite Encryptor_Close_returns. eexists. split; reflexivity.
    - assert (Hne : concat (c :: rest) <> []).
      { cbn [concat]. destruct c; [contradiction | discriminate]. }
      destruct (Encryptor_Close_written e0 _ Hne) as (t2 & Hc & Ho & _).
      exists t2. split; [exact Hc | exact Ho]. }
  destruct Htarget as (t2 & Hct & Hot).
  destruct (Encryptor_Close_with_output e'
              (D ++ AESCBCEncryptor.outputoverflow e'))
    as (last & e2 & t2' & Hc2 & Hct' & Ho2 & Hot' & Hcl).
  rewrite H2, Hct in Hct'.
  apply (f_equal (value_or e0)) in Hct'. cbn [value_or] in Hct'. subst t2'.
  rewrite Hc2. cbn [bind].
  destruct (Encryptor_ReadAll_closed
              (S (length (AESCBCEncryptor.outputoverflow e2))) e2 buf Hcl Hb)
    as (e3 & Hr & _); [lia|].
  rewrite Hr. cbn [bind].
  now rewrite <- Hot, Hot', Ho2, app_assoc.
Qed.

(** ** Chunked decryption *)

Lemma decrypt_blocks_app (blk : Block) (n1 n2 : nat) (chain s1 s2 : list byte) :
  length s1 = (16 * n1)%nat ->
  decrypt_blocks (n1 + n2) blk chain (s1 ++ s2) =
  let '(p1, chain1) := decrypt_blocks n1 blk chain s1 in
  let '(p2, chain2) := decrypt_blocks n2 blk chain1 s2 in
  (p1 ++ p2, chain2).
Proof.
  revert chain s1. induction n1 as [|n1 IH]; intros chain s1 Hlen.
  - destruct s1; [|simpl in Hlen; lia]. cbn [decrypt_blocks Nat.add app].
    now destruct (decrypt_blocks n2 blk chain s2).
  - cbn [decrypt_blocks Nat.add].
    rewrite firstn_app, skipn_app.
    replace (16 - length s1)%nat with 0%nat by lia.
    rewrite firstn_0, skipn_0, app_nil_r.
    rewrite IH by (rewrite length_skipn; lia).
    destruct (decrypt_blocks n1 blk _ (skipn 16 s1)) as [p1 chain1].
    destruct (decrypt_blocks n2 blk chain1 s2) as [p2 chain2].
    now rewrite app_assoc.
Qed.

Lemma cbc_decrypt_app (blk : Block) (chain s1 s2 : list byte) :
  len s1 mod 16 = 0 ->
  cbc_decrypt blk chain (s1 ++ s2) =
  let '(p1, chain1) := cbc_decrypt blk chain s1 in
  let '(p2, chain2) := cbc_decrypt blk chain1 s2 in
  (p1 ++ p2, chain2).
Proof.
  intros H. unfold cbc_decrypt. rewrite nblocks_app by exact H.
  apply decrypt_blocks_app. now apply nblocks_whole.
Qed.

Lemma whole_part (n : Z) :
  0 <= n -> 0 <= n - n mod 16 <= n /\ (n - n mod 16) mod 16 = 0.
Proof.
  intros H. pose proof (Z.mod_pos_bound n 16 ltac:(lia)).
  pose proof (Z.div_mod n 16 ltac:(lia)).
  pose proof (Z.mod_le n 16 ltac:(lia) ltac:(lia)).
  split; [lia|].
  replace (n - n mod 16) with (16 * (n / 16)) by lia. apply mod16_mul.
Qed.

Lemma Decryptor_written_written (d : AESCBCDecryptor.t) (T1 X : list byte) :
  Decryptor_written (Decryptor_written d T1)
    (skipn (Z.to_nat (len T1 - len T1 mod 16)) T1 ++ X) =
  Decryptor_written d (T1 ++ X).
Proof.
  pose proof (len_nonneg T1) as H1. pose proof (len_nonneg X) as HX.
  destruct (whole_part (len T1) H1) as [Hw1 Hw2].
  set (h1 := Z.to_nat (len T1 - len T1 mod 16)).
  set (A := firstn h1 T1). set (B := skipn h1 T1 ++ X).
  assert (HAB : T1 ++ X = A ++ B)
    by (unfold A, B; now rewrite app_assoc, firstn_skipn).
  assert (HlenA : len A = len T1 - len T1 mod 16) by (apply len_firstn; lia).
  pose proof (len_nonneg B) as HB.
  destruct (whole_part (len B) HB) as [Hb1 Hb2].
  assert (Hmod : len (A ++ B) mod 16 = len B mod 16).
  { rewrite len_app, HlenA. now apply mod16_add. }
  rewrite HAB. unfold Decryptor_written at 1 3.
  cbn [AESCBCDecryptor.cbc AESCBCDecryptor.outputoverflow AESCBCDecryptor.update
       cbc_block cbc_iv].
  rewrite Hmod.
  assert (Hh : Z.to_nat (len (A ++ B) - len B mod 16) =
               (length A + Z.to_nat (len B - len B mod 16))%nat).
  { rewrite len_app. unfold len in *. lia. }
  rewrite Hh, firstn_app_2, skipn_app, Nat.add_comm, Nat.add_sub.
  rewrite (skipn_all2 A) by lia. cbn [app].
  rewrite cbc_decrypt_app by (rewrite HlenA; exact Hw2).
  unfold Decryptor_written, AESCBCDecryptor.update.
  fold h1. fold A.
  cbn [AESCBCDecryptor.iv AESCBCDecryptor.aesKey AESCBCDecryptor.CopyBufferSize
       AESCBCDecryptor.cipher AESCBCDecryptor.outputoverflow AESCBCDecryptor.cbc
       cbc_block cbc_iv].
  destruct (cbc_decrypt _ _ A) as [c1 chain1]. cbn [fst snd].
  destruct (cbc_decrypt _ chain1 _) as [c2 chain2]. cbn [fst snd].
  now rewrite app_assoc.
Qed.

Lemma Decryptor_written_residue (d : AESCBCDecryptor.t) :
  AESCBCDecryptor.isClosed d = false ->
  len (AESCBCDecryptor.inputoverflow d) < 16 ->
  Decryptor_written d (AESCBCDecryptor.inputoverflow d) = d.
Proof.
  intros Hc Hl. unfold Decryptor_written.
  pose proof (len_nonneg (AESCBCDecryptor.inputoverflow d)).
  rewrite Z.mod_small, Z.sub_diag by lia.
  cbn [Z.to_nat firstn skipn]. unfold cbc_decrypt. cbn. rewrite app_nil_r.
  destruct d as [? ? ? ? ? ? [? ?] ?]. cbn in *. now subst.
Qed.

Lemma inputoverflow_Decryptor_written (d : AESCBCDecryptor.t) (T : list byte) :
  AESCBCDecryptor.inputoverflow (Decryptor_written d T) =
  skipn (Z.to_nat (len T - len T mod 16)) T.
Proof. reflexivity. Qed.

(** A sequence of [Write] calls on an open decryptor amounts to one [Write]
    of the concatenation; empty chunks are allowed anywhere. *)
Lemma Decryptor_WriteChunks_concat (chunks : list (list byte)) :
  forall d : AESCBCDecryptor.t,
  AESCBCDecryptor.isClosed d = false ->
  len (AESCBCDecryptor.inputoverflow d) < 16 ->
  AESCBCDecryptor.WriteChunks d chunks =
  Returns (Decryptor_written d (AESCBCDecryptor.inputoverflow d ++ concat chunks)).
Proof.
  induction chunks as [|c rest IH]; intros d Hc Hl.
  - cbn [AESCBCDecryptor.WriteChunks concat]. rewrite app_nil_r.
    now rewrite Decryptor_written_residue.
  - cbn [AESCBCDecryptor.WriteChunks concat].
    rewrite Decryptor_Write_open by exact Hc. cbn [bind].
    destruct (Decryptor_written_open d (AESCBCDecryptor.inputoverflow d ++ c))
      as [Hc' Hl'].
    rewrite IH; [|exact Hc' | rewrite Hl'; apply Z.mod_pos_bound; lia].
    rewrite inputoverflow_Decryptor_written, Decryptor_written_written.
    now rewrite app_assoc.
Qed.

(** On bytes.  Decryption does not depend on how the ciphertext is cut into
    [Write] calls: for every list of chunks, empty ones included, writing
    them one by one, closing and draining gives the same plaintext or the
    same error as a single [Write] of their concatenation. *)
Theorem decrypt_chunks_concat
  (aes_NewCipher : list byte -> Block) (key iv0 : list byte)
  (chunks : list (list byte)) (buf : list byte) :
  decrypt_chunks aes_NewCipher key iv0 chunks buf =
  decrypt_all aes_NewCipher key iv0 (concat chunks) buf.
Proof.
  unfold decrypt_chunks, decrypt_all, NewAESCBCDecryptor.
  destruct (negb (len key =? 32)); [reflexivity|].
  destruct (negb (len iv0 =? 16)); [reflexivity|].
  destruct (NewCBC _ _) as [m| |]; cbn [bind]; try reflexivity.
  rewrite Decryptor_WriteChunks_concat by (try reflexivity; cbn; lia).
  rewrite Decryptor_Write_open by reflexivity. reflexivity.
Qed.

(** On bytes.  Round trip with both sides chunked: a plaintext written to a fresh
    encryptor in chunks (the first one not empty, or none at all), closed and
    drained, and the ciphertext written to a fresh decryptor with the same
    key and IV in any chunks, closed and drained, gives the plaintext back
    with no error. *)
Theorem round_trip_chunked
  (aes_NewCipher : list byte -> Block) (key iv0 : list byte)
  (chunksE chunksD : list (list byte)) (ciphertext buf1 buf2 : list byte) :
  Block_ok (aes_NewCipher key) ->
  len key = 32 -> len iv0 = 16 -> 0 < len buf1 -> 0 < len buf2 ->
  match chunksE with [] => True | c :: _ => c <> [] end ->
  encrypt_chunks aes_NewCipher key iv0 chunksE buf1 = Returns ciphertext ->
  concat chunksD = ciphertext ->
  decrypt_chunks aes_NewCipher key iv0 chunksD buf2 =
  Returns (concat chunksE, None).
Proof.
  intros Hok Hkey Hiv Hb1 Hb2 Hfirst Henc Hcat.
  unfold decrypt_chunks, NewAESCBCDecryptor, NewCBC.
  rewrite Hkey, Hiv. cbn [Z.eqb Pos.eqb negb BlockSize bind].
  rewrite Decryptor_WriteChunks_concat by (try reflexivity; cbn; lia).
  cbn [AESCBCDecryptor.inputoverflow AESCBCDecryptor.fresh app].
  rewrite Hcat.
  rewrite encrypt_chunks_ciphertext in Henc by assumption.
  apply (f_equal (value_or [])) in Henc. cbn [value_or] in Henc. subst ciphertext.
  pose proof (decrypt_all_padded aes_NewCipher key iv0 (concat chunksE) buf2
                Hok Hkey Hiv Hb2) as H.
  unfold decrypt_all, NewAESCBCDecryptor, NewCBC in H.
  rewrite Hkey, Hiv in H. cbn [Z.eqb Pos.eqb negb BlockSize bind] in H.
  rewrite Decryptor_Write_open in H by reflexivity.
  cbn [bind AESCBCDecryptor.inputoverflow AESCBCDecryptor.fresh app] in H.
  exact H.
Qed.

(** ** The decryptor's Read while open *)

(** X15. [Read] on an open decryptor that holds at least 16 bytes of output
    never panics and never hands out the last 16 bytes: it moves the first
    [min(len buf, len outputoverflow - 16)] bytes to the front of the
    caller's buffer, returns no error, and leaves at least 16 bytes buffered
    and everything else untouched. *)
Theorem Decryptor_Read_retains_tail (d : AESCBCDecryptor.t) (buf : list byte) :
  AESCBCDecryptor.isClosed d = false ->
  16 <= len (AESCBCDecryptor.outputoverflow d) ->
  let oo := AESCBCDecryptor.outputoverflow d in
  let n := Z.to_nat (Z.min (len buf) (len oo - 16)) in
  exists d',
    AESCBCDecryptor.Read d buf =
      Returns (firstn n oo ++ skipn n buf, Z.of_nat n, None, d') /\
    oo = firstn n oo ++ AESCBCDecryptor.outputoverflow d' /\
    16 <= len (AESCBCDecryptor.outputoverflow d') /\
    AESCBCDecryptor.inputoverflow d' = AESCBCDecryptor.inputoverflow d /\
    AESCBCDecryptor.cbc d' = AESCBCDecryptor.cbc d /\
    AESCBCDecryptor.isClosed d' = false.
Proof.
  intros Hc Hl oo n. fold oo in Hl.
  unfold AESCBCDecryptor.Read. fold oo. rewrite Hc.
  rewrite andb_false_r.
  pose proof (len_nonneg buf) as Hb.
  destruct (len buf >=? len oo - 16) eqn:E.
  - apply Z.geb_le in E.
    assert (Hn : n = Z.to_nat (len oo - 16)) by (unfold n; lia).
    rewrite slice_prefix by lia. cbn [bind].
    unfold copy. rewrite len_firstn by lia.
    rewrite Z.min_r by lia.
    rewrite slice_suffix by lia. cbn [bind].
    rewrite <- Hn.
    rewrite firstn_firstn, Nat.min_id.
    eexists. split; [f_equal; f_equal; f_equal; f_equal; lia|].
    cbn [AESCBCDecryptor.outputoverflow AESCBCDecryptor.inputoverflow
         AESCBCDecryptor.cbc AESCBCDecryptor.isClosed AESCBCDecryptor.update].
    rewrite firstn_skipn. repeat split.
    unfold len in *. rewrite length_skipn. lia.
  - assert (Hlt : len buf < len oo - 16).
    { destruct (Z.geb_spec (len buf) (len oo - 16)); [discriminate | lia]. }
    assert (Hn : n = Z.to_nat (len buf)) by (unfold n; lia).
    unfold copy. rewrite Z.min_l by lia.
    rewrite slice_suffix by lia. cbn [bind].
    rewrite <- Hn.
    eexists. split; [f_equal; f_equal; f_equal; f_equal; lia|].
    cbn [AESCBCDecryptor.outputoverflow AESCBCDecryptor.inputoverflow
         AESCBCDecryptor.cbc AESCBCDecryptor.isClosed AESCBCDecryptor.update].
    rewrite firstn_skipn. repeat split.
    unfold len in *. rewrite length_skipn. lia.
Qed.

Lemma Decryptor_Read_retains_tail_witness :
  let d := AESCBCDecryptor.update toy_decryptor []
             (hello ++ zeros 16) toy_cbc false in
  exists d',
    AESCBCDecryptor.Read d (zeros 8) =
      Returns (hello ++ zeros 3, 5, None, d') /\
    AESCBCDecryptor.outputoverflow d' = zeros 16.
Proof.
  intros d.
  destruct (Decryptor_Read_retains_tail d (zeros 8)) as (d' & H & _);
    [reflexivity | cbn; lia |].
  eexists. split; reflexivity.
Defined.

(** ** Ciphertext that is not a whole number of blocks *)

Lemma Decryptor_Read_with_input (d : AESCBCDecryptor.t) (io buf : list byte) :
  AESCBCDecryptor.Read (Decryptor_with_input d io) buf =
  '(b, n, err, d') <- AESCBCDecryptor.Read d buf ;;
  Returns (b, n, err, Decryptor_with_input d' io).
Proof.
  unfold AESCBCDecryptor.Read, Decryptor_with_input.
  cbn [AESCBCDecryptor.outputoverflow AESCBCDecryptor.isClosed
       AESCBCDecryptor.update AESCBCDecryptor.inputoverflow AESCBCDecryptor.cbc].
  destruct (_ && _); [reflexivity|].
  destruct (_ >=? _).
  - destruct (slice _ 0 _) as [src| |]; cbn [bind]; try reflexivity.
    destruct (copy buf src) as [p' n].
    destruct (slice _ _ _); reflexivity.
  - destruct (copy buf _) as [p' n].
    destruct (slice _ _ _); reflexivity.
Qed.

Lemma Decryptor_ReadAll_with_input (fuel : nat) :
  forall (d : AESCBCDecryptor.t) (io buf : list byte),
  AESCBCDecryptor.ReadAll fuel (Decryptor_with_input d io) buf =
  '(p, d') <- AESCBCDecryptor.ReadAll fuel d buf ;;
  Returns (p, Decryptor_with_input d' io).
Proof.
  induction fuel as [|fuel IH]; intros d io buf; [reflexivity|].
  cbn [AESCBCDecryptor.ReadAll]. rewrite Decryptor_Read_with_input.
  destruct (AESCBCDecryptor.Read d buf) as [[[[b n] err] d1]| |]; cbn [bind];
    try reflexivity.
  destruct (n =? 0); [reflexivity|].
  destruct (slice b 0 n) as [chunk| |]; cbn [bind]; try reflexivity.
  rewrite IH.
  destruct (AESCBCDecryptor.ReadAll fuel d1 b) as [[rest d2]| |]; reflexivity.
Qed.

Lemma Decryptor_Close_with_input (d : AESCBCDecryptor.t) (io : list byte) :
  AESCBCDecryptor.Close (Decryptor_with_input d io) =
  '(err, d') <- AESCBCDecryptor.Close d ;;
  Returns (err, Decryptor_with_input d' io).
Proof.
  unfold AESCBCDecryptor.Close, Decryptor_with_input.
  cbn [AESCBCDecryptor.outputoverflow AESCBCDecryptor.isClosed
       AESCBCDecryptor.update AESCBCDecryptor.inputoverflow AESCBCDecryptor.cbc].
  destruct (_ <? 16); [reflexivity|].
  destruct (Pkcs7Unpad _) as [[p [x|]]| |]; reflexivity.
Qed.

Lemma Decryptor_written_junk (d : AESCBCDecryptor.t) (C junk : list byte) :
  len C mod 16 = 0 -> len junk < 16 ->
  Decryptor_written d (C ++ junk) =
  Decryptor_with_input (Decryptor_written d C) junk.
Proof.
  intros HC Hj.
  pose proof (len_nonneg C). pose proof (len_nonneg junk).
  assert (Hm : len (C ++ junk) mod 16 = len junk).
  { rewrite len_app, mod16_add by exact HC. apply Z.mod_small. lia. }
  unfold Decryptor_written, Decryptor_with_input.
  rewrite Hm, HC, Z.sub_0_r, len_app.
  replace (Z.to_nat (len C + len junk - len junk)) with (length C)
    by (unfold len; lia).
  replace (Z.to_nat (len C)) with (length C) by (unfold len; lia).
  rewrite firstn_app, skipn_app, firstn_all, skipn_all, Nat.sub_diag.
  rewrite firstn_0, skipn_0, app_nil_r. reflexivity.
Qed.

(** X16. Up to 15 bytes of ciphertext after the last whole block are never
    decrypted and never reported: the residue stays in the input overflow,
    [Close] does not look at it, and the result (plaintext or error) is that
    of the stream without the residue. *)
Theorem decrypt_all_ignores_residue
  (aes_NewCipher : list byte -> Block) (key iv0 C junk buf : list byte) :
  len C mod 16 = 0 -> len junk < 16 ->
  decrypt_all aes_NewCipher key iv0 (C ++ junk) buf =
  decrypt_all aes_NewCipher key iv0 C buf.
Proof.
  intros HC Hj. unfold decrypt_all, NewAESCBCDecryptor.
  destruct (negb (len key =? 32)); [reflexivity|].
  destruct (negb (len iv0 =? 16)); [reflexivity|].
  destruct (NewCBC _ _) as [m| |]; cbn [bind]; try reflexivity.
  rewrite !Decryptor_Write_open by reflexivity. cbn [bind].
  cbn [AESCBCDecryptor.inputoverflow AESCBCDecryptor.fresh app].
  rewrite Decryptor_written_junk by assumption.
  rewrite Decryptor_Close_with_input.
  destruct (AESCBCDecryptor.Close _) as [[[x|] d1]| |]; cbn [bind];
    try reflexivity.
  rewrite Decryptor_ReadAll_with_input.
  cbn [Decryptor_with_input AESCBCDecryptor.outputoverflow AESCBCDecryptor.update].
  destruct (AESCBCDecryptor.ReadAll _ d1 buf) as [[p d2]| |]; reflexivity.
Qed.

Lemma decrypt_all_ignores_residue_witness :
  let c := value_or [] (encrypt_chunks toy_NewCipher toy_key toy_iv
                          [hello] (zeros 4)) in
  decrypt_all toy_NewCipher toy_key toy_iv (c ++ hello) (zeros 4) =
  Returns (hello, None).
Proof.
  intros c.
  rewrite (decrypt_all_ignores_residue toy_NewCipher toy_key toy_iv c hello);
    reflexivity.
Defined.

(** X17. A ciphertext of fewer than 16 bytes, however it is chunked, yields
    the not-enough-bytes error from [Close] and no plaintext. *)
Theorem decrypt_chunks_short
  (aes_NewCipher : list byte -> Block) (key iv0 : list byte)
  (chunks : list (list byte)) (buf : list byte) :
  len key = 32 -> len iv0 = 16 ->
  len (concat chunks) < 16 ->
  decrypt_chunks aes_NewCipher key iv0 chunks buf =
  Returns ([], Some ErrNotEnoughBytes).
Proof.
  intros Hkey Hiv Hshort.
  unfold decrypt_chunks, NewAESCBCDecryptor, NewCBC.
  rewrite Hkey, Hiv. cbn [Z.eqb Pos.eqb negb BlockSize bind].
  rewrite Decryptor_WriteChunks_concat by (try reflexivity; cbn; lia).
  cbn [AESCBCDecryptor.inputoverflow AESCBCDecryptor.fresh app bind].
  pose proof (len_nonneg (concat chunks)) as Hn.
  unfold Decryptor_written.
  rewrite Z.mod_small, Z.sub_diag by lia.
  cbn [Z.to_nat firstn skipn]. unfold cbc_decrypt. cbn. reflexivity.
Qed.

Lemma decrypt_chunks_short_witness :
  decrypt_chunks toy_NewCipher toy_key toy_iv [hello; []; hello] (zeros 4) =
  Returns ([], Some ErrNotEnoughBytes).
Proof.
  apply decrypt_chunks_short; reflexivity.
Defined.

(** * Copy *)

(** ** Located slices *)

Lemma ref_len_contents (s : slice_ref) (buf : list byte) :
  ref_ok s buf -> len (contents s buf) = ref_len s.
Proof.
  destruct s as [v | off n]; cbn [ref_ok contents ref_len]; [reflexivity|].
  intros (H1 & H2 & H3). unfold len in *.
  rewrite length_firstn, length_skipn. lia.
Qed.

Lemma firstn_skipn_slice (l : list byte) (a c : nat) :
  firstn c (skipn a l) = skipn a (firstn (a + c) l).
Proof.
  revert l. induction a as [|a IH]; intros l; [reflexivity|].
  destruct l as [|x l]; [now rewrite !firstn_nil, !skipn_nil|].
  cbn [Nat.add firstn skipn]. apply IH.
Qed.

(** Slicing a located slice slices its bytes, in place. *)
Lemma ref_slice_contents (s : slice_ref) (buf : list byte) (lo hi : Z) :
  ref_ok s buf ->
  0 <= lo -> lo <= hi -> hi <= ref_len s ->
  exists s',
    ref_slice s lo hi = Returns s' /\
    ref_ok s' buf /\
    contents s' buf =
      firstn (Z.to_nat (hi - lo)) (skipn (Z.to_nat lo) (contents s buf)) /\
    match s with
    | Own _ => s' = Own (contents s' buf)
    | InBuf off _ => s' = InBuf (off + lo) (hi - lo)
    end.
Proof.
  intros Hok Hlo Hlh Hhi.
  destruct s as [v | off n]; cbn [ref_ok contents ref_len ref_slice] in *.
  - unfold slice.
    replace ((0 <=? lo) && (lo <=? hi) && (hi <=? len v)) with true
      by (symmetry; rewrite !andb_true_iff, !Z.leb_le; lia).
    cbn [bind]. eexists. split; [reflexivity|]. repeat split.
  - destruct Hok as (H1 & H2 & H3).
    replace ((0 <=? lo) && (lo <=? hi) && (hi <=? n)) with true
      by (symmetry; rewrite !andb_true_iff, !Z.leb_le; lia).
    eexists. split; [reflexivity|]. split; [cbn; lia|]. split; [|reflexivity].
    cbn [contents].
    rewrite skipn_firstn_comm, firstn_firstn, skipn_skipn.
    f_equal; [lia | f_equal; lia].
Qed.

Lemma ref_slice_negative (s : slice_ref) (lo hi : Z) :
  lo < 0 -> ref_slice s lo hi = Panics.
Proof.
  intros H. destruct s as [v | off n]; cbn [ref_slice].
  - rewrite slice_negative by lia. reflexivity.
  - replace (0 <=? lo) with false by (symmetry; apply Z.leb_gt; lia).
    reflexivity.
Qed.

(** [append] gives a slice with the bytes of the old one followed by the new
    bytes; the copy buffer keeps its length and, up to the end of the old
    slice, its bytes. *)
Lemma ref_append_spec (s : slice_ref) (x buf : list byte) :
  ref_ok s buf ->
  exists s' buf',
    ref_append s x buf = (s', buf') /\
    ref_ok s' buf' /\
    contents s' buf' = contents s buf ++ x /\
    len buf' = len buf /\
    (forall t, ref_before t s -> ref_before t s') /\
    (forall t, ref_before t s -> ref_ok t buf -> contents t buf' = contents t buf).
Proof.
  intros Hok. destruct s as [v | off n]; cbn [ref_append ref_ok contents] in *.
  - do 2 eexists. split; [reflexivity|]. repeat split; auto.
  - destruct Hok as (H1 & H2 & H3).
    pose proof (len_nonneg x) as Hx.
    destruct (off + n + len x <=? len buf) eqn:E.
    + apply Z.leb_le in E.
      do 2 eexists. split; [reflexivity|].
      set (buf' := firstn (Z.to_nat (off + n)) buf ++ x ++
                   skipn (Z.to_nat (off + n + len x)) buf).
      assert (Hl1 : length (firstn (Z.to_nat (off + n)) buf) = Z.to_nat (off + n)).
      { rewrite length_firstn. unfold len in *. lia. }
      assert (Hlen : len buf' = len buf).
      { unfold buf'. rewrite !len_app, len_firstn, len_skipn by lia. lia. }
      split; [cbn; lia|]. split; [|split; [exact Hlen|split]].
      * cbn [contents]. unfold buf'.
        rewrite skipn_app, Hl1.
        replace (Z.to_nat off - Z.to_nat (off + n))%nat with 0%nat by lia.
        rewrite skipn_0, firstn_app.
        rewrite length_skipn, Hl1.
        replace (Z.to_nat (n + len x) - (Z.to_nat (off + n) - Z.to_nat off))%nat
          with (length x) by (unfold len in *; lia).
        rewrite firstn_app, firstn_all, Nat.sub_diag, firstn_0, app_nil_r.
        f_equal.
        rewrite firstn_all2 by (rewrite length_skipn, Hl1; lia).
        rewrite skipn_firstn_comm. f_equal. lia.
      * intros [w | o m]; cbn [ref_before]; [auto | lia].
      * intros [w | o m]; [reflexivity|]. cbn [ref_before ref_ok].
        intros Hom (Ho1 & Ho2 & Ho3).
        cbn [contents]. unfold buf'.
        rewrite !firstn_skipn_slice.
        f_equal. rewrite firstn_app, Hl1.
        replace (Z.to_nat o + Z.to_nat m - Z.to_nat (off + n))%nat with 0%nat by lia.
        rewrite firstn_0, app_nil_r, firstn_firstn. f_equal. lia.
    + do 2 eexists. split; [reflexivity|]. repeat split; auto.
Qed.

Lemma ref_ok_len (t : slice_ref) (buf buf' : list byte) :
  len buf' = len buf -> ref_ok t buf -> ref_ok t buf'.
Proof. destruct t; cbn [ref_ok]; [auto | lia]. Qed.

Lemma ref_before_refl (s : slice_ref) : ref_before s s.
Proof. destruct s; cbn [ref_before]; [exact I | lia]. Qed.

Lemma pad_loop_shared_spec (k : nat) (pl : Z) :
  forall (s : slice_ref) (buf : list byte),
  ref_ok s buf ->
  exists s' buf',
    pad_loop_shared k s pl buf = (s', buf') /\
    contents s' buf' = contents s buf ++ repeat (byte_of_int pl) k /\
    len buf' = len buf /\
    (forall t, ref_before t s -> ref_ok t buf -> contents t buf' = contents t buf).
Proof.
  induction k as [|k IH]; intros s buf Hok.
  - exists s, buf. cbn [pad_loop_shared repeat]. rewrite app_nil_r. auto.
  - cbn [pad_loop_shared].
    destruct (ref_append_spec s [byte_of_int pl] buf Hok)
      as (s1 & buf1 & Ha & Hok1 & Hc1 & Hl1 & Hbef & Hkeep).
    rewrite Ha.
    destruct (IH s1 buf1 Hok1) as (s' & buf' & Hp & Hc & Hl & Hsame).
    exists s', buf'. split; [exact Hp|]. split; [|split].
    + rewrite Hc, Hc1, <- app_assoc. reflexivity.
    + lia.
    + intros t Ht Htok.
      rewrite Hsame; [apply Hkeep; assumption | apply Hbef; assumption |].
      apply (ref_ok_len t buf); assumption.
Qed.

(** ** The methods on located slices and on bytes

    When the input overflow and the argument lie in memory of their own, the
    methods on located slices are the methods on bytes. *)

Lemma bind_assoc_Own (o : outcome (list byte)) {B : Type}
  (k : slice_ref -> outcome B) :
  (s <- (v <- o ;; Returns (Own v)) ;; k s) = (v <- o ;; k (Own v)).
Proof. destruct o; reflexivity. Qed.

Lemma Encryptor_Write_shared_refines
  (e : AESCBCEncryptor.t) (p buf : list byte) :
  Encryptor_Write_shared e (Own (AESCBCEncryptor.inputoverflow e)) (Own p) buf =
  ('(n, err, e') <- AESCBCEncryptor.Write e p ;;
   Returns (n, err, e', Own (AESCBCEncryptor.inputoverflow e'), buf)).
Proof.
  unfold Encryptor_Write_shared, AESCBCEncryptor.Write.
  destruct (AESCBCEncryptor.isClosed e); [reflexivity|].
  cbn [ref_len ref_append contents].
  destruct (len (AESCBCEncryptor.inputoverflow e) >? 0);
    cbn [ref_len ref_slice contents];
    (destruct (go_rem _ BlockSize) as [r| |]; [|reflexivity|reflexivity]);
    cbn [bind];
    (destruct (negb (r =? 0));
     [ destruct (go_div _ BlockSize) as [q| |]; [|reflexivity|reflexivity];
       cbn [bind] |]);
    rewrite ?bind_assoc_Own;
    (destruct (slice _ _ _) as [t| |]; [|reflexivity|reflexivity]);
    cbn [bind]; rewrite ?bind_assoc_Own;
    (destruct (slice _ _ _) as [h| |]; [|reflexivity|reflexivity]);
    cbn [bind contents ref_len];
    (destruct (CBCEncrypter_CryptBlocks _ _) as [[c m]| |]; reflexivity).
Qed.

Lemma Decryptor_Write_shared_refines
  (d : AESCBCDecryptor.t) (p buf : list byte) :
  Decryptor_Write_shared d (Own (AESCBCDecryptor.inputoverflow d)) (Own p) buf =
  ('(n, err, d') <- AESCBCDecryptor.Write d p ;;
   Returns (n, err, d', Own (AESCBCDecryptor.inputoverflow d'), buf)).
Proof.
  unfold Decryptor_Write_shared, AESCBCDecryptor.Write.
  destruct (AESCBCDecryptor.isClosed d); [reflexivity|].
  cbn [ref_len ref_append contents].
  destruct (len (AESCBCDecryptor.inputoverflow d) >? 0);
    cbn [ref_len ref_slice contents];
    (destruct (go_rem _ BlockSize) as [r| |]; [|reflexivity|reflexivity]);
    cbn [bind];
    (destruct (negb (r =? 0));
     [ destruct (go_div _ BlockSize) as [q| |]; [|reflexivity|reflexivity];
       cbn [bind]; rewrite ?bind_assoc_Own;
       (destruct (slice _ _ _) as [t| |]; [|reflexivity|reflexivity]);
       cbn [bind]; rewrite ?bind_assoc_Own;
       (destruct (slice _ _ _) as [h| |]; [|reflexivity|reflexivity])
     | ]);
    cbn [bind contents ref_len];
    (destruct (CBCDecrypter_CryptBlocks _ _) as [[c m]| |]; reflexivity).
Qed.

(** ** The encryptor's methods on located slices *)

(** [Write] on an open encryptor, once the input overflow has been prepended:
    the combined buffer is the slice [p1] with bytes [T]. *)
Lemma Encryptor_Write_shared_open
  (e : AESCBCEncryptor.t) (io p p1 : slice_ref) (buf buf1 T : list byte) :
  AESCBCEncryptor.isClosed e = false ->
  (if ref_len io >? 0 then ref_append io (contents p buf) buf else (p, buf))
    = (p1, buf1) ->
  ref_ok p1 buf1 ->
  contents p1 buf1 = T ->
  T <> [] ->
  Encryptor_Write_shared e io p buf =
    Returns (len T - retained (len T), None, Encryptor_written e T,
             Encryptor_kept p1 T, buf1) /\
  ref_ok (Encryptor_kept p1 T) buf1 /\
  contents (Encryptor_kept p1 T) buf1 =
    skipn (Z.to_nat (len T - retained (len T))) T.
Proof.
  intros Hc Happ Hok HT Hne.
  pose proof (len_pos_nonempty T Hne) as Hpos.
  pose proof (ref_len_contents p1 buf1 Hok) as Hn. rewrite HT in Hn.
  destruct (retained_spec (len T) Hpos) as (Hk1 & Hk2 & Hk3 & Hk4).
  pose proof (Z.div_mod (len T) 16 ltac:(lia)) as Hd.
  set (h := len T - retained (len T)) in *.
  destruct (ref_slice_contents p1 buf1 h (len T) Hok) as
    (st & Hst & Hokt & Hct & Hlt); [lia | lia | lia |].
  destruct (ref_slice_contents p1 buf1 0 h Hok) as
    (sp & Hsp & Hokp & Hcp & Hlp); [lia | lia | lia |].
  rewrite HT in Hct, Hcp.
  rewrite Z.sub_0_r, skipn_0 in Hcp.
  assert (Hct' : contents st buf1 = skipn (Z.to_nat h) T).
  { rewrite Hct. apply firstn_all2. rewrite length_skipn. unfold len in *. lia. }
  assert (Hhead : len (firstn (Z.to_nat h) T) mod 16 = 0).
  { rewrite len_firstn by lia. exact Hk3. }
  assert (Hlsp : ref_len sp = h).
  { rewrite <- (ref_len_contents sp buf1 Hokp), Hcp. apply len_firstn. lia. }
  assert (Hkept : (len T mod 16 =? 0) = true -> Encryptor_kept p1 T = st).
  { intros E. unfold Encryptor_kept. fold h.
    destruct p1 as [v | off n]; [now rewrite Hlt, Hct'|].
    rewrite E, Hlt. cbn [ref_len] in Hn. unfold h, retained. rewrite E.
    f_equal; lia. }
  assert (Hkept' : (len T mod 16 =? 0) = false ->
                   Encryptor_kept p1 T = Own (skipn (Z.to_nat h) T)).
  { intros E. unfold Encryptor_kept. fold h.
    destruct p1 as [v | off n]; [reflexivity | now rewrite E]. }
  assert (Hres :
    Encryptor_Write_shared e io p buf =
    Returns (h, None, Encryptor_written e T, Encryptor_kept p1 T, buf1)).
  { unfold Encryptor_Write_shared. rewrite Hc, Happ, <- Hn.
    unfold go_rem, go_div, BlockSize. cbn [Z.eqb bind].
    rewrite rem_16, quot_16 by lia.
    unfold CBCEncrypter_CryptBlocks, Encryptor_written, cbc_encrypt.
    fold h.
    destruct (len T mod 16 =? 0) eqn:E; cbn [negb].
    - replace (len T - 16) with h by (unfold h, retained; now rewrite E).
      rewrite Hst, Hsp. cbn [bind]. rewrite Hcp.
      rewrite CryptBlocks_whole by exact Hhead. cbn [bind].
      rewrite Hlsp, Hkept, Hct' by reflexivity. reflexivity.
    - assert (Hh : h = len T - len T mod 16)
        by (unfold h, retained; now rewrite E).
      replace (len T - (len T - len T / 16 * 16)) with h by lia.
      replace (len T / 16 * 16) with h by lia.
      rewrite Hst, Hsp. cbn [bind]. rewrite Hcp.
      rewrite CryptBlocks_whole by exact Hhead. cbn [bind].
      rewrite Hlsp, Hkept' by reflexivity. cbn [contents]. rewrite Hct'. reflexivity. }
  split; [exact Hres|].
  destruct (len T mod 16 =? 0) eqn:E.
  - rewrite Hkept by reflexivity. split; assumption.
  - rewrite Hkept' by reflexivity. split; [exact I | reflexivity].
Qed.

Lemma ref_slice_buf (buf : list byte) (n : Z) :
  0 <= n <= len buf ->
  ref_slice (InBuf 0 (len buf)) 0 n = Returns (InBuf 0 n).
Proof.
  intros H. cbn [ref_slice].
  replace ((0 <=? 0) && (0 <=? n) && (n <=? len buf)) with true
    by (symmetry; rewrite !andb_true_iff, !Z.leb_le; lia).
  now rewrite Z.sub_0_r.
Qed.

Lemma ref_slice_buf_panics (buf : list byte) (n : Z) :
  n < 0 \/ len buf < n ->
  ref_slice (InBuf 0 (len buf)) 0 n = Panics.
Proof.
  intros H. cbn [ref_slice].
  replace ((0 <=? 0) && (0 <=? n) && (n <=? len buf)) with false; [reflexivity|].
  symmetry. rewrite !andb_false_iff, !Z.leb_gt. lia.
Qed.

(** [Write(inputBuf[:n])] while the input overflow lies outside the copy
    buffer: as [Write] on the bytes, and the new input overflow lies outside
    the copy buffer again. *)
Lemma Encryptor_Write_shared_own (e : AESCBCEncryptor.t) (buf : list byte) (n : Z) :
  AESCBCEncryptor.isClosed e = false ->
  1 <= len (AESCBCEncryptor.inputoverflow e) <= 16 ->
  0 <= n <= len buf ->
  let T := AESCBCEncryptor.inputoverflow e ++ firstn (Z.to_nat n) buf in
  Encryptor_Write_shared e (Own (AESCBCEncryptor.inputoverflow e)) (InBuf 0 n) buf =
  Returns (len T - retained (len T), None, Encryptor_written e T,
           Own (AESCBCEncryptor.inputoverflow (Encryptor_written e T)), buf).
Proof.
  intros Hc Hio Hn T.
  assert (Hne : T <> []).
  { unfold T. destruct (AESCBCEncryptor.inputoverflow e); [cbn in Hio; lia | discriminate]. }
  destruct (Encryptor_Write_shared_open e (Own (AESCBCEncryptor.inputoverflow e))
              (InBuf 0 n) (Own T) buf buf T Hc) as (H & _ & _);
    [| exact I | reflexivity | exact Hne | exact H].
  cbn [ref_len ref_append contents].
  replace (len (AESCBCEncryptor.inputoverflow e) >? 0) with true
    by (symmetry; apply Z.gtb_lt; lia).
  reflexivity.
Qed.

(** [Close] with the input overflow located: the stream closes as [Close]
    does on the bytes of the input overflow; the copy buffer keeps its
    length. *)
Lemma Encryptor_Close_shared_spec
  (e : AESCBCEncryptor.t) (io : slice_ref) (buf : list byte) :
  ref_ok io buf ->
  let r := cbc_encrypt (cbc_block (AESCBCEncryptor.cbc e))
                       (cbc_iv (AESCBCEncryptor.cbc e))
                       (contents io buf ++ padding (len (contents io buf))) in
  exists buf',
    len buf' = len buf /\
    Encryptor_Close_shared e io buf =
    Returns (AESCBCEncryptor.update e (contents io buf)
               (AESCBCEncryptor.outputoverflow e ++ fst r)
               {| cbc_block := cbc_block (AESCBCEncryptor.cbc e); cbc_iv := snd r |}
               true,
             buf').
Proof.
  intros Hok r.
  pose proof (ref_len_contents io buf Hok) as Hl.
  pose proof (len_nonneg (contents io buf)) as Hnn.
  unfold Encryptor_Close_shared, Pkcs7Pad_shared, go_rem, BlockSize.
  cbn [Z.eqb bind]. rewrite <- Hl, rem_16 by lia.
  destruct (pad_loop_shared_spec
              (Z.to_nat (16 - len (contents io buf) mod 16))
              (16 - len (contents io buf) mod 16) io buf Hok)
    as (s' & buf' & Hp & Hc & Hlen & Hsame).
  rewrite Hp. cbn [bind].
  exists buf'. split; [exact Hlen|].
  fold (padding (len (contents io buf))) in Hc. rewrite Hc.
  unfold CBCEncrypter_CryptBlocks.
  rewrite CryptBlocks_whole by apply padded_whole. cbn [bind].
  rewrite (Hsame io (ref_before_refl io) Hok). reflexivity.
Qed.

Lemma Encryptor_Close_shared_refines (e : AESCBCEncryptor.t) (buf : list byte) :
  exists buf',
    Encryptor_Close_shared e (Own (AESCBCEncryptor.inputoverflow e)) buf =
    (e' <- AESCBCEncryptor.Close e ;; Returns (e', buf')).
Proof.
  destruct (Encryptor_Close_shared_spec e
              (Own (AESCBCEncryptor.inputoverflow e)) buf I) as (buf' & _ & H).
  exists buf'. rewrite H, Encryptor_Close_returns. reflexivity.
Qed.

(** The drain loop into a sink that keeps everything: the whole output
    overflow of the closed encryptor arrives. *)
Lemma Encryptor_Copy_drain_buffer (fuel : nat) :
  forall (e : AESCBCEncryptor.t) (buf w : list byte) (written : Z),
  AESCBCEncryptor.isClosed e = true ->
  0 < len buf ->
  (length (AESCBCEncryptor.outputoverflow e) < fuel)%nat ->
  Encryptor_Copy_drain buffer_Write fuel e buf w written =
  Returns (written + len (AESCBCEncryptor.outputoverflow e), None,
           w ++ AESCBCEncryptor.outputoverflow e).
Proof.
  induction fuel as [|fuel IH]; intros e buf w written Hc Hb Hf; [lia|].
  cbn [Encryptor_Copy_drain].
  destruct (AESCBCEncryptor.outputoverflow e) as [|x oo] eqn:Ho.
  - unfold AESCBCEncryptor.Read. rewrite Hc, Ho. cbn.
    rewrite app_nil_r, Z.add_0_r. reflexivity.
  - assert (Hne : AESCBCEncryptor.outputoverflow e <> []) by now rewrite Ho.
    rewrite Encryptor_Read_some by exact Hne. cbn [bind].
    rewrite Ho.
    set (n := Z.min (len buf) (len (x :: oo))).
    assert (Hn : 1 <= n <= len (x :: oo)).
    { assert (0 < len (x :: oo)) by (apply len_pos_nonempty; discriminate).
      unfold n. lia. }
    replace (n =? 0) with false by (symmetry; apply Z.eqb_neq; lia).
    destruct (copy_prefix buf (x :: oo)) as [_ Hs]. fold n in Hs.
    rewrite Hs. cbn [bind buffer_Write].
    set (e1 := AESCBCEncryptor.update e _ _ _ _).
    rewrite (IH e1); [| exact Hc | now rewrite len_copy |].
    + unfold e1. cbn [AESCBCEncryptor.outputoverflow AESCBCEncryptor.update].
      rewrite <- app_assoc, firstn_skipn.
      rewrite <- Z.add_assoc, <- len_app, firstn_skipn. reflexivity.
    + unfold e1. cbn [AESCBCEncryptor.outputoverflow AESCBCEncryptor.update].
      rewrite length_skipn. unfold len in Hn. cbn [length] in *. lia.
Qed.

(** The ciphertext of a stream splits at what [Write] has encrypted of a
    combined buffer [T]. *)
Lemma cbc_encrypt_written (blk : Block) (chain T Y : list byte) :
  T <> [] ->
  let h := Z.to_nat (len T - retained (len T)) in
  let r1 := cbc_encrypt blk chain (firstn h T) in
  fst (cbc_encrypt blk chain (T ++ Y ++ padding (len (T ++ Y)))) =
  fst r1 ++
  fst (cbc_encrypt blk (snd r1)
         (skipn h T ++ Y ++ padding (len (skipn h T ++ Y)))).
Proof.
  intros Hne h r1.
  pose proof (len_pos_nonempty T Hne) as Hpos.
  destruct (retained_spec (len T) Hpos) as (Hk1 & Hk2 & Hk3 & Hk4).
  assert (Hh : len (firstn h T) mod 16 = 0).
  { unfold h. rewrite len_firstn by lia. exact Hk3. }
  assert (Hpad : padding (len (T ++ Y)) = padding (len (skipn h T ++ Y))).
  { apply padding_mod.
    rewrite <- (firstn_skipn h T) at 1.
    rewrite <- app_assoc, len_app. apply mod16_add. exact Hh. }
  rewrite Hpad.
  rewrite <- (firstn_skipn h T) at 1.
  rewrite <- app_assoc.
  rewrite (cbc_encrypt_app blk chain (firstn h T)) by exact Hh.
  fold r1. destruct r1 as [c1 ch1]. cbn [fst snd].
  destruct (cbc_encrypt blk ch1 _) as [c2 ch2]. reflexivity.
Qed.

Lemma script_Read_fits (d : list byte) (err : option error)
  (rest : list (list byte * option error)) (buf : list byte) :
  len d <= len buf ->
  script_Read ((d, err) :: rest) buf =
    (d ++ skipn (length d) buf, len d, err, rest) /\
  len (d ++ skipn (length d) buf) = len buf /\
  firstn (Z.to_nat (len d)) (d ++ skipn (length d) buf) = d.
Proof.
  intros H. cbn [script_Read].
  replace (len d <=? len buf) with true by (symmetry; apply Z.leb_le; lia).
  split; [reflexivity|]. split.
  - rewrite len_app. unfold len in *. rewrite length_skipn. lia.
  - unfold len. rewrite Nat2Z.id, firstn_app, Nat.sub_diag, firstn_0, app_nil_r.
    apply firstn_all.
Qed.

(** ** The main loop once the input overflow lies outside the copy buffer *)

Lemma Encryptor_Copy_loop_own (reads : list (list byte)) :
  forall (fuel drain_fuel : nat) (e : AESCBCEncryptor.t)
         (buf w : list byte) (written : Z),
  AESCBCEncryptor.isClosed e = false ->
  1 <= len (AESCBCEncryptor.inputoverflow e) <= 16 ->
  Forall (fun d => len d <= len buf) reads ->
  0 < len buf ->
  (length reads < fuel)%nat ->
  let T := AESCBCEncryptor.inputoverflow e ++ concat reads in
  let ct := fst (cbc_encrypt (cbc_block (AESCBCEncryptor.cbc e))
                   (cbc_iv (AESCBCEncryptor.cbc e)) (T ++ padding (len T))) in
  (length (AESCBCEncryptor.outputoverflow e ++ ct) < drain_fuel)%nat ->
  Encryptor_Copy_loop script_Read buffer_Write fuel drain_fuel e
    (Own (AESCBCEncryptor.inputoverflow e)) buf
    (map (fun d => (d, None)) reads) w written =
  Returns (written + len (AESCBCEncryptor.outputoverflow e ++ ct), None,
           w ++ AESCBCEncryptor.outputoverflow e ++ ct).
Proof.
  induction reads as [|d rest IH];
    intros fuel drain_fuel e buf w written Hc Hio Hall Hb Hf T ct Hdf;
    (destruct fuel as [|fuel]; [cbn in Hf; lia|]).
  - (* the source is exhausted: [0, io.EOF] *)
    cbn [Encryptor_Copy_loop map script_Read is_EOF].
    rewrite ref_slice_buf by lia. cbn [bind].
    rewrite Encryptor_Write_shared_own by (try assumption; lia).
    cbn [Z.to_nat firstn bind]. rewrite app_nil_r.
    rewrite Encryptor_written_retained by assumption.
    rewrite Encryptor_Read_available by (left; exact Hc). cbn [bind].
    set (oo := AESCBCEncryptor.outputoverflow e) in *.
    set (n := Z.min (len buf) (len oo)).
    destruct (copy_prefix buf oo) as [_ Hs]. fold n in Hs.
    rewrite Hs. cbn [bind buffer_Write].
    set (e2 := AESCBCEncryptor.update e _ _ _ _).
    destruct (Encryptor_Close_shared_spec e2
                (Own (AESCBCEncryptor.inputoverflow e)) (fst (copy buf oo)) I)
      as (buf' & Hlen & Hcl).
    rewrite Hcl. cbn [bind contents].
    rewrite Encryptor_Copy_drain_buffer.
    + cbn [AESCBCEncryptor.outputoverflow AESCBCEncryptor.update e2
           AESCBCEncryptor.cbc].
      unfold ct, T. cbn [concat]. rewrite !app_nil_r.
      rewrite <- Z.add_assoc, <- len_app, <- !app_assoc.
      rewrite (app_assoc (firstn _ oo)), firstn_skipn. reflexivity.
    + reflexivity.
    + rewrite Hlen, len_copy. exact Hb.
    + cbn [AESCBCEncryptor.outputoverflow AESCBCEncryptor.update e2
           AESCBCEncryptor.cbc].
      unfold ct, T in Hdf. cbn [concat] in Hdf. rewrite !app_nil_r in Hdf.
      rewrite length_app in *. rewrite length_skipn. lia.
  - (* one more read of the source *)
    pose proof (Forall_inv Hall) as Hd. pose proof (Forall_inv_tail Hall) as Hrest.
    cbn beta in Hd.
    cbn [Encryptor_Copy_loop map].
    destruct (script_Read_fits d None (map (fun d => (d, None)) rest) buf Hd)
      as (Hr & Hl1 & Hf1).
    rewrite Hr. clear Hr.
    set (buf1 := d ++ skipn (length d) buf) in *.
    pose proof (len_nonneg d) as Hdn.
    rewrite ref_slice_buf by lia. cbn [bind].
    rewrite Encryptor_Write_shared_own by (try assumption; lia).
    cbn [bind]. rewrite Hf1.
    set (T1 := AESCBCEncryptor.inputoverflow e ++ d).
    assert (Hne : T1 <> []).
    { unfold T1. destruct (AESCBCEncryptor.inputoverflow e);
        [cbn in Hio; lia | discriminate]. }
    destruct (Encryptor_written_open e T1 Hne) as (Hc1 & Hio1 & _).
    rewrite Encryptor_Read_available by (left; exact Hc1). cbn [bind].
    set (e1 := Encryptor_written e T1) in *.
    set (oo := AESCBCEncryptor.outputoverflow e1).
    set (n := Z.min (len buf1) (len oo)).
    destruct (copy_prefix buf1 oo) as [_ Hs]. fold n in Hs.
    rewrite Hs. cbn [bind buffer_Write].
    set (e2 := AESCBCEncryptor.update e1 _ _ _ _).
    assert (He2 : AESCBCEncryptor.inputoverflow e2 = AESCBCEncryptor.inputoverflow e1)
      by reflexivity.
    rewrite <- He2.
    assert (Hct :
      AESCBCEncryptor.outputoverflow e ++ ct =
      firstn (Z.to_nat n) oo ++ AESCBCEncryptor.outputoverflow e2 ++
      fst (cbc_encrypt (cbc_block (AESCBCEncryptor.cbc e2))
             (cbc_iv (AESCBCEncryptor.cbc e2))
             ((AESCBCEncryptor.inputoverflow e2 ++ concat rest) ++
              padding (len (AESCBCEncryptor.inputoverflow e2 ++ concat rest))))).
    { unfold ct, T. cbn [concat]. rewrite (app_assoc _ d), <- (app_assoc (_ ++ d)).
      fold T1. rewrite (cbc_encrypt_written _ _ T1 (concat rest) Hne).
      cbn [AESCBCEncryptor.outputoverflow AESCBCEncryptor.update e2
           AESCBCEncryptor.cbc AESCBCEncryptor.inputoverflow cbc_block cbc_iv].
      rewrite (app_assoc (firstn _ oo)), firstn_skipn.
      unfold oo, e1, Encryptor_written.
      cbn [AESCBCEncryptor.outputoverflow AESCBCEncryptor.update
           AESCBCEncryptor.cbc AESCBCEncryptor.inputoverflow cbc_block cbc_iv].
      rewrite <- !app_assoc. reflexivity. }
    rewrite IH.
    + rewrite Hct. rewrite <- Z.add_assoc, <- len_app, <- (app_assoc w).
      reflexivity.
    + exact Hc1.
    + rewrite He2. exact Hio1.
    + rewrite len_copy, Hl1. exact Hrest.
    + rewrite len_copy, Hl1. exact Hb.
    + cbn [length] in Hf. lia.
    + rewrite Hct in Hdf. rewrite length_app in Hdf. lia.
Qed.

(** One read of the source after which the input overflow lies outside the
    copy buffer; from there on the loop is the one above. *)
Lemma Encryptor_Copy_loop_to_own
  (d : list byte) (rest : list (list byte)) (fuel drain_fuel : nat)
  (e : AESCBCEncryptor.t) (io p1 : slice_ref) (buf buf1 w T : list byte)
  (written : Z) :
  AESCBCEncryptor.isClosed e = false ->
  len d <= len buf ->
  let bufr := d ++ skipn (length d) buf in
  (if ref_len io >? 0
   then ref_append io (contents (InBuf 0 (len d)) bufr) bufr
   else (InBuf 0 (len d), bufr)) = (p1, buf1) ->
  ref_ok p1 buf1 ->
  len buf1 = len buf ->
  contents p1 buf1 = T ->
  T <> [] ->
  Encryptor_kept p1 T = Own (skipn (Z.to_nat (len T - retained (len T))) T) ->
  Forall (fun d => len d <= len buf) rest ->
  0 < len buf ->
  (length rest < fuel)%nat ->
  let ct := fst (cbc_encrypt (cbc_block (AESCBCEncryptor.cbc e))
                   (cbc_iv (AESCBCEncryptor.cbc e))
                   (T ++ concat rest ++ padding (len (T ++ concat rest)))) in
  (length (AESCBCEncryptor.outputoverflow e ++ ct) < drain_fuel)%nat ->
  Encryptor_Copy_loop script_Read buffer_Write (S fuel) drain_fuel e io buf
    (map (fun d => (d, None)) (d :: rest)) w written =
  Returns (written + len (AESCBCEncryptor.outputoverflow e ++ ct), None,
           w ++ AESCBCEncryptor.outputoverflow e ++ ct).
Proof.
  intros Hc Hd bufr Happ Hok Hlen HT Hne Hkept Hrest Hb Hf ct Hdf.
  cbn [Encryptor_Copy_loop map].
  destruct (script_Read_fits d None (map (fun d => (d, None)) rest) buf Hd)
    as (Hr & Hl1 & Hf1).
  rewrite Hr. clear Hr. fold bufr in Hl1, Hf1 |- *.
  pose proof (len_nonneg d) as Hdn.
  rewrite ref_slice_buf by lia. cbn [bind].
  destruct (Encryptor_Write_shared_open e io (InBuf 0 (len d)) p1 bufr buf1 T
              Hc Happ Hok HT Hne) as (Hw & _ & _).
  rewrite Hw, Hkept. cbn [bind]. clear Hw.
  destruct (Encryptor_written_open e T Hne) as (Hc1 & Hio1 & _).
  rewrite Encryptor_Read_available by (left; exact Hc1). cbn [bind].
  set (e1 := Encryptor_written e T) in *.
  set (oo := AESCBCEncryptor.outputoverflow e1).
  set (n := Z.min (len buf1) (len oo)).
  destruct (copy_prefix buf1 oo) as [_ Hs]. fold n in Hs.
  rewrite Hs. cbn [bind buffer_Write].
  set (e2 := AESCBCEncryptor.update e1 _ _ _ _).
  assert (He2 : skipn (Z.to_nat (len T - retained (len T))) T =
                AESCBCEncryptor.inputoverflow e2) by reflexivity.
  rewrite He2.
  assert (Hct :
    AESCBCEncryptor.outputoverflow e ++ ct =
    firstn (Z.to_nat n) oo ++ AESCBCEncryptor.outputoverflow e2 ++
    fst (cbc_encrypt (cbc_block (AESCBCEncryptor.cbc e2))
           (cbc_iv (AESCBCEncryptor.cbc e2))
           ((AESCBCEncryptor.inputoverflow e2 ++ concat rest) ++
            padding (len (AESCBCEncryptor.inputoverflow e2 ++ concat rest))))).
  { unfold ct. rewrite (cbc_encrypt_written _ _ T (concat rest) Hne).
    cbn [AESCBCEncryptor.outputoverflow AESCBCEncryptor.update e2
         AESCBCEncryptor.cbc AESCBCEncryptor.inputoverflow cbc_block cbc_iv].
    rewrite (app_assoc (firstn _ oo)), firstn_skipn.
    unfold oo, e1, Encryptor_written.
    cbn [AESCBCEncryptor.outputoverflow AESCBCEncryptor.update
         AESCBCEncryptor.cbc AESCBCEncryptor.inputoverflow cbc_block cbc_iv].
    rewrite <- !app_assoc. reflexivity. }
  rewrite Encryptor_Copy_loop_own.
  - rewrite Hct. rewrite <- Z.add_assoc, <- len_app, <- (app_assoc w).
    reflexivity.
  - exact Hc1.
  - rewrite <- He2. exact Hio1.
  - rewrite len_copy, Hlen. exact Hrest.
  - rewrite len_copy, Hlen. exact Hb.
  - exact Hf.
  - rewrite Hct in Hdf. rewrite length_app in Hdf. lia.
Qed.

Lemma firstn_skipn_app (l1 l2 : list byte) (n m : nat) :
  (n + m <= length l1)%nat ->
  firstn m (skipn n (l1 ++ l2)) = firstn m (skipn n l1).
Proof.
  intros H. rewrite skipn_app, firstn_app, length_skipn.
  replace (m - (length l1 - n))%nat with 0%nat by lia.
  now rewrite firstn_0, app_nil_r.
Qed.

(** [Read] writes only the front of the caller's buffer. *)
Lemma skipn_copy (buf oo : list byte) (off : nat) :
  (length oo <= off)%nat ->
  skipn off (fst (copy buf oo)) = skipn off buf.
Proof.
  intros H. unfold copy. cbn [fst].
  set (n := Z.to_nat (Z.min (len buf) (len oo))).
  assert (Hn : (n <= length oo)%nat /\ (n <= length buf)%nat)
    by (unfold n, len; lia).
  rewrite skipn_app, length_firstn, skipn_skipn.
  rewrite skipn_all2 by (rewrite length_firstn; lia).
  cbn [app]. f_equal. lia.
Qed.

(** A combined buffer of exactly one block is kept back whole. *)
Lemma Encryptor_written_block (e : AESCBCEncryptor.t) (T : list byte) :
  len T = 16 ->
  Encryptor_written e T =
  AESCBCEncryptor.update e T (AESCBCEncryptor.outputoverflow e)
    (AESCBCEncryptor.cbc e) false.
Proof.
  intros H. unfold Encryptor_written. rewrite H.
  change (Z.to_nat (16 - retained 16)) with 0%nat.
  rewrite firstn_0, skipn_0, cbc_encrypt_nil. cbn [fst snd].
  rewrite app_nil_r. destruct e as [? ? ? ? ? ? [? ?] ?]. reflexivity.
Qed.

(** The first read of the source, a whole number of blocks: the input
    overflow becomes the last block of the copy buffer's data, in place. *)
Lemma Encryptor_Copy_loop_first_aligned
  (c1 : list byte) (rest : list (list byte)) (fuel drain_fuel : nat)
  (e : AESCBCEncryptor.t) (buf w : list byte) (written : Z) :
  AESCBCEncryptor.isClosed e = false ->
  0 < len c1 -> len c1 mod 16 = 0 -> len c1 <= len buf ->
  let e1 := Encryptor_written e c1 in
  let oo := AESCBCEncryptor.outputoverflow e1 in
  let bufr := c1 ++ skipn (length c1) buf in
  let n := Z.min (len bufr) (len oo) in
  Encryptor_Copy_loop script_Read buffer_Write (S fuel) drain_fuel e
    (Own []) buf (map (fun d => (d, None)) (c1 :: rest)) w written =
  Encryptor_Copy_loop script_Read buffer_Write fuel drain_fuel
    (Encryptor_with_output e1 (skipn (Z.to_nat n) oo))
    (InBuf (len c1 - 16) 16) (fst (copy bufr oo))
    (map (fun d => (d, None)) rest)
    (w ++ firstn (Z.to_nat n) oo) (written + len (firstn (Z.to_nat n) oo)).
Proof.
  intros Hc Hpos Hal Hd e1 oo bufr n.
  cbn [Encryptor_Copy_loop map].
  destruct (script_Read_fits c1 None (map (fun d => (d, None)) rest) buf Hd)
    as (Hr & Hl1 & Hf1).
  rewrite Hr. clear Hr. fold bufr in Hl1, Hf1 |- *.
  rewrite ref_slice_buf by lia. cbn [bind].
  assert (Hne : c1 <> []) by (intros ->; cbn in Hpos; lia).
  destruct (Encryptor_Write_shared_open e (Own []) (InBuf 0 (len c1))
              (InBuf 0 (len c1)) bufr bufr c1 Hc) as (Hw & _ & _).
  - reflexivity.
  - cbn [ref_ok]. lia.
  - cbn [contents Z.to_nat skipn]. exact Hf1.
  - exact Hne.
  - rewrite Hw. cbn [bind]. clear Hw.
    unfold Encryptor_kept.
    replace (len c1 mod 16 =? 0) with true by (symmetry; apply Z.eqb_eq; exact Hal).
    destruct (Encryptor_written_open e c1 Hne) as (Hc1 & _ & _).
    rewrite Encryptor_Read_available by (left; exact Hc1). cbn [bind].
    fold e1. fold oo. fold n.
    destruct (copy_prefix bufr oo) as [_ Hs]. fold n in Hs.
    rewrite Hs. cbn [bind buffer_Write].
    rewrite Z.add_0_l. unfold Encryptor_with_output. reflexivity.
Qed.

(** The last iteration, on [0, io.EOF] from the source, with the input
    overflow a block of the copy buffer that [Read] does not reach. *)
Lemma Encryptor_Copy_loop_EOF_inbuf
  (fuel drain_fuel : nat) (e : AESCBCEncryptor.t) (off : Z)
  (buf w : list byte) (written : Z) :
  AESCBCEncryptor.isClosed e = false ->
  0 <= off -> off + 16 <= len buf ->
  len (AESCBCEncryptor.outputoverflow e) <= off ->
  let T := firstn 16 (skipn (Z.to_nat off) buf) in
  let ct := fst (cbc_encrypt (cbc_block (AESCBCEncryptor.cbc e))
                   (cbc_iv (AESCBCEncryptor.cbc e)) (T ++ padding (len T))) in
  (length (AESCBCEncryptor.outputoverflow e ++ ct) < drain_fuel)%nat ->
  Encryptor_Copy_loop script_Read buffer_Write (S fuel) drain_fuel e
    (InBuf off 16) buf [] w written =
  Returns (written + len (AESCBCEncryptor.outputoverflow e ++ ct), None,
           w ++ AESCBCEncryptor.outputoverflow e ++ ct).
Proof.
  intros Hc Hoff Hfit Hout T ct Hdf.
  assert (HlT : len T = 16).
  { unfold T, len. rewrite length_firstn, length_skipn. unfold len in *. lia. }
  assert (Hne : T <> []) by (intros E; rewrite E in HlT; discriminate).
  cbn [Encryptor_Copy_loop script_Read is_EOF].
  pose proof (len_nonneg buf) as Hb.
  rewrite ref_slice_buf by lia. cbn [bind].
  destruct (Encryptor_Write_shared_open e (InBuf off 16) (InBuf 0 0)
              (InBuf off 16) buf buf T Hc) as (Hw & _ & _).
  - cbn [ref_len ref_append contents Z.to_nat firstn Z.gtb Z.compare].
    change (len (@nil byte)) with 0. rewrite !Z.add_0_r.
    replace (off + 16 <=? len buf) with true by (symmetry; apply Z.leb_le; lia).
    cbn [app]. now rewrite firstn_skipn.
  - cbn [ref_ok]. lia.
  - reflexivity.
  - exact Hne.
  - rewrite Hw. cbn [bind]. clear Hw.
    unfold Encryptor_kept. rewrite HlT.
    change (16 mod 16 =? 0) with true. cbn iota.
    change (16 - 16) with 0. rewrite Z.add_0_r.
    rewrite Encryptor_written_block by exact HlT.
    rewrite Encryptor_Read_available by (left; reflexivity). cbn [bind].
    cbn [AESCBCEncryptor.outputoverflow AESCBCEncryptor.update
         AESCBCEncryptor.inputoverflow AESCBCEncryptor.cbc
         AESCBCEncryptor.isClosed].
    set (oo := AESCBCEncryptor.outputoverflow e) in *.
    set (n := Z.min (len buf) (len oo)).
    destruct (copy_prefix buf oo) as [_ Hs]. fold n in Hs.
    rewrite Hs. cbn [bind buffer_Write].
    set (e2 := AESCBCEncryptor.update (AESCBCEncryptor.update e _ _ _ _) _ _ _ _).
    assert (Hok2 : ref_ok (InBuf off 16) (fst (copy buf oo))).
    { cbn [ref_ok]. rewrite len_copy. lia. }
    destruct (Encryptor_Close_shared_spec e2 (InBuf off 16) (fst (copy buf oo)) Hok2)
      as (buf' & Hlen & Hcl).
    rewrite Hcl. cbn [bind]. clear Hcl.
    assert (HT2 : contents (InBuf off 16) (fst (copy buf oo)) = T).
    { cbn [contents]. rewrite skipn_copy; [reflexivity|].
      unfold len in Hout. lia. }
    rewrite HT2.
    rewrite Encryptor_Copy_drain_buffer.
    + cbn [AESCBCEncryptor.outputoverflow AESCBCEncryptor.update e2
           AESCBCEncryptor.cbc].
      fold ct.
      rewrite <- Z.add_assoc, <- len_app, <- !app_assoc.
      rewrite (app_assoc (firstn _ oo)), firstn_skipn. reflexivity.
    + reflexivity.
    + rewrite Hlen, len_copy. lia.
    + cbn [AESCBCEncryptor.outputoverflow AESCBCEncryptor.update e2
           AESCBCEncryptor.cbc].
      fold ct. rewrite length_app in *. rewrite length_skipn. lia.
Qed.

(** ** AESCBCEncryptor.Copy *)

Lemma len_inputBuf (n : Z) : 0 <= n -> len (repeat Byte.x00 (Z.to_nat n)) = n.
Proof. intros H. rewrite len_repeat. lia. Qed.

(** X18. [Copy] on a fresh encryptor panics when the first read of the source
    delivers no bytes, with a nil error or with [io.EOF] (an empty source):
    the empty slice goes to [Write], whose block-aligned branch slices it at
    [len - 16]. *)
Theorem Encryptor_Copy_empty_source {R W : Type}
  (src_Read : reader R) (dst_Write : writer W) (fuel drain_fuel : nat)
  (e : AESCBCEncryptor.t) (r r' : R) (w : W) (buf' : list byte)
  (err : option error) :
  0 <= AESCBCEncryptor.CopyBufferSize e ->
  AESCBCEncryptor.isClosed e = false ->
  AESCBCEncryptor.inputoverflow e = [] ->
  src_Read r (repeat Byte.x00 (Z.to_nat (AESCBCEncryptor.CopyBufferSize e)))
    = (buf', 0, err, r') ->
  err = None \/ err = Some io_EOF ->
  (0 < fuel)%nat ->
  Encryptor_Copy src_Read dst_Write fuel drain_fuel e r w = Panics.
Proof.
  intros Hcbs Hc Hio Hsrc Herr Hf.
  unfold Encryptor_Copy.
  replace (AESCBCEncryptor.CopyBufferSize e <? 0) with false
    by (symmetry; apply Z.ltb_ge; lia).
  destruct (dst_Write w (AESCBCEncryptor.IV e)) as [[n0 err0] w0].
  destruct fuel as [|fuel]; [lia|].
  cbn [Encryptor_Copy_loop]. rewrite Hsrc, Hio.
  pose proof (len_nonneg buf') as Hb.
  assert (Hbody :
    (p <- ref_slice (InBuf 0 (len buf')) 0 0 ;;
     Encryptor_Write_shared e (Own []) p buf') = Panics).
  { rewrite ref_slice_buf by lia. cbn [bind].
    unfold Encryptor_Write_shared. rewrite Hc. reflexivity. }
  rewrite ref_slice_buf in Hbody |- * by lia. cbn [bind] in Hbody |- *.
  rewrite Hbody.
  destruct Herr as [-> | ->]; reflexivity.
Qed.

Lemma Encryptor_Copy_empty_source_witness :
  Encryptor_Copy script_Read buffer_Write 1 0
    (Encryptor_with_CopyBufferSize toy_encryptor 64) [] [] = Panics.
Proof.
  apply (Encryptor_Copy_empty_source script_Read buffer_Write 1 0
           (Encryptor_with_CopyBufferSize toy_encryptor 64) [] [] []
           (zeros 64) (Some io_EOF)).
  - cbn. lia.
  - reflexivity.
  - reflexivity.
  - reflexivity.
  - right. reflexivity.
  - lia.
Defined.

(** X19. When the first read of the source fails with an error other than
    [io.EOF], [Copy] returns that error with the count [len(e.IV)]: the IV
    has been handed to the sink, whatever its [Write] answered, and nothing
    else. *)
Theorem Encryptor_Copy_source_error {R W : Type}
  (src_Read : reader R) (dst_Write : writer W) (fuel drain_fuel : nat)
  (e : AESCBCEncryptor.t) (r r' : R) (w : W) (buf' : list byte)
  (n : Z) (x : error) :
  0 <= AESCBCEncryptor.CopyBufferSize e ->
  src_Read r (repeat Byte.x00 (Z.to_nat (AESCBCEncryptor.CopyBufferSize e)))
    = (buf', n, Some x, r') ->
  is_EOF x = false ->
  (0 < fuel)%nat ->
  Encryptor_Copy src_Read dst_Write fuel drain_fuel e r w =
  Returns (len (AESCBCEncryptor.IV e), Some x,
           snd (dst_Write w (AESCBCEncryptor.IV e))).
Proof.
  intros Hcbs Hsrc Hx Hf.
  unfold Encryptor_Copy.
  replace (AESCBCEncryptor.CopyBufferSize e <? 0) with false
    by (symmetry; apply Z.ltb_ge; lia).
  destruct (dst_Write w (AESCBCEncryptor.IV e)) as [[n0 err0] w0].
  destruct fuel as [|fuel]; [lia|].
  cbn [Encryptor_Copy_loop snd]. rewrite Hsrc, Hx. reflexivity.
Qed.

Lemma Encryptor_Copy_source_error_witness :
  Encryptor_Copy script_Read buffer_Write 1 0
    (Encryptor_with_CopyBufferSize toy_encryptor 64)
    [(hello, Some (errors_New "unexpected"%string))] [] =
  Returns (16, Some (errors_New "unexpected"%string), toy_iv).
Proof.
  apply (Encryptor_Copy_source_error script_Read buffer_Write 1 0
           (Encryptor_with_CopyBufferSize toy_encryptor 64)
           [(hello, Some (errors_New "unexpected"%string))] [] []
           (hello ++ zeros 59) 5 (errors_New "unexpected"%string)).
  - cbn. lia.
  - reflexivity.
  - reflexivity.
  - lia.
Defined.

(** X20. [Copy] is right whenever the first read of the source is not a
    whole number of blocks: for a source that delivers the reads [d :: rest]
    (each within the copy buffer, nil errors) and then [0, io.EOF], the sink
    receives the IV followed by the CBC encryption of the concatenated reads
    with their PKCS7 padding, and the count is the number of those bytes. *)
Theorem Encryptor_Copy_unaligned_first_read
  (e : AESCBCEncryptor.t) (d : list byte) (rest : list (list byte))
  (fuel drain_fuel : nat) (w : list byte) :
  AESCBCEncryptor.isClosed e = false ->
  AESCBCEncryptor.inputoverflow e = [] ->
  AESCBCEncryptor.outputoverflow e = [] ->
  len d mod 16 <> 0 ->
  Forall (fun x => len x <= AESCBCEncryptor.CopyBufferSize e) (d :: rest) ->
  (length (d :: rest) < fuel)%nat ->
  let P := concat (d :: rest) in
  let ct := fst (cbc_encrypt (cbc_block (AESCBCEncryptor.cbc e))
                   (cbc_iv (AESCBCEncryptor.cbc e)) (P ++ padding (len P))) in
  (length ct < drain_fuel)%nat ->
  Encryptor_Copy script_Read buffer_Write fuel drain_fuel e
    (map (fun x => (x, None)) (d :: rest)) w =
  Returns (len (AESCBCEncryptor.IV e) + len ct, None,
           w ++ AESCBCEncryptor.IV e ++ ct).
Proof.
  intros Hc Hio Ho Hd Hall Hf P ct Hdf.
  pose proof (Forall_inv Hall) as Hd1. cbn beta in Hd1.
  pose proof (Forall_inv_tail Hall) as Hrest.
  pose proof (len_nonneg d) as Hdn.
  assert (Hdpos : 0 < len d).
  { destruct (Z.eq_dec (len d) 0) as [E|E]; [rewrite E in Hd; now cbn in Hd | lia]. }
  unfold Encryptor_Copy.
  replace (AESCBCEncryptor.CopyBufferSize e <? 0) with false
    by (symmetry; apply Z.ltb_ge; lia).
  cbn [buffer_Write]. rewrite Hio.
  destruct fuel as [|fuel]; [cbn in Hf; lia|].
  set (buf := repeat Byte.x00 (Z.to_nat (AESCBCEncryptor.CopyBufferSize e))).
  assert (Hbuf : len buf = AESCBCEncryptor.CopyBufferSize e)
    by (apply len_inputBuf; lia).
  destruct (script_Read_fits d None [] buf) as (_ & Hl1 & Hf1); [lia|].
  assert (Hne : d <> []) by (intros ->; cbn in Hdpos; lia).
  rewrite (Encryptor_Copy_loop_to_own d rest fuel drain_fuel e (Own [])
             (InBuf 0 (len d)) buf (d ++ skipn (length d) buf)
             (w ++ AESCBCEncryptor.IV e) d).
  - rewrite Ho. cbn [app]. unfold ct, P. cbn [concat].
    rewrite <- !app_assoc. reflexivity.
  - exact Hc.
  - lia.
  - reflexivity.
  - cbn [ref_ok]. lia.
  - exact Hl1.
  - cbn [contents Z.to_nat skipn]. exact Hf1.
  - exact Hne.
  - unfold Encryptor_kept.
    replace (len d mod 16 =? 0) with false by (symmetry; apply Z.eqb_neq; exact Hd).
    reflexivity.
  - rewrite Hbuf. exact Hrest.
  - lia.
  - cbn [length] in Hf. lia.
  - rewrite Ho. cbn [app]. unfold ct, P in Hdf. cbn [concat] in Hdf.
    rewrite <- !app_assoc in Hdf. exact Hdf.
Qed.

Lemma Encryptor_Copy_unaligned_first_read_witness :
  Encryptor_Copy script_Read buffer_Write 3 49
    (Encryptor_with_CopyBufferSize toy_encryptor 16)
    [(hello, None); (zeros 16, None)] [] =
  Returns (16 + 32, None,
           toy_iv ++
           fst (cbc_encrypt (toy_NewCipher toy_key) toy_iv
                  ((hello ++ zeros 16) ++ padding 21))).
Proof.
  apply (Encryptor_Copy_unaligned_first_read
           (Encryptor_with_CopyBufferSize toy_encryptor 16)
           hello [zeros 16] 3 49 []).
  - reflexivity.
  - reflexivity.
  - reflexivity.
  - vm_compute. discriminate.
  - repeat constructor; vm_compute; discriminate.
  - cbn. lia.
  - vm_compute. lia.
Defined.

Lemma aligned_pos (n : Z) : 0 < n -> n mod 16 = 0 -> 16 <= n.
Proof. intros Hp Hm. pose proof (Z.div_mod n 16 ltac:(lia)). lia. Qed.

(** What [Write] has put on the output overflow of a stream with an empty one
    after a first chunk of whole blocks. *)
Lemma Encryptor_written_aligned (e : AESCBCEncryptor.t) (c1 : list byte) :
  0 < len c1 -> len c1 mod 16 = 0 ->
  AESCBCEncryptor.outputoverflow e = [] ->
  let h := Z.to_nat (len c1 - 16) in
  let r1 := cbc_encrypt (cbc_block (AESCBCEncryptor.cbc e))
                        (cbc_iv (AESCBCEncryptor.cbc e)) (firstn h c1) in
  AESCBCEncryptor.outputoverflow (Encryptor_written e c1) = fst r1 /\
  AESCBCEncryptor.cbc (Encryptor_written e c1) =
    {| cbc_block := cbc_block (AESCBCEncryptor.cbc e); cbc_iv := snd r1 |} /\
  retained (len c1) = 16.
Proof.
  intros Hp Hm Ho h r1.
  assert (Hr : retained (len c1) = 16) by (unfold retained; now rewrite Hm).
  unfold Encryptor_written. rewrite Hr, Ho. cbn. auto.
Qed.

(** X21. [Copy] is right for a source that delivers its data in one read of
    a whole number of blocks and then [0, io.EOF]: the sink receives the IV
    followed by the CBC encryption of the data with a full block of
    padding. *)
Theorem Encryptor_Copy_one_aligned_read
  (e : AESCBCEncryptor.t) (c1 : list byte)
  (fuel drain_fuel : nat) (w : list byte) :
  Block_ok (cbc_block (AESCBCEncryptor.cbc e)) ->
  length (cbc_iv (AESCBCEncryptor.cbc e)) = 16%nat ->
  AESCBCEncryptor.isClosed e = false ->
  AESCBCEncryptor.inputoverflow e = [] ->
  AESCBCEncryptor.outputoverflow e = [] ->
  0 < len c1 -> len c1 mod 16 = 0 ->
  len c1 <= AESCBCEncryptor.CopyBufferSize e ->
  (1 < fuel)%nat ->
  let ct := fst (cbc_encrypt (cbc_block (AESCBCEncryptor.cbc e))
                   (cbc_iv (AESCBCEncryptor.cbc e)) (c1 ++ padding (len c1))) in
  (length ct < drain_fuel)%nat ->
  Encryptor_Copy script_Read buffer_Write fuel drain_fuel e [(c1, None)] w =
  Returns (len (AESCBCEncryptor.IV e) + len ct, None,
           w ++ AESCBCEncryptor.IV e ++ ct).
Proof.
  intros Hblk Hchain Hc Hio Ho Hpos Hal Hfit Hf ct Hdf.
  pose proof (aligned_pos _ Hpos Hal) as H16.
  unfold Encryptor_Copy.
  replace (AESCBCEncryptor.CopyBufferSize e <? 0) with false
    by (symmetry; apply Z.ltb_ge; lia).
  cbn [buffer_Write]. rewrite Hio.
  destruct fuel as [|[|fuel]]; [lia | lia |].
  set (buf := repeat Byte.x00 (Z.to_nat (AESCBCEncryptor.CopyBufferSize e))).
  assert (Hbuf : len buf = AESCBCEncryptor.CopyBufferSize e)
    by (apply len_inputBuf; lia).
  change [(c1, @None error)] with (map (fun d : list byte => (d, @None error)) [c1]).
  rewrite Encryptor_Copy_loop_first_aligned by (try assumption; lia).
  cbn [map].
  destruct (script_Read_fits c1 None [] buf) as (_ & Hl1 & _); [lia|].
  set (bufr := c1 ++ skipn (length c1) buf) in *.
  destruct (Encryptor_written_aligned e c1 Hpos Hal Ho) as (Hoo & Hcbc & Hret).
  set (h := Z.to_nat (len c1 - 16)) in *.
  set (r1 := cbc_encrypt _ _ (firstn h c1)) in *.
  assert (Hh : len (firstn h c1) = len c1 - 16)
    by (unfold h; apply len_firstn; lia).
  assert (Hlr : len (fst r1) = len c1 - 16).
  { unfold r1. rewrite (proj1 (cbc_encrypt_length _ _ _ Hblk Hchain
                                 ltac:(rewrite Hh; replace (len c1 - 16) with (len c1 + (-1) * 16) by lia; rewrite Z_mod_plus_full; exact Hal))).
    exact Hh. }
  set (e1 := Encryptor_written e c1) in *.
  rewrite Hoo.
  set (n := Z.min (len bufr) (len (fst r1))).
  assert (Hn : n = len (fst r1)) by (unfold n; lia).
  assert (Hsk : skipn (Z.to_nat n) (fst r1) = []).
  { apply skipn_all2. unfold len in Hn. lia. }
  assert (Hfi : firstn (Z.to_nat n) (fst r1) = fst r1).
  { apply firstn_all2. unfold len in Hn. lia. }
  rewrite Hsk, Hfi.
  assert (HT : firstn 16 (skipn (Z.to_nat (len c1 - 16)) (fst (copy bufr (fst r1))))
               = skipn h c1).
  { rewrite skipn_copy by (rewrite <- Hlr; unfold len; lia).
    unfold bufr. rewrite firstn_skipn_app by (unfold len in *; lia).
    apply firstn_all2. rewrite length_skipn. unfold len in *. lia. }
  assert (Hne : c1 <> []) by (intros ->; cbn in Hpos; lia).
  pose proof (cbc_encrypt_written (cbc_block (AESCBCEncryptor.cbc e))
                (cbc_iv (AESCBCEncryptor.cbc e)) c1 [] Hne) as Hsplit.
  cbn zeta in Hsplit. rewrite Hret in Hsplit. fold h in Hsplit. fold r1 in Hsplit.
  cbn [app] in Hsplit. rewrite !app_nil_r in Hsplit. fold ct in Hsplit.
  assert (Hlk : len (skipn h c1) = 16).
  { unfold h. rewrite len_skipn by lia. lia. }
  rewrite Encryptor_Copy_loop_EOF_inbuf.
  - cbn [AESCBCEncryptor.outputoverflow Encryptor_with_output
         AESCBCEncryptor.update AESCBCEncryptor.cbc app].
    rewrite Hcbc. cbn [cbc_block cbc_iv].
    rewrite HT, Hsplit.
    rewrite <- Z.add_assoc, <- len_app, <- !app_assoc. reflexivity.
  - reflexivity.
  - lia.
  - rewrite len_copy, Hl1. lia.
  - cbn. lia.
  - cbn [AESCBCEncryptor.outputoverflow Encryptor_with_output
         AESCBCEncryptor.update AESCBCEncryptor.cbc app].
    rewrite Hcbc. cbn [cbc_block cbc_iv].
    rewrite HT. rewrite Hsplit, length_app in Hdf. lia.
Qed.

Lemma Encryptor_Copy_one_aligned_read_witness :
  Encryptor_Copy script_Read buffer_Write 2 33
    (Encryptor_with_CopyBufferSize toy_encryptor 16) [(zeros 16, None)] [] =
  Returns (16 + 32, None,
           toy_iv ++
           fst (cbc_encrypt (toy_NewCipher toy_key) toy_iv
                  (zeros 16 ++ padding 16))).
Proof.
  apply (Encryptor_Copy_one_aligned_read
           (Encryptor_with_CopyBufferSize toy_encryptor 16) (zeros 16) 2 33 []).
  - exact toy_key_ok.
  - reflexivity.
  - reflexivity.
  - reflexivity.
  - reflexivity.
  - reflexivity.
  - reflexivity.
  - vm_compute. discriminate.
  - lia.
  - vm_compute. lia.
Defined.

(** X22. [Copy] loses a block of plaintext when the first read of the source
    is a whole number of blocks and the second read is at least as long and
    does not fit behind it in the copy buffer, as with two reads that fill
    the buffer.  [Write] keeps the last block of the first read as a slice
    of the copy buffer; the second read overwrites it.  What is encrypted,
    in place of the last block of the first read, is the block at the same
    offset of the second read. *)
Theorem Encryptor_Copy_full_buffers
  (e : AESCBCEncryptor.t) (c1 c2 : list byte) (rest : list (list byte))
  (fuel drain_fuel : nat) (w : list byte) :
  AESCBCEncryptor.isClosed e = false ->
  AESCBCEncryptor.inputoverflow e = [] ->
  AESCBCEncryptor.outputoverflow e = [] ->
  0 < len c1 -> len c1 mod 16 = 0 ->
  len c1 <= len c2 ->
  AESCBCEncryptor.CopyBufferSize e < len c1 + len c2 ->
  Forall (fun x => len x <= AESCBCEncryptor.CopyBufferSize e) (c1 :: c2 :: rest) ->
  (length (c1 :: c2 :: rest) < fuel)%nat ->
  let h := Z.to_nat (len c1 - 16) in
  let P' := firstn h c1 ++ firstn 16 (skipn h c2) ++ c2 ++ concat rest in
  let ct := fst (cbc_encrypt (cbc_block (AESCBCEncryptor.cbc e))
                   (cbc_iv (AESCBCEncryptor.cbc e)) (P' ++ padding (len P'))) in
  (length ct < drain_fuel)%nat ->
  Encryptor_Copy script_Read buffer_Write fuel drain_fuel e
    (map (fun x => (x, None)) (c1 :: c2 :: rest)) w =
  Returns (len (AESCBCEncryptor.IV e) + len ct, None,
           w ++ AESCBCEncryptor.IV e ++ ct).
Proof.
  intros Hc Hio Ho Hpos Hal Hle Hover Hall Hf h P' ct Hdf.
  pose proof (aligned_pos _ Hpos Hal) as H16.
  pose proof (Forall_inv Hall) as Hd1. cbn beta in Hd1.
  pose proof (Forall_inv (Forall_inv_tail Hall)) as Hd2. cbn beta in Hd2.
  pose proof (Forall_inv_tail (Forall_inv_tail Hall)) as Hrest.
  unfold Encryptor_Copy.
  replace (AESCBCEncryptor.CopyBufferSize e <? 0) with false
    by (symmetry; apply Z.ltb_ge; lia).
  cbn [buffer_Write]. rewrite Hio.
  destruct fuel as [|[|fuel]]; [cbn in Hf; lia | cbn in Hf; lia |].
  set (buf := repeat Byte.x00 (Z.to_nat (AESCBCEncryptor.CopyBufferSize e))).
  assert (Hbuf : len buf = AESCBCEncryptor.CopyBufferSize e)
    by (apply len_inputBuf; lia).
  rewrite Encryptor_Copy_loop_first_aligned by (try assumption; lia).
  destruct (script_Read_fits c1 None [] buf) as (_ & Hl1 & _); [lia|].
  set (bufr := c1 ++ skipn (length c1) buf) in *.
  destruct (Encryptor_written_aligned e c1 Hpos Hal Ho) as (Hoo & Hcbc & Hret).
  fold h in Hoo, Hcbc.
  set (r1 := cbc_encrypt _ _ (firstn h c1)) in *.
  set (e1 := Encryptor_written e c1) in *.
  rewrite Hoo.
  set (n := Z.min (len bufr) (len (fst r1))).
  set (buf2 := fst (copy bufr (fst r1))).
  assert (Hl2 : len buf2 = len buf) by (unfold buf2; rewrite len_copy; exact Hl1).
  destruct (script_Read_fits c2 None [] buf2) as (_ & Hl3 & Hf3); [lia|].
  set (X := firstn 16 (skipn h c2)).
  assert (HX : len X = 16).
  { unfold X, len. rewrite length_firstn, length_skipn. unfold h, len in *. lia. }
  set (T := X ++ c2).
  assert (Hne : T <> []).
  { unfold T. destruct X; [cbn in HX; lia | discriminate]. }
  assert (Hh : len (firstn h c1) mod 16 = 0).
  { unfold h. rewrite len_firstn by lia.
    replace (len c1 - 16) with (len c1 + (-1) * 16) by lia.
    rewrite Z_mod_plus_full. exact Hal. }
  assert (Hct :
    ct = fst r1 ++
         fst (cbc_encrypt (cbc_block (AESCBCEncryptor.cbc e)) (snd r1)
                (T ++ concat rest ++ padding (len (T ++ concat rest))))).
  { unfold ct, P'. fold X.
    assert (Hpad : padding (len (firstn h c1 ++ X ++ c2 ++ concat rest)) =
                   padding (len (T ++ concat rest))).
    { apply padding_mod. unfold T. rewrite len_app, <- app_assoc.
      apply mod16_add. exact Hh. }
    rewrite Hpad, <- !app_assoc.
    rewrite (cbc_encrypt_app _ _ (firstn h c1)) by exact Hh.
    fold r1. destruct r1 as [x1 ch1]. cbn [fst snd].
    unfold T. rewrite <- !app_assoc.
    destruct (cbc_encrypt _ ch1 _) as [x2 ch2]. reflexivity. }
  rewrite (Encryptor_Copy_loop_to_own c2 rest fuel drain_fuel
             (Encryptor_with_output e1 (skipn (Z.to_nat n) (fst r1)))
             (InBuf (len c1 - 16) 16) (Own T) buf2
             (c2 ++ skipn (length c2) buf2)
             ((w ++ AESCBCEncryptor.IV e) ++ firstn (Z.to_nat n) (fst r1)) T).
  - cbn [AESCBCEncryptor.outputoverflow Encryptor_with_output
         AESCBCEncryptor.update AESCBCEncryptor.cbc].
    rewrite Hcbc. cbn [cbc_block cbc_iv].
    rewrite <- Z.add_assoc, <- len_app, <- !app_assoc.
    rewrite (app_assoc (firstn _ (fst r1))), firstn_skipn.
    rewrite Hct. reflexivity.
  - reflexivity.
  - lia.
  - cbn [ref_len Z.gtb Z.compare ref_append contents Z.to_nat skipn].
    rewrite Hf3.
    replace (len c1 - 16 + 16 + len c2 <=? len (c2 ++ skipn (length c2) buf2))
      with false by (symmetry; apply Z.leb_gt; lia).
    cbn [contents]. unfold T, X, h.
    rewrite firstn_skipn_app by (unfold len in *; lia). reflexivity.
  - exact I.
  - exact Hl3.
  - reflexivity.
  - exact Hne.
  - reflexivity.
  - rewrite Hl2, Hbuf. exact Hrest.
  - lia.
  - cbn [length] in Hf. lia.
  - cbn [AESCBCEncryptor.outputoverflow Encryptor_with_output
         AESCBCEncryptor.update AESCBCEncryptor.cbc].
    rewrite Hcbc. cbn [cbc_block cbc_iv].
    rewrite Hct in Hdf. rewrite !length_app in *. rewrite length_skipn. lia.
Qed.

Lemma Encryptor_Copy_full_buffers_witness :
  Encryptor_Copy script_Read buffer_Write 3 49
    (Encryptor_with_CopyBufferSize toy_encryptor 16)
    [(repeat Byte.x61 16, None); (repeat Byte.x62 16, None)] [] =
  Returns (16 + 48, None,
           toy_iv ++
           fst (cbc_encrypt (toy_NewCipher toy_key) toy_iv
                  ((repeat Byte.x62 16 ++ repeat Byte.x62 16) ++ padding 32))).
Proof.
  apply (Encryptor_Copy_full_buffers
           (Encryptor_with_CopyBufferSize toy_encryptor 16)
           (repeat Byte.x61 16) (repeat Byte.x62 16) [] 3 49 []).
  - reflexivity.
  - reflexivity.
  - reflexivity.
  - reflexivity.
  - reflexivity.
  - vm_compute. discriminate.
  - reflexivity.
  - repeat constructor; vm_compute; discriminate.
  - cbn. lia.
  - vm_compute. lia.
Defined.

(** ** The decryptor's methods on located slices *)

(** The first [Write(inputBuf[:n])] of [Copy], on an open decryptor whose
    input overflow is empty. *)
Lemma Decryptor_Write_shared_first
  (e : AESCBCDecryptor.t) (buf : list byte) (n : Z) :
  AESCBCDecryptor.isClosed e = false ->
  0 <= n <= len buf ->
  let T := firstn (Z.to_nat n) buf in
  exists io',
    Decryptor_Write_shared e (Own []) (InBuf 0 n) buf =
      Returns (n - n mod 16, None, Decryptor_written e T, io', buf) /\
    (n mod 16 = 0 -> io' = Own []).
Proof.
  intros Hc Hn T.
  assert (HlT : len T = n) by (apply len_firstn; lia).
  pose proof (Z.mod_pos_bound n 16 ltac:(lia)) as Hb.
  pose proof (Z.div_mod n 16 ltac:(lia)) as Hd.
  pose proof (Z.mod_le n 16 ltac:(lia) ltac:(lia)) as Hle.
  assert (Hok : ref_ok (InBuf 0 n) buf) by (cbn; lia).
  assert (HcT : contents (InBuf 0 n) buf = T) by reflexivity.
  destruct (ref_slice_contents (InBuf 0 n) buf (n - n mod 16) n Hok)
    as (st & Hst & Hokt & Hct & _); [lia | lia | cbn; lia |].
  destruct (ref_slice_contents (InBuf 0 n) buf 0 (n - n mod 16) Hok)
    as (sp & Hsp & Hokp & Hcp & _); [lia | lia | cbn; lia |].
  rewrite HcT in Hct, Hcp. rewrite Z.sub_0_r, skipn_0 in Hcp.
  assert (Hct' : contents st buf = skipn (Z.to_nat (n - n mod 16)) T).
  { rewrite Hct. apply firstn_all2. rewrite length_skipn. unfold len in *. lia. }
  assert (Hhead : len (firstn (Z.to_nat (n - n mod 16)) T) mod 16 = 0).
  { rewrite len_firstn by lia.
    replace (n - n mod 16) with (16 * (n / 16)) by lia. apply mod16_mul. }
  assert (Hlsp : ref_len sp = n - n mod 16).
  { rewrite <- (ref_len_contents sp buf Hokp), Hcp. apply len_firstn. lia. }
  unfold Decryptor_Write_shared. rewrite Hc.
  change (ref_len (Own []) >? 0) with false. cbn iota.
  cbn [ref_len].
  unfold go_rem, go_div, BlockSize. cbn [Z.eqb bind].
  rewrite rem_16, quot_16 by lia.
  unfold CBCDecrypter_CryptBlocks, Decryptor_written, cbc_decrypt.
  rewrite HlT.
  destruct (n mod 16 =? 0) eqn:E; cbn [negb].
  - apply Z.eqb_eq in E. exists (Own []). split; [|reflexivity].
    cbn [bind]. rewrite HcT.
    assert (Hh : Z.to_nat (n - n mod 16) = length T)
      by (unfold len in *; lia).
    rewrite Hh in *. rewrite firstn_all in *. rewrite skipn_all.
    rewrite CryptBlocks_whole by exact Hhead. cbn [bind contents].
    rewrite E, Z.sub_0_r. reflexivity.
  - apply Z.eqb_neq in E. exists st. split; [|lia].
    replace (n - (n - n / 16 * 16)) with (n - n mod 16) by lia.
    replace (n / 16 * 16) with (n - n mod 16) by lia.
    rewrite Hst, Hsp. cbn [bind]. rewrite Hcp.
    rewrite CryptBlocks_whole by exact Hhead. cbn [bind].
    rewrite Hlsp, Hct'. reflexivity.
Qed.

(** [Read] on an open decryptor into a buffer that has room for everything
    but the retained 16 bytes. *)
Lemma Decryptor_Read_open_fits (d : AESCBCDecryptor.t) (buf : list byte) :
  AESCBCDecryptor.isClosed d = false ->
  16 <= len (AESCBCDecryptor.outputoverflow d) ->
  len (AESCBCDecryptor.outputoverflow d) - 16 <= len buf ->
  let oo := AESCBCDecryptor.outputoverflow d in
  let h := Z.to_nat (len oo - 16) in
  AESCBCDecryptor.Read d buf =
  Returns (firstn h oo ++ skipn h buf, len oo - 16, None,
           AESCBCDecryptor.update d (AESCBCDecryptor.inputoverflow d)
             (skipn h oo) (AESCBCDecryptor.cbc d) false).
Proof.
  intros Hc Hl Hfit oo h. fold oo in Hl, Hfit.
  unfold AESCBCDecryptor.Read. fold oo. rewrite Hc.
  rewrite andb_false_r.
  replace (len buf >=? len oo - 16) with true
    by (symmetry; apply Z.geb_le; lia).
  rewrite slice_prefix by lia. cbn [bind].
  unfold copy. rewrite len_firstn by lia.
  rewrite Z.min_r by lia.
  rewrite slice_suffix by lia. cbn [bind].
  fold h. rewrite firstn_firstn, Nat.min_id. reflexivity.
Qed.

(** The drain loop into a sink that keeps everything: the whole output
    overflow of the closed decryptor arrives. *)
Lemma Decryptor_Copy_drain_buffer (fuel : nat) :
  forall (d : AESCBCDecryptor.t) (buf w : list byte) (read : Z),
  AESCBCDecryptor.isClosed d = true ->
  0 < len buf ->
  (length (AESCBCDecryptor.outputoverflow d) < fuel)%nat ->
  Decryptor_Copy_drain buffer_Write fuel d buf w read =
  Returns (read + len (AESCBCDecryptor.outputoverflow d), None,
           w ++ AESCBCDecryptor.outputoverflow d).
Proof.
  induction fuel as [|fuel IH]; intros d buf w read Hc Hb Hf; [lia|].
  cbn [Decryptor_Copy_drain].
  destruct (AESCBCDecryptor.outputoverflow d) as [|x oo] eqn:Ho.
  - unfold AESCBCDecryptor.Read. rewrite Hc, Ho. cbn.
    rewrite app_nil_r, Z.add_0_r. reflexivity.
  - assert (Hne : AESCBCDecryptor.outputoverflow d <> []) by now rewrite Ho.
    rewrite Decryptor_Read_closed_some by assumption. cbn [bind].
    rewrite Ho.
    set (n := Z.min (len buf) (len (x :: oo))).
    assert (Hn : 1 <= n <= len (x :: oo)).
    { assert (0 < len (x :: oo)) by (apply len_pos_nonempty; discriminate).
      unfold n. lia. }
    replace (n =? 0) with false by (symmetry; apply Z.eqb_neq; lia).
    destruct (copy_prefix buf (x :: oo)) as [_ Hs]. fold n in Hs.
    rewrite Hs. cbn [bind buffer_Write].
    set (d1 := AESCBCDecryptor.update d _ _ _ _).
    rewrite (IH d1); [| reflexivity | now rewrite len_copy |].
    + unfold d1. cbn [AESCBCDecryptor.outputoverflow AESCBCDecryptor.update].
      rewrite <- app_assoc, firstn_skipn.
      rewrite <- Z.add_assoc.
      replace (n + len (skipn (Z.to_nat n) (x :: oo))) with (len (x :: oo)).
      * reflexivity.
      * rewrite len_skipn by lia. lia.
    + unfold d1. cbn [AESCBCDecryptor.outputoverflow AESCBCDecryptor.update].
      rewrite length_skipn. unfold len in Hn. cbn [length] in *. lia.
Qed.

Lemma decrypt_blocks_length (blk : Block) (n : nat) :
  Block_ok blk ->
  forall chain src : list byte,
  length chain = 16%nat -> length src = (16 * n)%nat ->
  length (fst (decrypt_blocks n blk chain src)) = (16 * n)%nat.
Proof.
  intros Hok. induction n as [|n IH]; intros chain src Hc Hs; [reflexivity|].
  cbn [decrypt_blocks].
  assert (Hf : length (firstn 16 src) = 16%nat) by (rewrite length_firstn; lia).
  specialize (IH (firstn 16 src) (skipn 16 src) Hf
                 ltac:(rewrite length_skipn; lia)).
  destruct (decrypt_blocks n blk (firstn 16 src) (skipn 16 src)) as [rest ch].
  cbn [fst] in *. rewrite length_app, length_xorBytes, IH.
  rewrite (Decrypt_length blk Hok _ Hf). lia.
Qed.

Lemma cbc_decrypt_length (blk : Block) (chain src : list byte) :
  Block_ok blk -> length chain = 16%nat -> len src mod 16 = 0 ->
  len (fst (cbc_decrypt blk chain src)) = len src.
Proof.
  intros Hok Hc Hs. unfold cbc_decrypt.
  pose proof (nblocks_whole src Hs) as Hn.
  unfold len. rewrite (decrypt_blocks_length blk _ Hok chain src Hc Hn). lia.
Qed.

(** ** AESCBCDecryptor.Copy *)

(** X23. [Copy] on a fresh decryptor panics when the read of the source that
    follows the IV delivers fewer than 16 bytes, with a nil error or with
    [io.EOF], as it does for a stream that holds the IV alone: [Write]
    decrypts nothing, and [Read] on the open decryptor slices the empty
    output overflow at [len - 16]. *)
Theorem Decryptor_Copy_short_first_read {R W : Type}
  (src_Read : reader R) (dst_Write : writer W) (fuel drain_fuel : nat)
  (e : AESCBCDecryptor.t) (r r1 r2 : R) (w : W) (iv' buf' : list byte)
  (n0 n : Z) (err0 err : option error) :
  0 <= AESCBCDecryptor.CopyBufferSize e ->
  AESCBCDecryptor.isClosed e = false ->
  AESCBCDecryptor.inputoverflow e = [] ->
  AESCBCDecryptor.outputoverflow e = [] ->
  src_Read r (AESCBCDecryptor.iv e) = (iv', n0, err0, r1) ->
  src_Read r1 (repeat Byte.x00 (Z.to_nat (AESCBCDecryptor.CopyBufferSize e)))
    = (buf', n, err, r2) ->
  0 <= n < 16 -> n <= len buf' ->
  err = None \/ err = Some io_EOF ->
  (0 < fuel)%nat ->
  Decryptor_Copy src_Read dst_Write fuel drain_fuel e r w = Panics.
Proof.
  intros Hcbs Hc Hio Ho Hsrc0 Hsrc1 Hn Hnb Herr Hf.
  unfold Decryptor_Copy.
  replace (AESCBCDecryptor.CopyBufferSize e <? 0) with false
    by (symmetry; apply Z.ltb_ge; lia).
  rewrite Hsrc0.
  destruct fuel as [|fuel]; [lia|].
  cbn [Decryptor_Copy_loop AESCBCDecryptor.inputoverflow].
  rewrite Hsrc1, Hio.
  set (e' := {| AESCBCDecryptor.iv := iv' |}).
  assert (Hc' : AESCBCDecryptor.isClosed e' = false) by exact Hc.
  destruct (Decryptor_Write_shared_first e' buf' n Hc' ltac:(lia))
    as (io' & Hw & _).
  assert (Hbody :
    (p <- ref_slice (InBuf 0 (len buf')) 0 n ;;
     '(_, _, e0, _, buf0) <- Decryptor_Write_shared e' (Own []) p buf' ;;
     AESCBCDecryptor.Read e0 buf0) = Panics).
  { rewrite ref_slice_buf by lia. cbn [bind]. rewrite Hw. cbn [bind].
    apply Decryptor_Read_open_short.
    - reflexivity.
    - unfold Decryptor_written.
      cbn [AESCBCDecryptor.outputoverflow AESCBCDecryptor.update e'].
      rewrite Ho, len_firstn by lia.
      rewrite Z.mod_small, Z.sub_diag by lia. cbn. lia. }
  rewrite ref_slice_buf in Hbody |- * by lia. cbn [bind] in Hbody |- *.
  rewrite Hw in Hbody |- *. cbn [bind] in Hbody |- *.
  rewrite Hbody.
  destruct Herr as [-> | ->]; reflexivity.
Qed.

Lemma Decryptor_Copy_short_first_read_witness :
  Decryptor_Copy script_Read buffer_Write 1 0
    (Decryptor_with_CopyBufferSize toy_decryptor 64) [(toy_iv, None)] [] = Panics.
Proof.
  apply (Decryptor_Copy_short_first_read script_Read buffer_Write 1 0
           (Decryptor_with_CopyBufferSize toy_decryptor 64)
           [(toy_iv, None)] [] [] [] toy_iv (zeros 64) 16 0 None (Some io_EOF)).
  - cbn. lia.
  - reflexivity.
  - reflexivity.
  - reflexivity.
  - reflexivity.
  - reflexivity.
  - lia.
  - cbn. lia.
  - right. reflexivity.
  - lia.
Defined.

(** [Copy] on a source that delivers the IV, then the ciphertext [C] (whole
    blocks, within the copy buffer) in one read, then [0, io.EOF]: what has
    reached the sink when [Close] is called, and the decryptor [Close] is
    called on. *)
Lemma Decryptor_Copy_one_read
  (e : AESCBCDecryptor.t) (ivs C : list byte)
  (fuel drain_fuel : nat) (w : list byte) :
  Block_ok (cbc_block (AESCBCDecryptor.cbc e)) ->
  length (cbc_iv (AESCBCDecryptor.cbc e)) = 16%nat ->
  AESCBCDecryptor.isClosed e = false ->
  AESCBCDecryptor.inputoverflow e = [] ->
  AESCBCDecryptor.outputoverflow e = [] ->
  len ivs <= len (AESCBCDecryptor.iv e) ->
  16 <= len C -> len C mod 16 = 0 ->
  len C <= AESCBCDecryptor.CopyBufferSize e ->
  (1 < fuel)%nat ->
  let S := fst (cbc_decrypt (cbc_block (AESCBCDecryptor.cbc e))
                  (cbc_iv (AESCBCDecryptor.cbc e)) C) in
  let h := Z.to_nat (len C - 16) in
  exists d2 buf2,
    Decryptor_Copy script_Read buffer_Write fuel drain_fuel e
      [(ivs, None); (C, None)] w =
    ('(_, d3) <- AESCBCDecryptor.Close d2 ;;
     Decryptor_Copy_drain buffer_Write drain_fuel d3 buf2
       (w ++ firstn h S ++ skipn h C)
       (len (AESCBCDecryptor.iv e) + len C)) /\
    AESCBCDecryptor.isClosed d2 = false /\
    AESCBCDecryptor.outputoverflow d2 = skipn h S /\
    len (skipn h S) = 16 /\
    0 < len buf2.
Proof.
  intros Hblk Hchain Hc Hio Ho Hiv H16 Hal Hfit Hf S h.
  assert (HlS : len S = len C) by (apply cbc_decrypt_length; assumption).
  assert (Hlsk : len (skipn h S) = 16).
  { unfold h. rewrite len_skipn by lia. lia. }
  unfold Decryptor_Copy.
  replace (AESCBCDecryptor.CopyBufferSize e <? 0) with false
    by (symmetry; apply Z.ltb_ge; lia).
  destruct (script_Read_fits ivs None [(C, None)] (AESCBCDecryptor.iv e) Hiv)
    as (Hr0 & _ & _).
  rewrite Hr0. clear Hr0.
  set (e' := {| AESCBCDecryptor.iv := ivs ++ _ |}).
  assert (Hc' : AESCBCDecryptor.isClosed e' = false) by exact Hc.
  cbn [AESCBCDecryptor.inputoverflow e']. rewrite Hio.
  destruct fuel as [|[|fuel]]; [lia | lia |].
  set (buf := repeat Byte.x00 (Z.to_nat (AESCBCDecryptor.CopyBufferSize e))).
  assert (Hbuf : len buf = AESCBCDecryptor.CopyBufferSize e)
    by (apply len_inputBuf; lia).
  (* the read of the ciphertext *)
  cbn [Decryptor_Copy_loop].
  destruct (script_Read_fits C None [] buf) as (Hr1 & Hl1 & Hf1); [lia|].
  rewrite Hr1. clear Hr1.
  set (bufr := C ++ skipn (length C) buf) in *.
  rewrite ref_slice_buf by lia. cbn [bind].
  destruct (Decryptor_Write_shared_first e' bufr (len C) Hc' ltac:(lia))
    as (io1 & Hw & Hio1).
  rewrite Hw, Hf1, (Hio1 Hal). cbn [bind]. clear Hw Hio1.
  rewrite Decryptor_written_whole by exact Hal. cbn zeta.
  cbn [AESCBCDecryptor.outputoverflow AESCBCDecryptor.cbc e']. rewrite Ho.
  cbn [app]. fold S.
  set (d1 := AESCBCDecryptor.update e' [] S _ false).
  rewrite (Decryptor_Read_open_fits d1 bufr);
    [| reflexivity | cbn; lia | cbn; lia].
  cbn [bind AESCBCDecryptor.outputoverflow AESCBCDecryptor.update d1
       AESCBCDecryptor.inputoverflow AESCBCDecryptor.cbc].
  rewrite HlS. fold h.
  set (buf1 := firstn h S ++ skipn h bufr).
  assert (Hlf : length (firstn h S) = h).
  { rewrite length_firstn. unfold h, len in *. lia. }
  assert (Hlb1 : len buf1 = len buf).
  { unfold buf1. rewrite len_app. unfold len at 1. rewrite Hlf.
    unfold len in *. rewrite length_skipn. unfold h. lia. }
  assert (Hq : firstn (Z.to_nat (len C)) buf1 = firstn h S ++ skipn h C).
  { unfold buf1. rewrite firstn_app, Hlf.
    rewrite firstn_all2 by lia. f_equal.
    replace (Z.to_nat (len C) - h)%nat with 16%nat by (unfold h; lia).
    unfold bufr. rewrite firstn_skipn_app by (unfold h, len in *; lia).
    apply firstn_all2. rewrite length_skipn. unfold h, len in *. lia. }
  rewrite slice_prefix by lia. cbn [bind buffer_Write]. rewrite Hq.
  (* [0, io.EOF] from the source *)
  cbn [Decryptor_Copy_loop script_Read is_EOF].
  rewrite ref_slice_buf by lia. cbn [bind].
  set (d1' := AESCBCDecryptor.update d1 [] (skipn h S) _ false).
  destruct (Decryptor_Write_shared_first d1' buf1 0 eq_refl ltac:(lia))
    as (io2 & Hw & _).
  rewrite Hw. cbn [bind]. clear Hw.
  cbn [Z.to_nat firstn].
  destruct (Decryptor_Read_open_tail (Decryptor_written d1' []) buf1)
    as (d2 & Hrd & Hod & Hcd);
    [reflexivity
    | unfold Decryptor_written; cbn [AESCBCDecryptor.outputoverflow
        AESCBCDecryptor.update d1' len app length Z.to_nat Z.sub firstn fst
        cbc_decrypt nblocks decrypt_blocks];
      rewrite app_nil_r; exact Hlsk |].
  rewrite Hrd. cbn [bind]. clear Hrd.
  rewrite slice_prefix by lia. cbn [bind Z.to_nat firstn].
  exists d2, buf1. split; [|split; [exact Hcd | split; [|split; [exact Hlsk | lia]]]].
  - rewrite app_nil_r. change (len (@nil byte)) with 0. rewrite Z.add_0_r.
    replace (len (firstn h S ++ skipn h C)) with (len C).
    + reflexivity.
    + rewrite <- Hq. rewrite len_firstn by lia. reflexivity.
  - rewrite Hod. unfold Decryptor_written. cbn. apply app_nil_r.
Qed.

(** X24. [Copy] does not give the plaintext back.  For a source that
    delivers an IV, then in one read the ciphertext [C] of [P] (CBC under
    the decryptor's key and chaining value, PKCS7 padding), then
    [0, io.EOF], the sink receives the whole blocks of [P] but the last,
    then the last 16 bytes of the ciphertext, then the rest of [P]: the
    count of [e.Read] is dropped and [inputBuf[:n]] is written with the [n]
    of the source's read, so the 16 bytes that [Read] held back are taken
    from what the copy buffer still holds.  The count is 16 more than
    [len(e.iv) + len(C)] less the padding. *)
Theorem Decryptor_Copy_splices_ciphertext
  (e : AESCBCDecryptor.t) (ivs P : list byte)
  (fuel drain_fuel : nat) (w : list byte) :
  Block_ok (cbc_block (AESCBCDecryptor.cbc e)) ->
  length (cbc_iv (AESCBCDecryptor.cbc e)) = 16%nat ->
  AESCBCDecryptor.isClosed e = false ->
  AESCBCDecryptor.inputoverflow e = [] ->
  AESCBCDecryptor.outputoverflow e = [] ->
  len ivs <= len (AESCBCDecryptor.iv e) ->
  let C := fst (cbc_encrypt (cbc_block (AESCBCDecryptor.cbc e))
                  (cbc_iv (AESCBCDecryptor.cbc e)) (P ++ padding (len P))) in
  len C <= AESCBCDecryptor.CopyBufferSize e ->
  (1 < fuel)%nat -> (16 < drain_fuel)%nat ->
  let h := Z.to_nat (len P - len P mod 16) in
  Decryptor_Copy script_Read buffer_Write fuel drain_fuel e
    [(ivs, None); (C, None)] w =
  Returns (len (AESCBCDecryptor.iv e) + len C + len (skipn h P), None,
           w ++ firstn h P ++ skipn h C ++ skipn h P).
Proof.
  intros Hblk Hchain Hc Hio Ho Hiv C Hfit Hf Hdf h.
  pose proof (len_nonneg P) as HP.
  pose proof (Z.mod_pos_bound (len P) 16 ltac:(lia)) as Hb.
  pose proof (Z.mod_le (len P) 16 ltac:(lia) ltac:(lia)) as Hle.
  destruct (cbc_decrypt_encrypt _ _ (P ++ padding (len P))
              Hblk Hchain (padded_whole P)) as (HlC & Hdec).
  fold C in HlC, Hdec.
  rewrite len_app, len_padding in HlC.
  assert (Hh : Z.to_nat (len C - 16) = h) by (unfold h; lia).
  assert (Hal : len C mod 16 = 0).
  { rewrite HlC, <- len_padding, <- len_app. apply padded_whole. }
  destruct (Decryptor_Copy_one_read e ivs C fuel drain_fuel w
              Hblk Hchain Hc Hio Ho Hiv ltac:(lia) Hal Hfit Hf)
    as (d2 & buf2 & Hcopy & Hc2 & Ho2 & Hl2 & Hb2).
  rewrite Hcopy. clear Hcopy.
  rewrite Hdec, Hh in *. cbn [fst] in *.
  assert (Hlh : (h <= length P)%nat) by (unfold h, len in *; lia).
  assert (Hfirst : firstn h (P ++ padding (len P)) = firstn h P).
  { rewrite firstn_app.
    replace (h - length P)%nat with 0%nat by lia.
    now rewrite firstn_0, app_nil_r. }
  assert (Hskip : skipn h (P ++ padding (len P)) = skipn h P ++ padding (len P)).
  { rewrite skipn_app.
    replace (h - length P)%nat with 0%nat by lia. reflexivity. }
  rewrite Hfirst. rewrite Hskip in Ho2, Hl2.
  assert (Hun : Pkcs7Unpad (skipn h P ++ padding (len P)) =
                Returns (skipn h P, None)).
  { unfold padding. apply Pkcs7Unpad_padded. lia. }
  unfold AESCBCDecryptor.Close. rewrite Ho2.
  replace (len (skipn h P ++ padding (len P)) <? 16) with false
    by (symmetry; apply Z.ltb_ge; lia).
  rewrite Hun. cbn [bind].
  rewrite Decryptor_Copy_drain_buffer.
  - cbn [AESCBCDecryptor.outputoverflow AESCBCDecryptor.update].
    rewrite <- !app_assoc. reflexivity.
  - reflexivity.
  - exact Hb2.
  - cbn [AESCBCDecryptor.outputoverflow AESCBCDecryptor.update].
    rewrite len_app, len_padding in Hl2. unfold len in *. lia.
Qed.

Lemma Decryptor_Copy_splices_ciphertext_witness :
  Decryptor_Copy script_Read buffer_Write 2 17
    (Decryptor_with_CopyBufferSize toy_decryptor 64)
    [(toy_iv, None);
     (fst (cbc_encrypt (toy_NewCipher toy_key) toy_iv (hello ++ padding 5)), None)]
    [] =
  Returns (16 + 16 + 5, None,
           fst (cbc_encrypt (toy_NewCipher toy_key) toy_iv (hello ++ padding 5))
           ++ hello).
Proof.
  apply (Decryptor_Copy_splices_ciphertext
           (Decryptor_with_CopyBufferSize toy_decryptor 64) toy_iv hello 2 17 []).
  - exact toy_key_ok.
  - reflexivity.
  - reflexivity.
  - reflexivity.
  - reflexivity.
  - vm_compute. discriminate.
  - vm_compute. discriminate.
  - lia.
  - lia.
Defined.

(** X25. [Copy] drops the error of [Close]: for a source that delivers an
    IV, then in one read a ciphertext of whole blocks whose last block does
    not decrypt to valid padding, then [0, io.EOF], [Copy] returns a nil
    error, after the sink has received the decrypted blocks but the last
    followed by the last 16 bytes of the ciphertext. *)
Theorem Decryptor_Copy_invalid_padding
  (e : AESCBCDecryptor.t) (ivs C : list byte)
  (fuel drain_fuel : nat) (w : list byte) :
  Block_ok (cbc_block (AESCBCDecryptor.cbc e)) ->
  length (cbc_iv (AESCBCDecryptor.cbc e)) = 16%nat ->
  AESCBCDecryptor.isClosed e = false ->
  AESCBCDecryptor.inputoverflow e = [] ->
  AESCBCDecryptor.outputoverflow e = [] ->
  len ivs <= len (AESCBCDecryptor.iv e) ->
  16 <= len C -> len C mod 16 = 0 ->
  len C <= AESCBCDecryptor.CopyBufferSize e ->
  (1 < fuel)%nat -> (0 < drain_fuel)%nat ->
  let S := fst (cbc_decrypt (cbc_block (AESCBCDecryptor.cbc e))
                  (cbc_iv (AESCBCDecryptor.cbc e)) C) in
  let h := Z.to_nat (len C - 16) in
  Pkcs7Unpad (skipn h S) = Returns ([], Some ErrInvalidPadding) ->
  Decryptor_Copy script_Read buffer_Write fuel drain_fuel e
    [(ivs, None); (C, None)] w =
  Returns (len (AESCBCDecryptor.iv e) + len C, None,
           w ++ firstn h S ++ skipn h C).
Proof.
  intros Hblk Hchain Hc Hio Ho Hiv H16 Hal Hfit Hf Hdf S h Hun.
  destruct (Decryptor_Copy_one_read e ivs C fuel drain_fuel w
              Hblk Hchain Hc Hio Ho Hiv H16 Hal Hfit Hf)
    as (d2 & buf2 & Hcopy & Hc2 & Ho2 & Hl2 & Hb2).
  fold S h in Hcopy, Ho2, Hl2.
  rewrite Hcopy. clear Hcopy.
  unfold AESCBCDecryptor.Close. rewrite Ho2.
  replace (len (skipn h S) <? 16) with false
    by (symmetry; apply Z.ltb_ge; lia).
  rewrite Hun. cbn [bind].
  destruct drain_fuel as [|drain_fuel]; [lia|].
  cbn [Decryptor_Copy_drain].
  destruct (Decryptor_Read_open_tail d2 buf2 Hc2) as (d' & Hrd & _ & _).
  - rewrite Ho2. exact Hl2.
  - rewrite Hrd. reflexivity.
Qed.

Lemma Decryptor_Copy_invalid_padding_witness :
  Decryptor_Copy script_Read buffer_Write 2 1
    (Decryptor_with_CopyBufferSize toy_decryptor 64)
    [(toy_iv, None); (repeat Byte.x61 32, None)] [] =
  Returns (16 + 32, None,
           firstn 16 (fst (cbc_decrypt (toy_NewCipher toy_key) toy_iv
                             (repeat Byte.x61 32)))
           ++ repeat Byte.x61 16).
Proof.
  apply (Decryptor_Copy_invalid_padding
           (Decryptor_with_CopyBufferSize toy_decryptor 64) toy_iv
           (repeat Byte.x61 32) 2 1 []).
  - exact toy_key_ok.
  - reflexivity.
  - reflexivity.
  - reflexivity.
  - reflexivity.
  - vm_compute. discriminate.
  - vm_compute. discriminate.
  - reflexivity.
  - vm_compute. discriminate.
  - lia.
  - lia.
  - vm_compute. reflexivity.
Defined.

(** * Callers' buffers *)

(** ** The encryptor *)

Lemma copy_fits (buf p : list byte) :
  len p <= len buf ->
  copy buf p = (p ++ skipn (length p) buf, len p).
Proof.
  intros H. unfold copy. pose proof (len_nonneg p).
  rewrite Z.min_r by lia. unfold len. rewrite Nat2Z.id, firstn_all. reflexivity.
Qed.

Lemma arg_fits_len (buf buf' : list byte) (a : chunk_arg) :
  len buf' = len buf -> arg_fits buf a -> arg_fits buf' a.
Proof. intros H. destruct a; cbn [arg_fits]; [auto | lia]. Qed.

Lemma call_fits_len (buf buf' : list byte) (calls : list mem_call) :
  len buf' = len buf ->
  Forall (call_fits buf) calls -> Forall (call_fits buf') calls.
Proof.
  intros H. apply Forall_impl. intros [a|r]; cbn [call_fits]; [|auto].
  now apply arg_fits_len.
Qed.

(** [Write] on a stream whose input overflow is not empty returns, and the
    input overflow is not empty afterwards. *)
Lemma Encryptor_Write_nonempty (e : AESCBCEncryptor.t) (p : list byte) :
  AESCBCEncryptor.inputoverflow e <> [] ->
  exists n err e',
    AESCBCEncryptor.Write e p = Returns (n, err, e') /\
    AESCBCEncryptor.inputoverflow e' <> [].
Proof.
  intros Hio. destruct (AESCBCEncryptor.isClosed e) eqn:Hc.
  - exists 0, (Some ErrWriterClosed), e. split; [|exact Hio].
    now apply Encryptor_Write_closed.
  - assert (Hne : AESCBCEncryptor.inputoverflow e ++ p <> []).
    { destruct (AESCBCEncryptor.inputoverflow e); [easy | discriminate]. }
    do 3 eexists. split; [apply Encryptor_Write_open; assumption|].
    destruct (Encryptor_written_open e _ Hne) as (_ & Hl & _).
    intros E. rewrite E in Hl. cbn in Hl. lia.
Qed.

(** [Read] leaves the input overflow and [isClosed] alone. *)
Lemma Encryptor_Read_keeps (e e' : AESCBCEncryptor.t) (rbuf rbuf' : list byte)
  (n : Z) (err : option error) :
  AESCBCEncryptor.Read e rbuf = Returns (rbuf', n, err, e') ->
  AESCBCEncryptor.inputoverflow e' = AESCBCEncryptor.inputoverflow e /\
  AESCBCEncryptor.isClosed e' = AESCBCEncryptor.isClosed e.
Proof.
  unfold AESCBCEncryptor.Read. intros H.
  destruct (AESCBCEncryptor.isClosed e && _).
  - injection H as _ _ _ <-. auto.
  - destruct (len rbuf >=? _); destruct (copy rbuf _) as [p' k];
      destruct (slice _ _ _) as [oo| |]; cbn [bind] in H; try discriminate;
      injection H as _ _ _ <-; auto.
Qed.

(** With a non-empty input overflow in memory of its own, [Write] of a
    located slice is [Write] of its bytes, and the new input overflow is in
    memory of its own again. *)
Lemma Encryptor_Write_shared_nonempty
  (e : AESCBCEncryptor.t) (q : slice_ref) (buf : list byte) :
  AESCBCEncryptor.inputoverflow e <> [] ->
  Encryptor_Write_shared e (Own (AESCBCEncryptor.inputoverflow e)) q buf =
  ('(n, err, e') <- AESCBCEncryptor.Write e (contents q buf) ;;
   Returns (n, err, e', Own (AESCBCEncryptor.inputoverflow e'), buf)).
Proof.
  intros Hio. destruct (AESCBCEncryptor.isClosed e) eqn:Hc.
  - rewrite Encryptor_Write_closed by exact Hc.
    unfold Encryptor_Write_shared. rewrite Hc. reflexivity.
  - set (T := AESCBCEncryptor.inputoverflow e ++ contents q buf).
    assert (Hne : T <> []).
    { unfold T. destruct (AESCBCEncryptor.inputoverflow e); [easy | discriminate]. }
    rewrite Encryptor_Write_open by assumption. cbn [bind]. fold T.
    destruct (Encryptor_Write_shared_open e (Own (AESCBCEncryptor.inputoverflow e))
                q (Own T) buf buf T Hc) as (H & _ & _);
      [| exact I | reflexivity | exact Hne | exact H].
    cbn [ref_len ref_append].
    replace (len (AESCBCEncryptor.inputoverflow e) >? 0) with true; [reflexivity|].
    symmetry. apply Z.gtb_lt. apply len_pos_nonempty. exact Hio.
Qed.

Lemma Encryptor_Write_arg_own
  (e : AESCBCEncryptor.t) (a : chunk_arg) (buf : list byte) :
  AESCBCEncryptor.inputoverflow e <> [] ->
  arg_fits buf a ->
  exists buf',
    len buf' = len buf /\
    Encryptor_Write_arg e (Own (AESCBCEncryptor.inputoverflow e)) a buf =
    ('(n, err, e') <- AESCBCEncryptor.Write e (arg_bytes a) ;;
     Returns (n, err, e', Own (AESCBCEncryptor.inputoverflow e'), buf')).
Proof.
  intros Hio Hfit. destruct a as [p | p]; cbn [Encryptor_Write_arg arg_bytes].
  - exists buf. split; [reflexivity|]. apply Encryptor_Write_shared_refines.
  - cbn [arg_fits] in Hfit. rewrite copy_fits by exact Hfit.
    destruct (script_Read_fits p None [] buf Hfit) as (_ & Hl & Hf).
    pose proof (len_nonneg p).
    exists (p ++ skipn (length p) buf). split; [exact Hl|].
    rewrite ref_slice_buf by lia. cbn [bind].
    rewrite Encryptor_Write_shared_nonempty by exact Hio.
    cbn [contents Z.to_nat skipn]. rewrite Hf. reflexivity.
Qed.

(** Once the input overflow is not empty and in memory of its own, a session
    with the caller's buffers is the session on bytes. *)
Lemma Encryptor_collect_mem_own (calls : list mem_call) :
  forall (e : AESCBCEncryptor.t) (buf : list byte),
  AESCBCEncryptor.inputoverflow e <> [] ->
  Forall (call_fits buf) calls ->
  exists buf',
    len buf' = len buf /\
    Encryptor_collect_mem e (Own (AESCBCEncryptor.inputoverflow e)) calls buf =
    ('(got, e') <- Encryptor_collect e (map call_of calls) ;;
     Returns (got, e', Own (AESCBCEncryptor.inputoverflow e'), buf')).
Proof.
  induction calls as [|c rest IH]; intros e buf Hio Hall.
  - exists buf. split; reflexivity.
  - pose proof (Forall_inv Hall) as Hc. pose proof (Forall_inv_tail Hall) as Hrest.
    destruct c as [a | rbuf];
      cbn [Encryptor_collect_mem map call_of Encryptor_collect].
    + cbn [call_fits] in Hc.
      destruct (Encryptor_Write_arg_own e a buf Hio Hc) as (buf1 & Hl1 & Hw).
      rewrite Hw. clear Hw.
      destruct (Encryptor_Write_nonempty e (arg_bytes a) Hio)
        as (n & err & e1 & Hv & Hio1).
      rewrite Hv. cbn [bind].
      destruct (IH e1 buf1 Hio1 (call_fits_len _ _ _ Hl1 Hrest))
        as (buf' & Hl' & Hcol).
      exists buf'. split; [lia | exact Hcol].
    + destruct (AESCBCEncryptor.Read e rbuf) as [[[[rbuf' n] err] e1]| |] eqn:Hr;
        cbn [bind]; [| exists buf; split; reflexivity ..].
      destruct (Encryptor_Read_keeps _ _ _ _ _ _ Hr) as [Hio1 _].
      destruct (slice rbuf' 0 n) as [got| |]; cbn [bind];
        [| exists buf; split; reflexivity ..].
      assert (Hio1' : AESCBCEncryptor.inputoverflow e1 <> []) by now rewrite Hio1.
      destruct (IH e1 buf Hio1' Hrest) as (buf' & Hl' & Hcol).
      exists buf'. split; [exact Hl'|].
      rewrite <- Hio1, Hcol.
      destruct (Encryptor_collect e1 (map call_of rest)) as [[more e2]| |];
        reflexivity.
Qed.

(** A session with the caller's buffers on a stream whose input overflow is
    still empty: it is the session on bytes when its first [Write] is safe. *)
Lemma Encryptor_collect_mem_fresh (calls : list mem_call) :
  forall (e : AESCBCEncryptor.t) (buf : list byte),
  AESCBCEncryptor.isClosed e = false ->
  AESCBCEncryptor.inputoverflow e = [] ->
  first_write_safe calls ->
  Forall (call_fits buf) calls ->
  exists buf',
    len buf' = len buf /\
    Encryptor_collect_mem e (Own (AESCBCEncryptor.inputoverflow e)) calls buf =
    ('(got, e') <- Encryptor_collect e (map call_of calls) ;;
     Returns (got, e', Own (AESCBCEncryptor.inputoverflow e'), buf')).
Proof.
  induction calls as [|c rest IH]; intros e buf Hcl Hio Hsafe Hall.
  - exists buf. split; reflexivity.
  - pose proof (Forall_inv Hall) as Hc. pose proof (Forall_inv_tail Hall) as Hrest.
    destruct c as [a | rbuf];
      cbn [Encryptor_collect_mem map call_of Encryptor_collect].
    + (* the first [Write] *)
      assert (Hne : AESCBCEncryptor.inputoverflow e ++ arg_bytes a <> []).
      { rewrite Hio. cbn [app]. destruct a as [p | p];
          cbn [first_write_safe arg_bytes] in *; [exact Hsafe|].
        intros ->. apply Hsafe. reflexivity. }
      rewrite (Encryptor_Write_open e (arg_bytes a) Hcl Hne). cbn zeta. cbn [bind].
      set (T := AESCBCEncryptor.inputoverflow e ++ arg_bytes a) in *.
      set (e1 := Encryptor_written e T).
      destruct (Encryptor_written_open e T Hne) as (_ & Hl1 & _). fold e1 in Hl1.
      assert (Hio1 : AESCBCEncryptor.inputoverflow e1 <> []).
      { intros E. rewrite E in Hl1. cbn in Hl1. lia. }
      assert (Hstep : exists buf1,
                len buf1 = len buf /\
                Encryptor_Write_arg e (Own (AESCBCEncryptor.inputoverflow e)) a buf =
                Returns (len T - retained (len T), None, e1,
                         Own (AESCBCEncryptor.inputoverflow e1), buf1)).
      { destruct a as [p | p]; cbn [Encryptor_Write_arg arg_bytes] in *.
        - exists buf. split; [reflexivity|].
          rewrite Encryptor_Write_shared_refines.
          rewrite (Encryptor_Write_open e p Hcl Hne). reflexivity.
        - cbn [call_fits arg_fits] in Hc. cbn [first_write_safe] in Hsafe.
          rewrite copy_fits by exact Hc.
          destruct (script_Read_fits p None [] buf Hc) as (_ & Hl & Hf).
          pose proof (len_nonneg p).
          exists (p ++ skipn (length p) buf). split; [exact Hl|].
          rewrite ref_slice_buf by lia. cbn [bind].
          assert (HT : T = p) by (unfold T; now rewrite Hio).
          destruct (Encryptor_Write_shared_open e
                      (Own (AESCBCEncryptor.inputoverflow e)) (InBuf 0 (len p))
                      (InBuf 0 (len p)) (p ++ skipn (length p) buf)
                      (p ++ skipn (length p) buf) T Hcl) as (Hw & _ & _).
          + rewrite Hio. reflexivity.
          + cbn [ref_ok]. lia.
          + rewrite HT. cbn [contents Z.to_nat skipn]. exact Hf.
          + exact Hne.
          + rewrite Hw. unfold Encryptor_kept.
            replace (len T mod 16 =? 0) with false
              by (symmetry; apply Z.eqb_neq; rewrite HT; exact Hsafe).
            reflexivity. }
      destruct Hstep as (buf1 & Hlb1 & Hw). rewrite Hw. cbn [bind].
      destruct (Encryptor_collect_mem_own rest e1 buf1 Hio1
                  (call_fits_len _ _ _ Hlb1 Hrest)) as (buf' & Hl' & Hcol).
      exists buf'. split; [lia | exact Hcol].
    + cbn [first_write_safe] in Hsafe.
      destruct (AESCBCEncryptor.Read e rbuf) as [[[[rbuf' n] err] e1]| |] eqn:Hr;
        cbn [bind]; [| exists buf; split; reflexivity ..].
      destruct (Encryptor_Read_keeps _ _ _ _ _ _ Hr) as [Hio1 Hcl1].
      destruct (slice rbuf' 0 n) as [got| |]; cbn [bind];
        [| exists buf; split; reflexivity ..].
      destruct (IH e1 buf) as (buf' & Hl' & Hcol);
        [congruence | congruence | exact Hsafe | exact Hrest |].
      exists buf'. split; [exact Hl'|].
      rewrite <- Hio1, Hcol.
      destruct (Encryptor_collect e1 (map call_of rest)) as [[more e2]| |];
        reflexivity.
Qed.

Lemma no_Close_call_of (calls : list mem_call) :
  no_Close (map call_of calls) = true.
Proof. induction calls as [|[a|r] rest IH]; cbn; auto. Qed.

Lemma first_write_safe_nonempty (calls : list mem_call) :
  first_write_safe calls ->
  match written_chunks (map call_of calls) with
  | [] => True
  | c :: _ => c <> []
  end.
Proof.
  induction calls as [|[[p|p]|r] rest IH];
    cbn [first_write_safe map call_of written_chunks arg_bytes]; auto.
  intros H ->. apply H. reflexivity.
Qed.

Lemma call_fits_MemWrite (buf : list byte) (args : list chunk_arg) :
  Forall (arg_fits buf) args -> Forall (call_fits buf) (map MemWrite args).
Proof. intros H. apply Forall_map. exact H. Qed.

Lemma written_chunks_MemWrite (args : list chunk_arg) :
  written_chunks (map call_of (map MemWrite args)) = map arg_bytes args.
Proof. induction args as [|a rest IH]; cbn; [reflexivity | now f_equal]. Qed.

Lemma NewAESCBCEncryptor_fresh (aes_NewCipher : list byte -> Block)
  (key iv0 : list byte) (e0 : AESCBCEncryptor.t) :
  NewAESCBCEncryptor aes_NewCipher key iv0 = Returns e0 ->
  AESCBCEncryptor.isClosed e0 = false /\
  AESCBCEncryptor.inputoverflow e0 = [] /\
  AESCBCEncryptor.outputoverflow e0 = [].
Proof.
  unfold NewAESCBCEncryptor. intros H.
  destruct (NewCBC _ _) as [m| |]; cbn [bind] in H; try discriminate.
  injection H as <-. auto.
Qed.

(** A whole session with the caller's buffers is the session on bytes when
    its first [Write] is safe. *)
Lemma encrypt_session_mem_refines (aes_NewCipher : list byte -> Block)
  (key iv0 : list byte) (calls : list mem_call) (buf rbuf : list byte) :
  first_write_safe calls ->
  Forall (call_fits buf) calls ->
  encrypt_session_mem aes_NewCipher key iv0 calls buf rbuf =
  encrypt_session aes_NewCipher key iv0 (map call_of calls) rbuf.
Proof.
  intros Hsafe Hall. unfold encrypt_session_mem, encrypt_session.
  destruct (NewAESCBCEncryptor aes_NewCipher key iv0) as [e0| |] eqn:HN;
    cbn [bind]; try reflexivity.
  destruct (NewAESCBCEncryptor_fresh _ _ _ _ HN) as (Hcl & Hio & _).
  destruct (Encryptor_collect_mem_fresh calls e0 buf Hcl Hio Hsafe Hall)
    as (buf' & _ & Hcol).
  rewrite Hcol.
  destruct (Encryptor_collect e0 (map call_of calls)) as [[got e1]| |];
    cbn [bind]; try reflexivity.
  destruct (Encryptor_Close_shared_refines e1 buf') as (buf'' & Hclose).
  rewrite Hclose.
  destruct (AESCBCEncryptor.Close e1) as [e2| |]; reflexivity.
Qed.

(** X12. [Read] calls may be interleaved with the [Write] calls anywhere, and
    chunks may go through a buffer that the caller refills, as long as the
    first [Write] passes a buffer of its own with at least one byte, or
    passes through the refilled buffer a chunk that is not a whole number of
    blocks: in such a session on a fresh encryptor that ends with [Close]
    and the drain loop, the bytes the client has read, in order, are the CBC
    encryption from the IV of the written chunks followed by their PKCS7
    padding. *)
Theorem encrypt_session_mem_ciphertext
  (aes_NewCipher : list byte -> Block) (key iv0 : list byte)
  (calls : list mem_call) (buf rbuf : list byte) :
  len iv0 = 16 -> 0 < len rbuf ->
  first_write_safe calls ->
  Forall (call_fits buf) calls ->
  let P := concat (written_chunks (map call_of calls)) in
  encrypt_session_mem aes_NewCipher key iv0 calls buf rbuf =
  Returns (fst (cbc_encrypt (aes_NewCipher key) iv0 (P ++ padding (len P)))).
Proof.
  intros Hiv Hb Hsafe Hall P.
  rewrite encrypt_session_mem_refines by assumption.
  apply encrypt_session_ciphertext; try assumption.
  - apply no_Close_call_of.
  - now apply first_write_safe_nonempty.
Qed.

Lemma encrypt_session_mem_ciphertext_witness :
  encrypt_session_mem toy_NewCipher toy_key toy_iv
    [MemRead (zeros 4); MemWrite (Reuse hello); MemRead (zeros 7);
     MemWrite (Reuse (zeros 16)); MemWrite (Fresh []); MemWrite (Reuse hello);
     MemRead (zeros 32)] (zeros 16) (zeros 5) =
  Returns (fst (cbc_encrypt (toy_NewCipher toy_key) toy_iv
                  ((hello ++ zeros 16 ++ hello) ++ padding 26))).
Proof.
  apply (encrypt_session_mem_ciphertext toy_NewCipher toy_key toy_iv
           [MemRead (zeros 4); MemWrite (Reuse hello); MemRead (zeros 7);
            MemWrite (Reuse (zeros 16)); MemWrite (Fresh []);
            MemWrite (Reuse hello); MemRead (zeros 32)] (zeros 16) (zeros 5)).
  - reflexivity.
  - reflexivity.
  - vm_compute. discriminate.
  - repeat constructor; vm_compute; discriminate.
Defined.

(** X10. The ciphertext of a whole stream whose chunks are written from the
    caller's buffers (no chunk at all, or a first chunk that is not empty in
    a buffer of its own, or a first chunk that is not a whole number of
    blocks in the refilled buffer): whatever the chunking after the first
    chunk, it is the CBC encryption from the IV of the plaintext followed by
    its PKCS7 padding, and its length is the next multiple of 16 strictly
    above the plaintext length. *)
Theorem encrypt_args_length
  (aes_NewCipher : list byte -> Block) (key iv0 : list byte)
  (args : list chunk_arg) (buf rbuf : list byte) :
  Block_ok (aes_NewCipher key) ->
  len iv0 = 16 -> 0 < len rbuf ->
  first_write_safe (map MemWrite args) ->
  Forall (arg_fits buf) args ->
  let P := concat (map arg_bytes args) in
  exists ciphertext,
    encrypt_args aes_NewCipher key iv0 args buf rbuf = Returns ciphertext /\
    ciphertext = fst (cbc_encrypt (aes_NewCipher key) iv0 (P ++ padding (len P))) /\
    len ciphertext = 16 * (len P / 16 + 1).
Proof.
  intros Hok Hiv Hb Hsafe Hall P.
  unfold encrypt_args.
  rewrite encrypt_session_mem_refines
    by (try assumption; now apply call_fits_MemWrite).
  rewrite encrypt_session_ciphertext; try assumption.
  - rewrite written_chunks_MemWrite. fold P.
    eexists. split; [reflexivity|]. split; [reflexivity|].
    assert (Hiv' : length iv0 = 16%nat) by (unfold len in Hiv; lia).
    destruct (cbc_encrypt_length _ iv0 (P ++ padding (len P)) Hok Hiv'
                (padded_whole P)) as [Hl _].
    rewrite Hl, len_app, len_padding.
    pose proof (Z.div_mod (len P) 16 ltac:(lia)). lia.
  - apply no_Close_call_of.
  - now apply first_write_safe_nonempty.
Qed.

Lemma encrypt_args_length_witness :
  exists ciphertext,
    encrypt_args toy_NewCipher toy_key toy_iv
      [Reuse hello; Fresh []; Reuse (zeros 16); Reuse (zeros 16)]
      (zeros 16) (zeros 4) = Returns ciphertext /\
    len ciphertext = 48.
Proof.
  destruct (encrypt_args_length toy_NewCipher toy_key toy_iv
              [Reuse hello; Fresh []; Reuse (zeros 16); Reuse (zeros 16)]
              (zeros 16) (zeros 4) toy_key_ok)
    as (c & H & _ & Hl); try reflexivity.
  - vm_compute. discriminate.
  - repeat constructor; vm_compute; discriminate.
  - exists c. split; [exact H | exact Hl].
Defined.

Lemma Encryptor_collect_writes (chunks : list (list byte)) :
  forall e : AESCBCEncryptor.t,
  Encryptor_collect e (map CallWrite chunks) =
  (e' <- AESCBCEncryptor.WriteChunks e chunks ;; Returns ([], e')).
Proof.
  induction chunks as [|c rest IH]; intros e;
    cbn [map Encryptor_collect AESCBCEncryptor.WriteChunks]; [reflexivity|].
  destruct (AESCBCEncryptor.Write e c) as [[[n err] e1]| |]; cbn [bind];
    [apply IH | reflexivity ..].
Qed.

Lemma call_of_MemWrite (args : list chunk_arg) :
  map call_of (map MemWrite args) = map CallWrite (map arg_bytes args).
Proof. induction args as [|a rest IH]; cbn; [reflexivity | now f_equal]. Qed.

(** X11. While the encryptor is open, everything but the retained 1 to 16
    bytes of plaintext has already been encrypted: after chunks from the
    caller's buffers (the first one not empty in a buffer of its own, or not
    a whole number of blocks in the refilled buffer) have been written to a
    fresh encryptor, its output overflow holds [len P - retained] bytes, and
    they are a prefix of the ciphertext that [Close] completes with 16 or 32
    further bytes. *)
Theorem Encryptor_args_output_before_Close
  (aes_NewCipher : list byte -> Block) (key iv0 : list byte)
  (a : chunk_arg) (rest : list chunk_arg) (e0 : AESCBCEncryptor.t)
  (buf : list byte) :
  Block_ok (aes_NewCipher key) ->
  NewAESCBCEncryptor aes_NewCipher key iv0 = Returns e0 ->
  first_write_safe (map MemWrite (a :: rest)) ->
  Forall (arg_fits buf) (a :: rest) ->
  let P := concat (map arg_bytes (a :: rest)) in
  exists e io buf' e2 buf'' last,
    Encryptor_collect_mem e0 (Own (AESCBCEncryptor.inputoverflow e0))
      (map MemWrite (a :: rest)) buf = Returns ([], e, io, buf') /\
    len (AESCBCEncryptor.outputoverflow e) = len P - retained (len P) /\
    Encryptor_Close_shared e io buf' = Returns (e2, buf'') /\
    AESCBCEncryptor.outputoverflow e2 = AESCBCEncryptor.outputoverflow e ++ last /\
    len last = 16 * (retained (len P) / 16 + 1) /\
    AESCBCEncryptor.outputoverflow e2 =
      fst (cbc_encrypt (aes_NewCipher key) iv0 (P ++ padding (len P))).
Proof.
  intros Hok HN Hsafe Hall P.
  destruct (NewAESCBCEncryptor_fresh _ _ _ _ HN) as (Hcl & Hio & _).
  destruct (Encryptor_collect_mem_fresh (map MemWrite (a :: rest)) e0 buf
              Hcl Hio Hsafe (call_fits_MemWrite _ _ Hall))
    as (buf' & _ & Hcol).
  rewrite Hcol, call_of_MemWrite, Encryptor_collect_writes.
  assert (Hne : arg_bytes a <> []).
  { pose proof (first_write_safe_nonempty _ Hsafe) as H.
    rewrite written_chunks_MemWrite in H. exact H. }
  destruct (Encryptor_output_before_Close aes_NewCipher key iv0 (arg_bytes a)
              (map arg_bytes rest) e0 Hok HN Hne)
    as (e & e2 & last & Hw & Hlen & Hclose & Hout & Hlast & Hct).
  cbn [map]. rewrite Hw. cbn [bind].
  destruct (Encryptor_Close_shared_refines e buf') as (buf'' & Hcs).
  rewrite Hclose in Hcs. cbn [bind] in Hcs.
  exists e, (Own (AESCBCEncryptor.inputoverflow e)), buf', e2, buf'', last.
  repeat split; assumption.
Qed.

Lemma Encryptor_args_output_before_Close_witness :
  exists e io buf' e2 buf'' last,
    Encryptor_collect_mem toy_encryptor (Own [])
      [MemWrite (Reuse (hello ++ zeros 16)); MemWrite (Reuse hello)] (zeros 32)
      = Returns ([], e, io, buf') /\
    len (AESCBCEncryptor.outputoverflow e) = 16 /\
    Encryptor_Close_shared e io buf' = Returns (e2, buf'') /\
    AESCBCEncryptor.outputoverflow e2 = AESCBCEncryptor.outputoverflow e ++ last /\
    len last = 16.
Proof.
  destruct (Encryptor_args_output_before_Close toy_NewCipher toy_key toy_iv
              (Reuse (hello ++ zeros 16)) [Reuse hello] toy_encryptor (zeros 32)
              toy_key_ok eq_refl)
    as (e & io & buf' & e2 & buf'' & last & H1 & H2 & H3 & H4 & H5 & _).
  - vm_compute. discriminate.
  - repeat constructor; vm_compute; discriminate.
  - exists e, io, buf', e2, buf'', last. repeat split; assumption.
Defined.

(** ** The decryptor *)

(** Chunks in buffers of their own: the calls on located slices are the
    calls on bytes. *)
Lemma Decryptor_WriteArgs_Fresh (chunks : list (list byte)) :
  forall (d : AESCBCDecryptor.t) (buf : list byte),
  Decryptor_WriteArgs d (Own (AESCBCDecryptor.inputoverflow d))
    (map Fresh chunks) buf =
  (d' <- AESCBCDecryptor.WriteChunks d chunks ;;
   Returns (d', Own (AESCBCDecryptor.inputoverflow d'), buf)).
Proof.
  induction chunks as [|c rest IH]; intros d buf;
    cbn [map Decryptor_WriteArgs AESCBCDecryptor.WriteChunks Decryptor_Write_arg];
    [reflexivity|].
  rewrite Decryptor_Write_shared_refines.
  destruct (AESCBCDecryptor.Write d c) as [[[n err] d1]| |]; cbn [bind];
    [apply IH | reflexivity ..].
Qed.

Lemma decrypt_args_Fresh (aes_NewCipher : list byte -> Block)
  (key iv0 : list byte) (chunks : list (list byte)) (buf rbuf : list byte) :
  decrypt_args aes_NewCipher key iv0 (map Fresh chunks) buf rbuf =
  decrypt_chunks aes_NewCipher key iv0 chunks rbuf.
Proof.
  unfold decrypt_args, decrypt_chunks.
  destruct (NewAESCBCDecryptor aes_NewCipher key iv0) as [[[d|] err]| |];
    cbn [bind]; try reflexivity.
  rewrite Decryptor_WriteArgs_Fresh.
  destruct (AESCBCDecryptor.WriteChunks d chunks) as [d1| |]; reflexivity.
Qed.

(** X13. Decryption does not depend on how the ciphertext is cut into
    [Write] calls when every chunk is passed in a buffer of its own that the
    caller does not write again: for every list of such chunks, empty ones
    included, writing them one by one to a fresh decryptor, closing and
    draining gives the same plaintext or the same error as a single [Write]
    of their concatenation. *)
Theorem decrypt_args_concat
  (aes_NewCipher : list byte -> Block) (key iv0 : list byte)
  (chunks : list (list byte)) (buf rbuf : list byte) :
  decrypt_args aes_NewCipher key iv0 (map Fresh chunks) buf rbuf =
  decrypt_all aes_NewCipher key iv0 (concat chunks) rbuf.
Proof.
  rewrite decrypt_args_Fresh. apply decrypt_chunks_concat.
Qed.

(** X14. Round trip with both sides chunked: a plaintext written to a fresh
    encryptor in chunks from the caller's buffers (none at all, or the first
    one not empty in a buffer of its own, or not a whole number of blocks in
    the refilled buffer), closed and drained, and the ciphertext written to
    a fresh decryptor with the same key and IV in any chunks, each in a
    buffer of its own, closed and drained, gives the plaintext back with no
    error. *)
Theorem round_trip_args
  (aes_NewCipher : list byte -> Block) (key iv0 : list byte)
  (argsE : list chunk_arg) (chunksD : list (list byte))
  (ciphertext bufE rbufE bufD rbufD : list byte) :
  Block_ok (aes_NewCipher key) ->
  len key = 32 -> len iv0 = 16 -> 0 < len rbufE -> 0 < len rbufD ->
  first_write_safe (map MemWrite argsE) ->
  Forall (arg_fits bufE) argsE ->
  encrypt_args aes_NewCipher key iv0 argsE bufE rbufE = Returns ciphertext ->
  concat chunksD = ciphertext ->
  decrypt_args aes_NewCipher key iv0 (map Fresh chunksD) bufD rbufD =
  Returns (concat (map arg_bytes argsE), None).
Proof.
  intros Hok Hkey Hiv HbE HbD Hsafe Hall Henc Hcat.
  unfold encrypt_args in Henc.
  rewrite encrypt_session_mem_refines in Henc
    by (try assumption; now apply call_fits_MemWrite).
  rewrite encrypt_session_ciphertext in Henc; try assumption;
    [| apply no_Close_call_of | now apply first_write_safe_nonempty].
  rewrite written_chunks_MemWrite in Henc.
  apply (f_equal (value_or [])) in Henc. cbn [value_or] in Henc.
  rewrite decrypt_args_Fresh, decrypt_chunks_concat, Hcat, <- Henc.
  now apply decrypt_all_padded.
Qed.

Lemma round_trip_args_witness :
  let c := value_or [] (encrypt_args toy_NewCipher toy_key toy_iv
                          [Reuse hello; Reuse (zeros 16); Reuse hello]
                          (zeros 16) (zeros 4)) in
  decrypt_args toy_NewCipher toy_key toy_iv
    (map Fresh [firstn 3 c; []; skipn 3 c]) (zeros 16) (zeros 5) =
  Returns (hello ++ zeros 16 ++ hello, None).
Proof.
  intros c.
  apply (round_trip_args toy_NewCipher toy_key toy_iv
           [Reuse hello; Reuse (zeros 16); Reuse hello]
           [firstn 3 c; []; skipn 3 c] c
           (zeros 16) (zeros 4) (zeros 16) (zeros 5) toy_key_ok);
    try reflexivity.
  - vm_compute. discriminate.
  - repeat constructor; vm_compute; discriminate.
Defined.

(** ** One buffer for every chunk *)

(** What [Write] does to a stream does not depend on the bytes of the input
    overflow that the stream's record had before. *)
Lemma Encryptor_written_aligned_head
  (e : AESCBCEncryptor.t) (c1 X T : list byte) :
  0 < len c1 -> len c1 mod 16 = 0 -> len X = 16 ->
  let h := Z.to_nat (len c1 - 16) in
  Encryptor_written (Encryptor_written e c1) T =
  Encryptor_written (Encryptor_written e (firstn h c1 ++ X)) T /\
  AESCBCEncryptor.inputoverflow (Encryptor_written e (firstn h c1 ++ X)) = X.
Proof.
  intros Hpos Hal HX h.
  pose proof (aligned_pos _ Hpos Hal) as H16.
  assert (Hlf : length (firstn h c1) = h).
  { rewrite length_firstn. unfold h, len in *. lia. }
  assert (Hl : len (firstn h c1 ++ X) = len c1).
  { rewrite len_app, HX. unfold len at 1. rewrite Hlf. unfold h. lia. }
  assert (Hr : retained (len c1) = 16) by (unfold retained; now rewrite Hal).
  assert (Hf : firstn h (firstn h c1 ++ X) = firstn h c1).
  { rewrite firstn_app, Hlf, Nat.sub_diag, firstn_0, app_nil_r.
    rewrite firstn_firstn. f_equal. lia. }
  assert (Hs : skipn h (firstn h c1 ++ X) = X).
  { rewrite skipn_app, Hlf, Nat.sub_diag, skipn_0.
    rewrite skipn_all2 by lia. reflexivity. }
  unfold Encryptor_written.
  cbn [AESCBCEncryptor.inputoverflow AESCBCEncryptor.outputoverflow
       AESCBCEncryptor.cbc AESCBCEncryptor.update cbc_block cbc_iv
       AESCBCEncryptor.IV AESCBCEncryptor.AESKey AESCBCEncryptor.CopyBufferSize
       AESCBCEncryptor.cipher].
  rewrite Hl, Hr. fold h. rewrite Hf, Hs. split; reflexivity.
Qed.

(** X26. Chunks written through one buffer can lose a block of plaintext,
    as in [Copy]: when the first chunk is a whole number of blocks and the
    second is at least as long and does not fit behind it in the buffer
    (two chunks that fill the buffer, say), [Write] keeps the last block of
    the first chunk as a slice of the caller's buffer, the caller's refill
    overwrites it, and what is encrypted in its place is the block at the
    same offset of the second chunk.  The ciphertext is that of the changed
    plaintext; no call reports an error. *)
Theorem encrypt_args_reused_buffer
  (aes_NewCipher : list byte -> Block) (key iv0 c1 c2 : list byte)
  (rest : list chunk_arg) (buf rbuf : list byte) :
  len iv0 = 16 -> 0 < len rbuf ->
  0 < len c1 -> len c1 mod 16 = 0 ->
  len c1 <= len c2 -> len c2 <= len buf ->
  len buf < len c1 + len c2 ->
  Forall (arg_fits buf) rest ->
  let h := Z.to_nat (len c1 - 16) in
  let P' := firstn h c1 ++ firstn 16 (skipn h c2) ++ c2 ++
            concat (map arg_bytes rest) in
  encrypt_args aes_NewCipher key iv0 (Reuse c1 :: Reuse c2 :: rest) buf rbuf =
  Returns (fst (cbc_encrypt (aes_NewCipher key) iv0 (P' ++ padding (len P')))).
Proof.
  intros Hiv Hb Hpos Hal Hle Hfit2 Hover Hrest h P'.
  pose proof (aligned_pos _ Hpos Hal) as H16.
  set (X := firstn 16 (skipn h c2)).
  assert (HX : len X = 16).
  { unfold X, len. rewrite length_firstn, length_skipn. unfold h, len in *. lia. }
  set (T1 := firstn h c1 ++ X).
  (* the session on bytes that does the same *)
  assert (Hsame :
    encrypt_args aes_NewCipher key iv0 (Reuse c1 :: Reuse c2 :: rest) buf rbuf =
    encrypt_session aes_NewCipher key iv0
      (CallWrite T1 :: CallWrite c2 :: map call_of (map MemWrite rest)) rbuf).
  { unfold encrypt_args, encrypt_session_mem, encrypt_session.
    destruct (NewAESCBCEncryptor aes_NewCipher key iv0) as [e0| |] eqn:HN;
      cbn [bind]; try reflexivity.
    destruct (NewAESCBCEncryptor_fresh _ _ _ _ HN) as (Hcl & Hio & _).
    destruct (Encryptor_written_aligned_head e0 c1 X (X ++ c2) Hpos Hal HX)
      as (Hhead & HioT1). fold h T1 in Hhead, HioT1.
    assert (HneT1 : T1 <> []).
    { unfold T1. intros E. apply (f_equal len) in E.
      rewrite len_app, HX in E. pose proof (len_nonneg (firstn h c1)).
      cbn in E. lia. }
    assert (Hne1 : c1 <> []) by (intros ->; cbn in Hpos; lia).
    assert (HneT : X ++ c2 <> []).
    { destruct X; [cbn in HX; lia | discriminate]. }
    (* on bytes *)
    cbn [Encryptor_collect].
    rewrite (Encryptor_Write_open e0 T1 Hcl) by (rewrite Hio; exact HneT1).
    cbn zeta. cbn [bind]. rewrite Hio. cbn [app].
    rewrite (Encryptor_Write_open (Encryptor_written e0 T1) c2)
      by (try reflexivity; rewrite HioT1; exact HneT).
    cbn zeta. cbn [bind]. rewrite HioT1, <- Hhead.
    (* through the buffer: the first chunk *)
    cbn [map Encryptor_collect_mem Encryptor_Write_arg].
    rewrite copy_fits by lia.
    destruct (script_Read_fits c1 None [] buf) as (_ & Hl1 & Hf1); [lia|].
    set (buf1 := c1 ++ skipn (length c1) buf) in *.
    rewrite ref_slice_buf by lia. cbn [bind].
    destruct (Encryptor_Write_shared_open e0 (Own []) (InBuf 0 (len c1))
                (InBuf 0 (len c1)) buf1 buf1 c1 Hcl) as (Hw & _ & _).
    - reflexivity.
    - cbn [ref_ok]. lia.
    - cbn [contents Z.to_nat skipn]. exact Hf1.
    - exact Hne1.
    - rewrite Hw. cbn [bind]. clear Hw.
      unfold Encryptor_kept.
      replace (len c1 mod 16 =? 0) with true
        by (symmetry; apply Z.eqb_eq; exact Hal).
      rewrite Z.add_0_l.
      (* the second chunk overwrites the block that was kept *)
      rewrite copy_fits by lia.
      destruct (script_Read_fits c2 None [] buf1) as (_ & Hl2 & Hf2); [lia|].
      set (buf2 := c2 ++ skipn (length c2) buf1) in *.
      pose proof (len_nonneg c2).
      rewrite ref_slice_buf by lia. cbn [bind].
      destruct (Encryptor_written_open e0 c1 Hne1) as (Hcl1 & _ & _).
      destruct (Encryptor_Write_shared_open (Encryptor_written e0 c1)
                  (InBuf (len c1 - 16) 16) (InBuf 0 (len c2))
                  (Own (X ++ c2)) buf2 buf2 (X ++ c2) Hcl1) as (Hw & _ & _).
      + cbn [ref_len Z.gtb Z.compare ref_append contents Z.to_nat skipn].
        rewrite Hf2.
        replace (len c1 - 16 + 16 + len c2 <=? len buf2)
          with false by (symmetry; apply Z.leb_gt; lia).
        cbn [contents]. unfold X, h, buf2.
        rewrite firstn_skipn_app by (unfold len in *; lia). reflexivity.
      + exact I.
      + reflexivity.
      + exact HneT.
      + rewrite Hw. cbn [bind]. clear Hw.
        cbn [Encryptor_kept].
        set (e2 := Encryptor_written (Encryptor_written e0 c1) (X ++ c2)).
        change (skipn (Z.to_nat (len (X ++ c2) - retained (len (X ++ c2)))) (X ++ c2))
          with (AESCBCEncryptor.inputoverflow e2).
        destruct (Encryptor_written_open (Encryptor_written e0 c1) (X ++ c2) HneT)
          as (_ & Hl & _). fold e2 in Hl.
        assert (Hio2 : AESCBCEncryptor.inputoverflow e2 <> []).
        { intros E. rewrite E in Hl. cbn in Hl. lia. }
        destruct (Encryptor_collect_mem_own (map MemWrite rest) e2 buf2 Hio2)
          as (buf' & _ & Hcol).
        { apply call_fits_MemWrite. apply Forall_impl with (P := arg_fits buf);
            [|exact Hrest].
          intros a. apply arg_fits_len. lia. }
        rewrite Hcol.
        destruct (Encryptor_collect e2 (map call_of (map MemWrite rest)))
          as [[got e3]| |]; cbn [bind]; try reflexivity.
        destruct (Encryptor_Close_shared_refines e3 buf') as (buf'' & Hclose).
        rewrite Hclose.
        destruct (AESCBCEncryptor.Close e3) as [e4| |]; reflexivity. }
  rewrite Hsame, encrypt_session_ciphertext; try assumption.
  - cbn [written_chunks]. rewrite written_chunks_MemWrite.
    cbn [concat]. unfold T1, P'. fold X. rewrite <- !app_assoc. reflexivity.
  - cbn [no_Close]. apply no_Close_call_of.
  - cbn [written_chunks]. unfold T1. intros E. apply (f_equal len) in E.
    rewrite len_app, HX in E. pose proof (len_nonneg (firstn h c1)).
    cbn in E. lia.
Qed.

Lemma encrypt_args_reused_buffer_witness :
  encrypt_args toy_NewCipher toy_key toy_iv
    [Reuse (repeat Byte.x61 16); Reuse (repeat Byte.x62 16);
     Reuse (repeat Byte.x63 16)] (zeros 16) (zeros 4) =
  Returns (fst (cbc_encrypt (toy_NewCipher toy_key) toy_iv
                  ((repeat Byte.x62 16 ++ repeat Byte.x62 16 ++
                    repeat Byte.x63 16) ++ padding 48))).
Proof.
  apply (encrypt_args_reused_buffer toy_NewCipher toy_key toy_iv
           (repeat Byte.x61 16) (repeat Byte.x62 16)
           [Reuse (repeat Byte.x63 16)] (zeros 16) (zeros 4)).
  - reflexivity.
  - reflexivity.
  - reflexivity.
  - reflexivity.
  - vm_compute. discriminate.
  - vm_compute. discriminate.
  - reflexivity.
  - repeat constructor; vm_compute; discriminate.
Defined.

(** [Write] on an open decryptor, once the input overflow has been
    prepended: the combined buffer is the slice [p1] with bytes [T]. *)
Lemma Decryptor_Write_shared_open
  (d : AESCBCDecryptor.t) (io p p1 : slice_ref) (buf buf1 T : list byte) :
  AESCBCDecryptor.isClosed d = false ->
  (if ref_len io >? 0 then ref_append io (contents p buf) buf else (p, buf))
    = (p1, buf1) ->
  ref_ok p1 buf1 ->
  contents p1 buf1 = T ->
  Decryptor_Write_shared d io p buf =
  Returns (len T - len T mod 16, None, Decryptor_written d T,
           Decryptor_kept io p1 T, buf1).
Proof.
  intros Hc Happ Hok HT.
  pose proof (len_nonneg T) as Hpos.
  pose proof (ref_len_contents p1 buf1 Hok) as Hn. rewrite HT in Hn.
  pose proof (Z.mod_pos_bound (len T) 16 ltac:(lia)) as Hb.
  pose proof (Z.div_mod (len T) 16 ltac:(lia)) as Hd.
  pose proof (Z.mod_le (len T) 16 ltac:(lia) ltac:(lia)) as Hle.
  set (h := len T - len T mod 16) in *.
  destruct (ref_slice_contents p1 buf1 h (len T) Hok)
    as (st & Hst & Hokt & Hct & Hlt); [lia | lia | lia |].
  destruct (ref_slice_contents p1 buf1 0 h Hok)
    as (sp & Hsp & Hokp & Hcp & _); [lia | lia | lia |].
  rewrite HT in Hct, Hcp. rewrite Z.sub_0_r, skipn_0 in Hcp.
  assert (Hct' : contents st buf1 = skipn (Z.to_nat h) T).
  { rewrite Hct. apply firstn_all2. rewrite length_skipn. unfold len in *. lia. }
  assert (Hhead : len (firstn (Z.to_nat h) T) mod 16 = 0).
  { rewrite len_firstn by lia.
    replace h with (16 * (len T / 16)) by lia. apply mod16_mul. }
  assert (Hlsp : ref_len sp = h).
  { rewrite <- (ref_len_contents sp buf1 Hokp), Hcp. apply len_firstn. lia. }
  unfold Decryptor_Write_shared. rewrite Hc, Happ, <- Hn.
  unfold go_rem, go_div, BlockSize. cbn [Z.eqb bind].
  rewrite rem_16, quot_16 by lia.
  unfold CBCDecrypter_CryptBlocks, Decryptor_written, cbc_decrypt, Decryptor_kept.
  fold h.
  destruct (len T mod 16 =? 0) eqn:E; cbn [negb].
  - apply Z.eqb_eq in E.
    assert (Hh : Z.to_nat h = length T) by (unfold h, len in *; lia).
    rewrite Hh in *. rewrite firstn_all in *. rewrite skipn_all.
    cbn [bind]. rewrite HT.
    rewrite CryptBlocks_whole by exact Hhead. cbn [bind].
    assert (Hio : contents (if ref_len io >? 0 then Own [] else io) buf1 = []).
    { destruct (ref_len io >? 0) eqn:G; [reflexivity|].
      assert (ref_len io <= 0).
      { destruct (Z.gtb_spec (ref_len io) 0); [discriminate | lia]. }
      destruct io as [v | off n]; cbn [contents ref_len] in *.
      - apply len_zero_nil. pose proof (len_nonneg v). lia.
      - replace (Z.to_nat n) with 0%nat by lia. reflexivity. }
    rewrite Hio. unfold h. rewrite E, Z.sub_0_r, <- Hn. reflexivity.
  - replace (len T - (len T - len T / 16 * 16)) with h by (unfold h; lia).
    replace (len T / 16 * 16) with h by (unfold h; lia).
    rewrite Hst, Hsp. cbn [bind]. rewrite Hcp.
    rewrite CryptBlocks_whole by exact Hhead. cbn [bind].
    rewrite Hlsp, Hct'.
    replace st with (match p1 with
                     | Own _ => Own (skipn (Z.to_nat h) T)
                     | InBuf off n => InBuf (off + h) (n - h)
                     end); [reflexivity|].
    destruct p1 as [v | off n]; [now rewrite Hlt, Hct'|].
    rewrite Hlt. cbn [ref_len] in Hn. now rewrite Hn.
Qed.

(** What [Write] does to a decryptor does not depend on the bytes of the
    input overflow that the stream's record had before. *)
Lemma Decryptor_written_head
  (d : AESCBCDecryptor.t) (c1 X T : list byte) :
  len X = len c1 mod 16 ->
  let h := Z.to_nat (len c1 - len c1 mod 16) in
  Decryptor_written (Decryptor_written d c1) T =
  Decryptor_written (Decryptor_written d (firstn h c1 ++ X)) T /\
  skipn h (firstn h c1 ++ X) = X /\
  len (firstn h c1 ++ X) = len c1.
Proof.
  intros HX h.
  pose proof (len_nonneg c1) as Hpos.
  pose proof (Z.mod_pos_bound (len c1) 16 ltac:(lia)) as Hb.
  pose proof (Z.mod_le (len c1) 16 ltac:(lia) ltac:(lia)) as Hle.
  assert (Hlf : length (firstn h c1) = h).
  { rewrite length_firstn. unfold h, len in *. lia. }
  assert (Hl : len (firstn h c1 ++ X) = len c1).
  { rewrite len_app, HX. unfold len at 1. rewrite Hlf. unfold h. lia. }
  assert (Hf : firstn h (firstn h c1 ++ X) = firstn h c1).
  { rewrite firstn_app, Hlf, Nat.sub_diag, firstn_0, app_nil_r.
    rewrite firstn_firstn. f_equal. lia. }
  assert (Hs : skipn h (firstn h c1 ++ X) = X).
  { rewrite skipn_app, Hlf, Nat.sub_diag, skipn_0.
    rewrite skipn_all2 by lia. reflexivity. }
  split; [|split; assumption].
  unfold Decryptor_written.
  cbn [AESCBCDecryptor.inputoverflow AESCBCDecryptor.outputoverflow
       AESCBCDecryptor.cbc AESCBCDecryptor.update cbc_block cbc_iv
       AESCBCDecryptor.iv AESCBCDecryptor.aesKey AESCBCDecryptor.CopyBufferSize
       AESCBCDecryptor.cipher].
  rewrite Hl. fold h. rewrite Hf. reflexivity.
Qed.

(** X27. Ciphertext written to the decryptor through one buffer is decrypted
    wrongly when a chunk is not a whole number of blocks: [Write] keeps the
    residue as a slice of the caller's buffer, and the caller's refill
    overwrites it.  For two chunks, the first not a whole number of blocks
    and the second at least as long, what is decrypted in place of the
    residue of the first chunk are the bytes at the same offsets of the
    second chunk: [Write] of the two chunks, [Close] and the drain loop give
    what a single [Write] of the changed ciphertext gives. *)
Theorem decrypt_args_reused_buffer
  (aes_NewCipher : list byte -> Block) (key iv0 c1 c2 buf rbuf : list byte) :
  len c1 mod 16 <> 0 ->
  len c1 <= len c2 -> len c2 <= len buf ->
  let r := len c1 mod 16 in
  let h := Z.to_nat (len c1 - r) in
  decrypt_args aes_NewCipher key iv0 [Reuse c1; Reuse c2] buf rbuf =
  decrypt_all aes_NewCipher key iv0
    (firstn h c1 ++ firstn (Z.to_nat r) (skipn h c2) ++ c2) rbuf.
Proof.
  intros Hun Hle Hfit r h.
  pose proof (len_nonneg c1) as Hpos.
  pose proof (Z.mod_pos_bound (len c1) 16 ltac:(lia)) as Hb.
  pose proof (Z.mod_le (len c1) 16 ltac:(lia) ltac:(lia)) as Hmle.
  fold r in Hb, Hmle, Hun.
  set (X := firstn (Z.to_nat r) (skipn h c2)).
  assert (HX : len X = len c1 mod 16).
  { fold r. unfold X, len. rewrite length_firstn, length_skipn.
    unfold h, len in *. lia. }
  unfold decrypt_args, decrypt_all.
  destruct (NewAESCBCDecryptor aes_NewCipher key iv0) as [[[d|] err]| |] eqn:HN;
    cbn [bind]; try reflexivity.
  assert (Hd : AESCBCDecryptor.isClosed d = false /\
               AESCBCDecryptor.inputoverflow d = []).
  { unfold NewAESCBCDecryptor in HN.
    destruct (negb (len key =? 32)); [discriminate|].
    destruct (negb (len iv0 =? 16)); [discriminate|].
    destruct (NewCBC _ _) as [m| |]; cbn [bind] in HN; try discriminate.
    injection HN as <- _. auto. }
  destruct Hd as [Hcl Hio].
  destruct (Decryptor_written_head d c1 X (X ++ c2) HX) as (Hhead & Hskip & HlT1).
  fold r h in Hhead, Hskip, HlT1.
  (* a single [Write] of the changed ciphertext *)
  rewrite (Decryptor_Write_open d _ Hcl). cbn zeta. cbn [bind].
  rewrite Hio. cbn [app].
  rewrite app_assoc, <- (Decryptor_written_written d (firstn h c1 ++ X) c2).
  rewrite HlT1. fold r h. rewrite Hskip, <- Hhead.
  (* through the buffer: the first chunk *)
  cbn [Decryptor_WriteArgs Decryptor_Write_arg].
  rewrite copy_fits by lia.
  destruct (script_Read_fits c1 None [] buf) as (_ & Hl1 & Hf1); [lia|].
  set (buf1 := c1 ++ skipn (length c1) buf) in *.
  rewrite ref_slice_buf by lia. cbn [bind].
  rewrite (Decryptor_Write_shared_open d (Own []) (InBuf 0 (len c1))
             (InBuf 0 (len c1)) buf1 buf1 c1 Hcl);
    [| reflexivity | cbn [ref_ok]; lia | cbn [contents Z.to_nat skipn]; exact Hf1].
  cbn [bind]. unfold Decryptor_kept.
  replace (len c1 mod 16 =? 0) with false
    by (symmetry; apply Z.eqb_neq; exact Hun).
  fold r. rewrite Z.add_0_l.
  replace (len c1 - (len c1 - r)) with r by lia.
  (* the second chunk overwrites the residue that was kept *)
  rewrite copy_fits by lia.
  destruct (script_Read_fits c2 None [] buf1) as (_ & Hl2 & Hf2); [lia|].
  set (buf2 := c2 ++ skipn (length c2) buf1) in *.
  pose proof (len_nonneg c2).
  rewrite ref_slice_buf by lia. cbn [bind].
  assert (Hok : ref_ok (InBuf (len c1 - r) r) buf2) by (cbn [ref_ok]; lia).
  destruct (ref_append_spec (InBuf (len c1 - r) r)
              (contents (InBuf 0 (len c2)) buf2) buf2 Hok)
    as (p1 & buf3 & Happ & Hok1 & Hcont & _).
  assert (HT : contents p1 buf3 = X ++ c2).
  { rewrite Hcont. cbn [contents Z.to_nat skipn]. rewrite Hf2. f_equal.
    unfold X, h, buf2. apply firstn_skipn_app. unfold len in *. lia. }
  destruct (Decryptor_written_open d c1) as (Hcl1 & _).
  rewrite (Decryptor_Write_shared_open (Decryptor_written d c1)
             (InBuf (len c1 - r) r) (InBuf 0 (len c2)) p1 buf2 buf3 (X ++ c2) Hcl1);
    [| | exact Hok1 | exact HT].
  - cbn [bind]. reflexivity.
  - cbn [ref_len]. replace (r >? 0) with true by (symmetry; apply Z.gtb_lt; lia).
    exact Happ.
Qed.

Lemma decrypt_args_reused_buffer_witness :
  let P := [Byte.x01; Byte.x02; Byte.x03; Byte.x04; Byte.x05; Byte.x06;
            Byte.x07; Byte.x08; Byte.x09; Byte.x0a; Byte.x0b; Byte.x0c;
            Byte.x0d; Byte.x0e; Byte.x0f] in
  let c := fst (cbc_encrypt (toy_NewCipher toy_key) toy_iv (P ++ padding 15)) in
  decrypt_args toy_NewCipher toy_key toy_iv
    [Reuse (firstn 5 c); Reuse (skipn 5 c)] (zeros 16) (zeros 4) =
  Returns ([], Some ErrInvalidPadding) /\
  decrypt_args toy_NewCipher toy_key toy_iv
    [Fresh (firstn 5 c); Fresh (skipn 5 c)] (zeros 16) (zeros 4) =
  Returns (P, None).
Proof.
  intros P c. split; [|reflexivity].
  rewrite (decrypt_args_reused_buffer toy_NewCipher toy_key toy_iv
             (firstn 5 c) (skipn 5 c) (zeros 16) (zeros 4)).
  - reflexivity.
  - vm_compute. discriminate.
  - vm_compute. discriminate.
  - vm_compute. discriminate.
Defined.
